(** * Mirroapp kiosk back end: job orchestration layer

    A shallow embedding of the three orchestration components of the
    back end and the properties established about them:

    - [Generation]: [AIProcessor] (services/ai/processor.ts), the
      bounded-concurrency style-generation queue and its style pipeline;
    - [Printer]: [PrinterQueue] (services/printer/hitiDriver.ts), the
      serial retrying print queue;
    - [Camera]: [CameraService] (services/camera/cameraService.ts), the
      live-view broadcaster, together with the web-socket wiring of
      index.ts that drives it.

    Modelling conventions.  JavaScript numbers that hold counts are [Z];
    numbers that hold image parameters are exact rationals [Q] (IEEE
    rounding, NaN and the infinities are outside the model).  Promises
    are modelled by explicit events: an asynchronous method is split at
    the points where it waits for the outside world, and the outcome of
    the awaited call is carried by the event that resumes it. *)

From Stdlib Require Import ZArith QArith Qminmax Qround Lia Lqa List String Ascii.
From stdpp Require Import gmap strings list fin_maps.

Local Open Scope Z_scope.

(** Byte buffers (Node's [Buffer]). *)
Abbreviation Buffer := (list Byte.byte).

(** Result of a computation that may throw: [Err msg] is a thrown
    [Error] with message [msg]. *)
Inductive Result (A : Type) : Type :=
| Ok (a : A)
| Err (msg : string).
Arguments Ok {A} a.
Arguments Err {A} msg.

(** JavaScript truthiness of an optional string: [undefined] and the
    empty string are falsy. *)
Definition truthy (s : option string) : bool :=
  match s with
  | Some EmptyString => false
  | Some _ => true
  | None => false
  end.

(** Decimal rendering of a non-negative count, as a template literal
    renders it. *)
Definition digit (n : nat) : string :=
  String (ascii_of_nat (48 + n)) EmptyString.

Fixpoint decimal_fuel (fuel n : nat) (acc : string) : string :=
  match fuel with
  | O => acc
  | S f =>
      let acc' := (digit (n mod 10) ++ acc)%string in
      if (n / 10 =? 0)%nat then acc' else decimal_fuel f (n / 10)%nat acc'
  end.

Definition decimal (n : nat) : string := decimal_fuel (S n) n EmptyString.

(* ===================================================================== *)
(** * The generation queue: [AIProcessor] *)
(* ===================================================================== *)

Module Generation.

Inductive StyleType :=
| Vogue | Cartoon | Cyberpunk | Anime | PopArt | Freestyle | Studio | Cinematic.

Definition StyleType_eqb (a b : StyleType) : bool :=
  match a, b with
  | Vogue, Vogue | Cartoon, Cartoon | Cyberpunk, Cyberpunk | Anime, Anime
  | PopArt, PopArt | Freestyle, Freestyle | Studio, Studio
  | Cinematic, Cinematic => true
  | _, _ => false
  end.

(** The style token as the string the source uses. *)
Definition style_name (s : StyleType) : string :=
  match s with
  | Vogue => "Vogue" | Cartoon => "Cartoon" | Cyberpunk => "Cyberpunk"
  | Anime => "Anime" | PopArt => "Pop Art" | Freestyle => "Freestyle"
  | Studio => "Studio" | Cinematic => "Cinematic"
  end.

Definition lower_ascii (c : ascii) : ascii :=
  let n := nat_of_ascii c in
  if ((65 <=? n) && (n <=? 90))%nat then ascii_of_nat (n + 32) else c.

Fixpoint toLowerCase (s : string) : string :=
  match s with
  | EmptyString => EmptyString
  | String c r => String (lower_ascii c) (toLowerCase r)
  end.

Record AIJobRequest := {
  sourcePath : option string;
  base64 : option string;
  prompt : option string;
  style : option StyleType;
  intensity : option Q;
  variations : option Q;
}.

Record AIJobResult := {
  outputs : list string;
  previews : list string;
  res_style : StyleType;
  res_prompt : option string;
  res_provider : string;
  startedAt : Z;
  completedAt : Z;
}.

Record AIProcessorOptions := {
  processedDir : string;
  maxParallelJobs : Z;
  provider : string;
  defaultStyle : StyleType;
}.

Record StylePreset := {
  saturation : Q;
  contrast : Q;
  gamma : Q;
  blur : option Q;
  tint : option (Z * Z * Z);
}.

Definition STYLE_PRESETS (s : StyleType) : StylePreset :=
  match s with
  | Vogue => {| saturation := 105 # 100; contrast := 11 # 10; gamma := 95 # 100;
                blur := None; tint := None |}
  | Cartoon => {| saturation := 14 # 10; contrast := 125 # 100; gamma := 8 # 10;
                  blur := Some (5 # 10); tint := None |}
  | Cyberpunk => {| saturation := 15 # 10; contrast := 13 # 10; gamma := 9 # 10;
                    blur := None; tint := Some (120, 60, 200) |}
  | Anime => {| saturation := 135 # 100; contrast := 115 # 100; gamma := 85 # 100;
                blur := None; tint := None |}
  | PopArt => {| saturation := 16 # 10; contrast := 14 # 10; gamma := 7 # 10;
                 blur := None; tint := None |}
  | Freestyle => {| saturation := 1; contrast := 1; gamma := 1;
                    blur := None; tint := None |}
  | Studio => {| saturation := 11 # 10; contrast := 12 # 10; gamma := 9 # 10;
                 blur := None; tint := None |}
  | Cinematic => {| saturation := 95 # 100; contrast := 125 # 100; gamma := 105 # 100;
                    blur := None; tint := Some (255, 130, 60) |}
  end.

(** The caption layer of [buildWatermark], kept as its parameters
    rather than as SVG text. *)
Record Watermark := {
  wm_width : Z;
  wm_height : Z;
  wm_style : StyleType;
  wm_prompt : string;
}.

Definition buildWatermark (st : StyleType) (p : option string) : Watermark :=
  {| wm_width := 600;
     wm_height := if truthy p then 140 else 90;
     wm_style := st;
     wm_prompt := match p with
                  | Some s => if truthy p then substring 0 120 s else EmptyString
                  | None => EmptyString
                  end |}.

(** The calls made on the sharp pipeline, in call order. *)
Inductive PipelineOp :=
| Resize (w h : Z)
| Modulate (sat bri : Q)
| Linear (a b : Q)
| Gamma (g : Q)
| Blur (sigma : Q)
| CompositeTint (r g b : Z) (alpha : Q)
| Median (n : Z)
| SharpenTuned
| Threshold (t : Z)
| SharpenDefault
| ModulateHue (hue : Z) (sat : Q)
| CompositeWatermark (wm : Watermark)
| Jpeg (quality : Z).

(** [1 + (((seed * 13) % 7) / 20)]; [%] is JavaScript's truncating
    remainder. *)
Definition variationFactor (seed : Z) : Q :=
  1 + inject_Z (Z.rem (seed * 13) 7) / 20.

Definition truthyQ (q : Q) : bool := negb (Qeq_bool q 0).

Definition applyStyle (st : StyleType) (intens : Q) (seed : Z)
    (p : option string) : list PipelineOp :=
  let preset := STYLE_PRESETS st in
  [ Resize 2048 2048;
    Modulate (saturation preset * (1 + intens * (2 # 10)) * variationFactor seed)
             (1 + intens * (5 # 100));
    Linear (contrast preset) (- (contrast preset - 1) * 32);
    Gamma (gamma preset) ]
  ++ match blur preset with
     | Some b => if truthyQ b
                 then [ Blur (b * intens + inject_Z seed * (2 # 100)) ]
                 else []
     | None => []
     end
  ++ match tint preset with
     | Some (r, g, b) => [ CompositeTint r g b ((15 # 100) * intens) ]
     | None => []
     end
  ++ (if StyleType_eqb st Cartoon
      then [ Median 3; SharpenTuned; Threshold 235 ]
      else if StyleType_eqb st Cyberpunk
      then [ SharpenDefault; Linear (12 # 10) (- 15); ModulateHue 30 (12 # 10) ]
      else [])
  ++ [ CompositeWatermark (buildWatermark st p); Jpeg 93 ].

(** Everything a run of [generate] obtains from outside the process:
    the results of its file and image-library calls (an [Err] is the
    error the call throws), what [path.join] of the platform makes of
    a directory and a file name, the identifiers drawn for the file
    names, and the two readings of the clock. *)
Record World := {
  readFile : string -> Result Buffer;
  fromBase64 : string -> Buffer;
  toBase64 : Buffer -> string;
  sharp : Buffer -> list PipelineOp -> Result Buffer;
  writeFile : string -> Buffer -> Result unit;
  join : string -> string -> string;
  randomUUID : Z -> string;
  clock_start : Z;
  clock_end : Z;
}.

(** The calls that produce the artifacts of a job, as [generate] makes
    them: a run of the image pipeline on a buffer, and the write of a
    file. *)
Inductive Call :=
| CallSharp (input : Buffer) (ops : list PipelineOp)
| CallWriteFile (path : string) (data : Buffer).

(** [request.base64.split(',')[1]]: the text between the first and the
    second comma, when there is a first comma. *)
Fixpoint upto_comma (s : string) : string :=
  match s with
  | EmptyString => EmptyString
  | String c r => if Ascii.eqb c "," then EmptyString else String c (upto_comma r)
  end.

Fixpoint second_field (s : string) : option string :=
  match s with
  | EmptyString => None
  | String c r => if Ascii.eqb c "," then Some (upto_comma r) else second_field r
  end.

Definition loadSource (w : World) (req : AIJobRequest) : Result Buffer :=
  if truthy (base64 req) then
    match base64 req with
    | Some b =>
        match second_field b with
        | Some raw => Ok (fromBase64 w raw)
        | None => Ok (fromBase64 w b)
        end
    | None => Err "No AI source provided"
    end
  else if negb (truthy (sourcePath req)) then Err "No AI source provided"
  else match sourcePath req with
       | Some p => readFile w p
       | None => Err "No AI source provided"
       end.

Definition effective_variations (req : AIJobRequest) : Q :=
  Qmax 1 (Qmin 5 (match variations req with Some v => v | None => 1 end)).

Definition effective_intensity (req : AIJobRequest) : Q :=
  Qmin 1 (Qmax 0 (match intensity req with Some v => v | None => 7 # 10 end)).

Definition effective_style (opts : AIProcessorOptions) (req : AIJobRequest)
    : StyleType :=
  match style req with Some s => s | None => defaultStyle opts end.

(** The file name of variation [i] without its extension, the file
    name, and the path it is written to. *)
Definition stem (w : World) (st : StyleType) (i : Z) : string :=
  (randomUUID w i ++ "-" ++ toLowerCase (style_name st) ++ "-v"
   ++ decimal (Z.to_nat (i + 1)))%string.

Definition filename (w : World) (st : StyleType) (i : Z) : string :=
  (randomUUID w i ++ "-" ++ toLowerCase (style_name st) ++ "-v"
   ++ decimal (Z.to_nat (i + 1)) ++ ".jpg")%string.

Definition outputPath (w : World) (opts : AIProcessorOptions)
    (st : StyleType) (i : Z) : string :=
  join w (processedDir opts) (filename w st i).

Definition preview (w : World) (b : Buffer) : string :=
  ("data:image/jpeg;base64," ++ toBase64 w b)%string.

(** The body of [for (let i = 0; i < variations; i += 1)].  The guard is
    tested first; [None] means the fuel ran out with the guard still
    true.  [calls] records the image-library and write calls made so
    far, a failed call included. *)
Fixpoint variation_loop (w : World) (opts : AIProcessorOptions)
    (src : Buffer) (st : StyleType) (intens : Q) (p : option string)
    (vars : Q) (fuel : nat) (i : Z) (outs prevs : list string)
    (calls : list Call)
    : option (Result (list string * list string) * list Call) :=
  if Qle_bool vars (inject_Z i) then Some (Ok (outs, prevs), calls)
  else match fuel with
       | O => None
       | S f =>
           let ops := applyStyle st intens i p in
           match sharp w src ops with
           | Err m => Some (Err m, calls ++ [CallSharp src ops])
           | Ok vbuf =>
               let path := outputPath w opts st i in
               match writeFile w path vbuf with
               | Err m =>
                   Some (Err m,
                         calls ++ [CallSharp src ops; CallWriteFile path vbuf])
               | Ok _ =>
                   variation_loop w opts src st intens p vars f (i + 1)
                     (outs ++ [path]) (prevs ++ [preview w vbuf])
                     (calls ++ [CallSharp src ops; CallWriteFile path vbuf])
               end
           end
       end.

(** [generate], with the calls it made. *)
Definition run_generate (w : World) (opts : AIProcessorOptions)
    (req : AIJobRequest) : option (Result AIJobResult * list Call) :=
  if negb (truthy (sourcePath req)) && negb (truthy (base64 req))
  then Some (Err "AI job missing source image", [])
  else
    let st := effective_style opts req in
    let vars := effective_variations req in
    let intens := effective_intensity req in
    match loadSource w req with
    | Err m => Some (Err m, [])
    | Ok src =>
        match variation_loop w opts src st intens (prompt req) vars 5 0 [] [] []
        with
        | None => None
        | Some (Err m, calls) => Some (Err m, calls)
        | Some (Ok (outs, prevs), calls) =>
            Some (Ok {| outputs := outs; previews := prevs; res_style := st;
                        res_prompt := prompt req;
                        res_provider := provider opts;
                        startedAt := clock_start w;
                        completedAt := clock_end w |}, calls)
        end
    end.

(** What [generate] returns or throws. *)
Definition generate (w : World) (opts : AIProcessorOptions)
    (req : AIJobRequest) : option (Result AIJobResult) :=
  match run_generate w opts req with
  | Some (res, _) => Some res
  | None => None
  end.

(** ** The queue *)

(** A queue entry.  The [resolve] and [reject] callbacks of the source's
    [PendingJob] belong to the promise returned by [enqueue]; the model
    names that promise by [ticket], the number of [enqueue] calls made
    before this one, and records how each promise settles in
    [settled]. *)
Record PendingJob := {
  ticket : nat;
  request : AIJobRequest;
}.

Inductive Outcome :=
| Resolved (r : AIJobResult)
| Rejected (msg : string).

Record State := {
  queue : list PendingJob;
  activeJobs : Z;
  (** jobs whose [runJob] promise is pending *)
  running : list PendingJob;
  (** jobs whose caller has been answered and whose [finally] handler
      has not run yet *)
  releasing : list nat;
  (** [setImmediate] callbacks scheduled and not yet run *)
  immediates : nat;
  (** the promises settled so far, latest first *)
  settled : list (nat * Outcome);
  (** number of [enqueue] calls so far *)
  submitted : nat;
  (** tickets for which [activeJobs += 1] ran, in that order *)
  admitted : list nat;
}.

Definition init : State :=
  {| queue := []; activeJobs := 0; running := []; releasing := [];
     immediates := O; settled := []; submitted := O; admitted := [] |}.

Definition set_immediates (n : nat) (st : State) : State :=
  {| queue := queue st; activeJobs := activeJobs st; running := running st;
     releasing := releasing st; immediates := n; settled := settled st;
     submitted := submitted st; admitted := admitted st |}.

Definition processQueue (opts : AIProcessorOptions) (st : State) : State :=
  if activeJobs st >=? maxParallelJobs opts then st
  else match queue st with
       | [] => st
       | job :: rest =>
           {| queue := rest;
              activeJobs := activeJobs st + 1;
              running := running st ++ [job];
              releasing := releasing st;
              immediates := immediates st;
              settled := settled st;
              submitted := submitted st;
              admitted := admitted st ++ [ticket job] |}
       end.

Definition enqueue (opts : AIProcessorOptions) (req : AIJobRequest)
    (st : State) : State :=
  processQueue opts
    {| queue := queue st ++ [ {| ticket := submitted st; request := req |} ];
       activeJobs := activeJobs st;
       running := running st;
       releasing := releasing st;
       immediates := immediates st;
       settled := settled st;
       submitted := S (submitted st);
       admitted := admitted st |}.

Definition getPendingJobs (st : State) : Z :=
  Z.of_nat (length (queue st)) + activeJobs st.

(** [runJob]: the outcome delivered to the caller of [enqueue];
    [None] when the model of [generate] ran out of fuel. *)
Definition runJob (w : World) (opts : AIProcessorOptions) (job : PendingJob)
    : option Outcome :=
  match generate w opts (request job) with
  | None => None
  | Some (Ok r) => Some (Resolved r)
  | Some (Err m) => Some (Rejected m)
  end.

Fixpoint find_job (t : nat) (l : list PendingJob) : option PendingJob :=
  match l with
  | [] => None
  | j :: r => if (ticket j =? t)%nat then Some j else find_job t r
  end.

Fixpoint remove_job (t : nat) (l : list PendingJob) : list PendingJob :=
  match l with
  | [] => []
  | j :: r => if (ticket j =? t)%nat then r else j :: remove_job t r
  end.

Fixpoint remove_ticket (t : nat) (l : list nat) : option (list nat) :=
  match l with
  | [] => None
  | x :: r => if (x =? t)%nat then Some r
              else match remove_ticket t r with
                   | Some r' => Some (x :: r')
                   | None => None
                   end
  end.

(** The run of job [t] ends: [job.resolve] or [job.reject] answers the
    caller.  The job still holds its slot. *)
Definition settle (w : World) (opts : AIProcessorOptions) (t : nat)
    (st : State) : option State :=
  match find_job t (running st) with
  | None => None
  | Some job =>
      match runJob w opts job with
      | None => None
      | Some out =>
          Some {| queue := queue st;
                  activeJobs := activeJobs st;
                  running := remove_job t (running st);
                  releasing := releasing st ++ [t];
                  immediates := immediates st;
                  settled := (t, out) :: settled st;
                  submitted := submitted st;
                  admitted := admitted st |}
      end
  end.

(** The [finally] handler of job [t] runs: it releases the slot and
    schedules a new admission attempt. *)
Definition release (t : nat) (st : State) : option State :=
  match remove_ticket t (releasing st) with
  | None => None
  | Some rest =>
      Some {| queue := queue st;
              activeJobs := activeJobs st - 1;
              running := running st;
              releasing := rest;
              immediates := S (immediates st);
              settled := settled st;
              submitted := submitted st;
              admitted := admitted st |}
  end.

(** A scheduled [setImmediate(() => this.processQueue())] runs. *)
Definition immediate (opts : AIProcessorOptions) (st : State) : option State :=
  match immediates st with
  | O => None
  | S n => Some (processQueue opts (set_immediates n st))
  end.

Inductive Event :=
| Enqueue (req : AIJobRequest)
| Settle (t : nat) (w : World)
| Release (t : nat)
| Immediate.

Definition step (opts : AIProcessorOptions) (st : State) (e : Event)
    : option State :=
  match e with
  | Enqueue req => Some (enqueue opts req st)
  | Settle t w => settle w opts t st
  | Release t => release t st
  | Immediate => immediate opts st
  end.

Fixpoint run (opts : AIProcessorOptions) (st : State) (es : list Event)
    : option State :=
  match es with
  | [] => Some st
  | e :: r => match step opts st e with
              | Some st' => run opts st' r
              | None => None
              end
  end.

Inductive reachable (opts : AIProcessorOptions) : State -> Prop :=
| reach_init : reachable opts init
| reach_step st e st' :
    reachable opts st -> step opts st e = Some st' -> reachable opts st'.

(** Job [t] waits in the queue. *)
Definition waiting (t : nat) (st : State) : Prop :=
  In t (map ticket (queue st)).

Definition missing_source (req : AIJobRequest) : Prop :=
  truthy (sourcePath req) = false /\ truthy (base64 req) = false.

(** ** Invariants *)

(** Slot accounting. *)
Record slots_ok (opts : AIProcessorOptions) (st : State) : Prop := {
  slots_lower : 0 <= activeJobs st;
  slots_upper : activeJobs st <= maxParallelJobs opts;
  slots_running : activeJobs st
                  = Z.of_nat (length (running st) + length (releasing st));
  slots_busy : queue st <> [] ->
               maxParallelJobs opts <= activeJobs st + Z.of_nat (immediates st);
}.

(** Admission order. *)
Record fifo_ok (st : State) : Prop := {
  fifo_admitted : admitted st = seq 0 (length (admitted st));
  fifo_queue : map ticket (queue st)
               = seq (length (admitted st)) (length (queue st));
  fifo_total : submitted st = (length (admitted st) + length (queue st))%nat;
}.

(** ** Sample configuration and requests *)

Definition kiosk_options (n : Z) : AIProcessorOptions :=
  {| processedDir := "processed"; maxParallelJobs := n;
     provider := "nano-banana"; defaultStyle := Vogue |}.

Definition no_source_request : AIJobRequest :=
  {| sourcePath := None; base64 := None; prompt := None;
     style := Some Cartoon; intensity := None; variations := None |}.

Definition file_request (v : option Q) : AIJobRequest :=
  {| sourcePath := Some "capture.jpg"%string; base64 := None; prompt := None;
     style := Some Cartoon; intensity := Some (7 # 10)%Q; variations := v |}.

(** A world in which every external call succeeds, with [path.join] as
    it is on POSIX for a plain directory and a plain file name. *)
Definition fair_world : World :=
  {| readFile := fun _ => Ok [];
     fromBase64 := fun _ => [];
     toBase64 := fun _ => EmptyString;
     sharp := fun b _ => Ok b;
     writeFile := fun _ _ => Ok tt;
     join := fun d f => (d ++ "/" ++ f)%string;
     randomUUID := fun i => decimal (Z.to_nat i);
     clock_start := 0;
     clock_end := 1 |}.

(** The reading of "never occupies a concurrency slot": once [req] is
    enqueued, the counter is never incremented for its ticket. *)
Definition never_admitted (opts : AIProcessorOptions) (req : AIJobRequest)
    : Prop :=
  forall st es st',
    reachable opts st ->
    run opts st (Enqueue req :: es) = Some st' ->
    ~ In (submitted st) (admitted st').

(** Equality of pipeline calls up to the representation of their
    rational parameters. *)
Definition op_equiv (x y : PipelineOp) : Prop :=
  match x, y with
  | Resize w h, Resize w' h' => w = w' /\ h = h'
  | Modulate s b, Modulate s' b' => (s == s')%Q /\ (b == b')%Q
  | Linear a b, Linear a' b' => (a == a')%Q /\ (b == b')%Q
  | Gamma g, Gamma g' => (g == g')%Q
  | Blur g, Blur g' => (g == g')%Q
  | CompositeTint r g b al, CompositeTint r' g' b' al' =>
      r = r' /\ g = g' /\ b = b' /\ (al == al')%Q
  | Median n, Median n' => n = n'
  | SharpenTuned, SharpenTuned => True
  | Threshold t, Threshold t' => t = t'
  | SharpenDefault, SharpenDefault => True
  | ModulateHue h s, ModulateHue h' s' => h = h' /\ (s == s')%Q
  | CompositeWatermark wm, CompositeWatermark wm' => wm = wm'
  | Jpeg q, Jpeg q' => q = q'
  | _, _ => False
  end.

(** A requested variation count that is a whole number (or absent). *)
Definition is_count (v : option Q) : Prop :=
  match v with
  | Some q => (q == inject_Z (Qfloor q))%Q
  | None => True
  end.

(** Every call on the image library and every write succeeds. *)
Definition io_succeeds (w : World) : Prop :=
  (forall b ops, exists out, sharp w b ops = Ok out) /\
  (forall path b, writeFile w path b = Ok tt).

(** ** Further invariants and helpers *)

(** How the admitted jobs are accounted for: each was admitted once and
    is either still running or has had its caller answered. *)
Record outcomes_ok (opts : AIProcessorOptions) (st : State) : Prop := {
  oo_admitted : admitted st ≡ₚ map ticket (running st) ++ map fst (settled st);
  oo_releasing : forall t, In t (releasing st) -> In t (map fst (settled st));
  oo_active : activeJobs st
              = Z.of_nat (length (running st) + length (releasing st));
  oo_bound : activeJobs st <= Z.max 0 (maxParallelJobs opts);
}.

Fixpoint has_comma (s : string) : bool :=
  match s with
  | EmptyString => false
  | String c r => if Ascii.eqb c "," then true else has_comma r
  end.

(** ** What the loop of [generate] does, call by call *)

(** The two calls of iteration [i], [b] being the variation made. *)
Definition iteration_calls (w : World) (opts : AIProcessorOptions)
    (src : Buffer) (st : StyleType) (intens : Q) (p : option string)
    (i : Z) (b : Buffer) : list Call :=
  [ CallSharp src (applyStyle st intens i p);
    CallWriteFile (outputPath w opts st i) b ].

(** The calls of the iterations [i], [i + 1], ... that made [bufs]. *)
Fixpoint loop_calls (w : World) (opts : AIProcessorOptions)
    (src : Buffer) (st : StyleType) (intens : Q) (p : option string)
    (i : Z) (bufs : list Buffer) : list Call :=
  match bufs with
  | [] => []
  | b :: r =>
      iteration_calls w opts src st intens p i b
      ++ loop_calls w opts src st intens p (i + 1) r
  end.

(** Both calls of each of these iterations succeeded, the image
    library producing [bufs]. *)
Fixpoint all_ok (w : World) (opts : AIProcessorOptions)
    (src : Buffer) (st : StyleType) (intens : Q) (p : option string)
    (i : Z) (bufs : list Buffer) : Prop :=
  match bufs with
  | [] => True
  | b :: r =>
      sharp w src (applyStyle st intens i p) = Ok b /\
      writeFile w (outputPath w opts st i) b = Ok tt /\
      all_ok w opts src st intens p (i + 1) r
  end.

(** Iteration [i] failed with [m], making the calls [last]: the image
    library threw, or it made a variation and the write threw. *)
Definition failed_at (w : World) (opts : AIProcessorOptions)
    (src : Buffer) (st : StyleType) (intens : Q) (p : option string)
    (i : Z) (m : string) (last : list Call) : Prop :=
  (sharp w src (applyStyle st intens i p) = Err m /\
   last = [ CallSharp src (applyStyle st intens i p) ]) \/
  (exists b, sharp w src (applyStyle st intens i p) = Ok b /\
             writeFile w (outputPath w opts st i) b = Err m /\
             last = iteration_calls w opts src st intens p i b).

(** The reading of "the number of output artifacts and previews
    produced equals the clamped variation count". *)
Definition outputs_match_clamped_count : Prop :=
  forall w opts req r,
    generate w opts req = Some (Ok r) ->
    (inject_Z (Z.of_nat (length (outputs r))) == effective_variations req)%Q /\
    (inject_Z (Z.of_nat (length (previews r))) == effective_variations req)%Q.

(** A text without a path separator of either platform. *)
Fixpoint separator_free (s : string) : bool :=
  match s with
  | EmptyString => true
  | String c r =>
      negb (Ascii.eqb c "/") && negb (Ascii.eqb c (ascii_of_nat 92))
      && separator_free r
  end.

(** What is assumed of [path.join] where file names must stay apart:
    joined to the same directory, two [.jpg] names without a separator
    give the same path only if they are the same name. *)
Definition keeps_names (w : World) (dir : string) : Prop :=
  forall a b,
    separator_free a = true -> separator_free b = true ->
    join w dir (a ++ ".jpg") = join w dir (b ++ ".jpg") -> a = b.

(** A request for the style that leaves the picture as it is, and a
    world in which the image library refuses every call. *)
Definition freestyle_request (v : option Q) : AIJobRequest :=
  {| sourcePath := Some "capture.jpg"%string; base64 := None; prompt := None;
     style := Some Freestyle; intensity := None; variations := v |}.

Definition broken_world : World :=
  {| readFile := readFile fair_world;
     fromBase64 := fromBase64 fair_world;
     toBase64 := toBase64 fair_world;
     sharp := fun _ _ => Err "Input buffer contains unsupported image format";
     writeFile := writeFile fair_world;
     join := join fair_world;
     randomUUID := randomUUID fair_world;
     clock_start := 0;
     clock_end := 1 |}.

End Generation.

(* ===================================================================== *)
(** * The print queue: [PrinterQueue] *)
(* ===================================================================== *)

Module Printer.

Inductive Format := F4x6 | F2x6.

Inductive PrintStatus := Queued | Printing | Completed | Error.

Record PrintJob := {
  filePath : string;
  format : Format;
  copies : option Z;
  printer : option string;
}.

Record PrintJobState := {
  js_filePath : string;
  js_format : Format;
  js_copies : Z;
  js_printer : option string;
  id : string;
  status : PrintStatus;
  createdAt : Z;
  attempts : Z;
  error : option string;
}.

Record PrinterQueueOptions := {
  defaultCopies : Z;
  queueRetries : Z;
  targetPrinters : list string;
}.

Inductive Platform := Win32 | Posix.

Definition set_status (s : PrintStatus) (j : PrintJobState) : PrintJobState :=
  {| js_filePath := js_filePath j; js_format := js_format j;
     js_copies := js_copies j; js_printer := js_printer j; id := id j;
     status := s; createdAt := createdAt j; attempts := attempts j;
     error := error j |}.

Definition set_error (e : option string) (j : PrintJobState) : PrintJobState :=
  {| js_filePath := js_filePath j; js_format := js_format j;
     js_copies := js_copies j; js_printer := js_printer j; id := id j;
     status := status j; createdAt := createdAt j; attempts := attempts j;
     error := e |}.

Definition set_attempts (n : Z) (j : PrintJobState) : PrintJobState :=
  {| js_filePath := js_filePath j; js_format := js_format j;
     js_copies := js_copies j; js_printer := js_printer j; id := id j;
     status := status j; createdAt := createdAt j; attempts := n;
     error := error j |}.

(** ** Dispatch *)

Definition decimalZ (z : Z) : string :=
  if z <? 0 then ("-" ++ decimal (Z.to_nat (- z)))%string
  else decimal (Z.to_nat z).

Record Command := {
  command : string;
  args : list string;
}.

(** [s.replace(/'/g, "''")] *)
Fixpoint escape_quotes (s : string) : string :=
  match s with
  | EmptyString => EmptyString
  | String c r =>
      if Ascii.eqb c "'" then String c (String c (escape_quotes r))
      else String c (escape_quotes r)
  end.

Definition dquote : string := String (ascii_of_nat 34) EmptyString.
Definition newline : string := String (ascii_of_nat 10) EmptyString.
Definition backslash : string := String (ascii_of_nat 92) EmptyString.

Definition buildWindowsScript (j : PrintJobState) : string :=
  let p := if truthy (js_printer j)
           then match js_printer j with
                | Some s => escape_quotes s
                | None => EmptyString
                end
           else EmptyString in
  let targetPrinter :=
    if truthy (Some p) then ("/d:" ++ dquote ++ p ++ dquote)%string
    else EmptyString in
  let escaped := escape_quotes (js_filePath j) in
  (newline ++ "$ErrorActionPreference = 'Stop';" ++ newline
   ++ "for ($i = 0; $i -lt " ++ decimalZ (js_copies j) ++ "; $i++) {" ++ newline
   ++ "  & $env:WINDIR" ++ backslash ++ "System32" ++ backslash ++ "print.exe "
   ++ targetPrinter ++ " '" ++ escaped ++ "'" ++ newline
   ++ "}" ++ newline)%string.

Definition printOnWindows (j : PrintJobState) : Command :=
  {| command := "powershell.exe";
     args := [ "-NoLogo"; "-NoProfile"; "-Command"; buildWindowsScript j ] |}.

Definition printOnPosix (j : PrintJobState) : Command :=
  {| command := "lp";
     args := (if truthy (js_printer j)
              then match js_printer j with
                   | Some p => [ "-d"; p ]
                   | None => []
                   end
              else [])
             ++ [ "-n"; decimalZ (js_copies j) ] ++ [ js_filePath j ] |}.

Definition dispatch (pf : Platform) (j : PrintJobState) : Command :=
  match pf with
  | Win32 => printOnWindows j
  | Posix => printOnPosix j
  end.

(** The first event of the spawned child that settles the promise of
    [spawnCommand]: ['exit'] with its code ([None] when the child was
    killed by a signal), or ['error'] with the error's [code] and
    [message]. *)
Inductive ChildEvent :=
| ChildExit (code : option Z)
| ChildError (code : option string) (message : string).

Definition code_text (c : option Z) : string :=
  match c with
  | Some z => decimalZ z
  | None => "null"
  end.

(** [error.code === 'ENOENT'] *)
Definition is_enoent (code : option string) : bool :=
  match code with
  | Some c => String.eqb c "ENOENT"
  | None => false
  end.

Definition spawnCommand (cmd : Command) (ev : ChildEvent) : Result unit :=
  match ev with
  | ChildExit (Some 0) => Ok tt
  | ChildExit c => Err (command cmd ++ " exited with code " ++ code_text c)
  | ChildError c msg => if is_enoent c then Ok tt else Err msg
  end.

(** ** The queue *)

(** Where the drain loop of [tick] is suspended. *)
Inductive Phase :=
| Idle
| AwaitAccess (r : nat)
| AwaitSpawn (r : nat).

(** Observable transitions, recorded for the proofs. *)
Inductive Transition :=
| TPrinting (r : nat)
| TSpawn (r : nat) (cmd : Command)
| TRequeued (r : nat)
| TCompleted (r : nat)
| TError (r : nat).

(** Job objects live in [heap]; [queue] and [jobs] hold references
    (indices into [heap]) to them, as the source's array and map hold
    references to the same [PrintJobState] objects. *)
Record State := {
  heap : list PrintJobState;
  queue : list nat;
  jobs : gmap string nat;
  processing : bool;
  phase : Phase;
  trace : list Transition;
}.

Definition init : State :=
  {| heap := []; queue := []; jobs := ∅; processing := false; phase := Idle;
     trace := [] |}.

Definition update (r : nat) (f : PrintJobState -> PrintJobState)
    (h : list PrintJobState) : list PrintJobState :=
  match h !! r with
  | Some j => <[r := f j]> h
  | None => h
  end.

(** [processJob] up to its first [await]: it marks the job as printing
    and asks whether its file exists. *)
Definition processJob (r : nat) (st : State) : State :=
  {| heap := update r (set_status Printing) (heap st); queue := queue st;
     jobs := jobs st; processing := processing st;
     phase := AwaitAccess r; trace := trace st ++ [TPrinting r] |}.

(** The [while] loop of [tick], run up to its next [await]. *)
Definition drain (st : State) : State :=
  match queue st with
  | [] =>
      {| heap := heap st; queue := []; jobs := jobs st; processing := false;
         phase := Idle; trace := trace st |}
  | r :: rest =>
      processJob r
        {| heap := heap st; queue := rest; jobs := jobs st;
           processing := processing st; phase := phase st;
           trace := trace st |}
  end.

Definition tick (st : State) : State :=
  if processing st then st
  else drain {| heap := heap st; queue := queue st; jobs := jobs st;
                processing := true; phase := phase st; trace := trace st |}.

(** [enqueue]; [newid] and [now] are what the id template and
    [Date.now()] produce. *)
Definition enqueue (opts : PrinterQueueOptions) (job : PrintJob)
    (newid : string) (now : Z) (st : State) : State :=
  let state :=
    {| js_filePath := filePath job; js_format := format job;
       js_copies := match copies job with
                    | Some c => c
                    | None => defaultCopies opts
                    end;
       js_printer := match printer job with
                     | Some p => Some p
                     | None => head (targetPrinters opts)
                     end;
       id := newid; createdAt := now; status := Queued; attempts := 0;
       error := None |} in
  let r := length (heap st) in
  tick {| heap := heap st ++ [state]; queue := queue st ++ [r];
          jobs := <[newid := r]> (jobs st); processing := processing st;
          phase := phase st; trace := trace st |}.

Definition getStatus (i : string) (st : State) : option PrintJobState :=
  match jobs st !! i with
  | Some r => heap st !! r
  | None => None
  end.

Record Metrics := {
  queued : nat;
  totalJobs : nat;
  printing : nat;
  errors : nat;
}.

Definition status_is (s : PrintStatus) (st : State) (r : nat) : bool :=
  match heap st !! r with
  | Some j => match status j, s with
              | Queued, Queued | Printing, Printing
              | Completed, Completed | Error, Error => true
              | _, _ => false
              end
  | None => false
  end.

Definition getMetrics (st : State) : Metrics :=
  let values := snd <$> map_to_list (jobs st) in
  {| queued := length (queue st);
     totalJobs := size (jobs st);
     printing := length (List.filter (status_is Printing st) values);
     errors := length (List.filter (status_is Error st) values) |}.

(** [processJob] resumes after [await access(job.filePath)]. *)
Definition processJob_access (pf : Platform) (ok : bool) (st : State)
    : option State :=
  match phase st with
  | AwaitAccess r =>
      match heap st !! r with
      | None => None
      | Some j =>
          if ok then
            Some {| heap := heap st; queue := queue st; jobs := jobs st;
                    processing := processing st; phase := AwaitSpawn r;
                    trace := trace st ++ [TSpawn r (dispatch pf j)] |}
          else
            Some (drain
                    {| heap := update r (fun j => set_error (Some "File not found"%string)
                                                    (set_status Error j)) (heap st);
                       queue := queue st; jobs := jobs st;
                       processing := processing st; phase := Idle;
                       trace := trace st ++ [TError r] |})
      end
  | _ => None
  end.

(** [processJob] resumes after the [await] of the dispatch. *)
Definition processJob_dispatch (opts : PrinterQueueOptions) (pf : Platform)
    (ev : ChildEvent) (st : State) : option State :=
  match phase st with
  | AwaitSpawn r =>
      match heap st !! r with
      | None => None
      | Some j =>
          match spawnCommand (dispatch pf j) ev with
          | Ok _ =>
              Some (drain
                      {| heap := update r (fun j => set_error None
                                                      (set_status Completed j)) (heap st);
                         queue := queue st; jobs := jobs st;
                         processing := processing st; phase := Idle;
                         trace := trace st ++ [TCompleted r] |})
          | Err msg =>
              let failed j :=
                set_error (Some msg) (set_attempts (attempts j + 1) j) in
              if attempts (failed j) <=? queueRetries opts then
                Some (drain
                        {| heap := update r (fun j => set_status Queued (failed j))
                                     (heap st);
                           queue := queue st ++ [r]; jobs := jobs st;
                           processing := processing st; phase := Idle;
                           trace := trace st ++ [TRequeued r] |})
              else
                Some (drain
                        {| heap := update r (fun j => set_status Error (failed j))
                                     (heap st);
                           queue := queue st; jobs := jobs st;
                           processing := processing st; phase := Idle;
                           trace := trace st ++ [TError r] |})
          end
      end
  | _ => None
  end.

Inductive Event :=
| Enqueue (job : PrintJob) (newid : string) (now : Z)
| AccessDone (ok : bool)
| SpawnDone (ev : ChildEvent).

Definition step (opts : PrinterQueueOptions) (pf : Platform) (st : State)
    (e : Event) : option State :=
  match e with
  | Enqueue job newid now => Some (enqueue opts job newid now st)
  | AccessDone ok => processJob_access pf ok st
  | SpawnDone ev => processJob_dispatch opts pf ev st
  end.

Fixpoint run (opts : PrinterQueueOptions) (pf : Platform) (st : State)
    (es : list Event) : option State :=
  match es with
  | [] => Some st
  | e :: r => match step opts pf st e with
              | Some st' => run opts pf st' r
              | None => None
              end
  end.

(** States reachable when every event obeys the environment assumption
    [env], given the state it arrives in. *)
Inductive reachable_under (opts : PrinterQueueOptions) (pf : Platform)
    (env : State -> Event -> Prop) : State -> Prop :=
| reach_init : reachable_under opts pf env init
| reach_step st e st' :
    reachable_under opts pf env st -> env st e ->
    step opts pf st e = Some st' -> reachable_under opts pf env st'.

Definition any_env : State -> Event -> Prop := fun _ _ => True.

Definition reachable (opts : PrinterQueueOptions) (pf : Platform)
    : State -> Prop :=
  reachable_under opts pf any_env.

(** Counting the transitions of one job in the trace. *)
Fixpoint count (f : Transition -> bool) (l : list Transition) : nat :=
  match l with
  | [] => O
  | t :: r => if f t then S (count f r) else count f r
  end.

Definition is_printing_of (r : nat) (t : Transition) : bool :=
  match t with
  | TPrinting r' => (r' =? r)%nat
  | _ => false
  end.

Definition is_spawn_of (r : nat) (t : Transition) : bool :=
  match t with
  | TSpawn r' _ => (r' =? r)%nat
  | _ => false
  end.

Definition is_requeue_of (r : nat) (t : Transition) : bool :=
  match t with
  | TRequeued r' => (r' =? r)%nat
  | _ => false
  end.

(** Number of [queued -> printing] transitions of job [r] so far. *)
Definition printings (r : nat) (st : State) : nat :=
  count (is_printing_of r) (trace st).

(** Number of dispatches of the print mechanism for job [r] so far. *)
Definition spawns (r : nat) (st : State) : nat :=
  count (is_spawn_of r) (trace st).

(** Number of times job [r] was appended back to the queue so far. *)
Definition requeues (r : nat) (st : State) : nat :=
  count (is_requeue_of r) (trace st).

(** The job the drain loop is working on. *)
Definition current (st : State) : option nat :=
  match phase st with
  | Idle => None
  | AwaitAccess r => Some r
  | AwaitSpawn r => Some r
  end.

(** The file of job [r] is missing whenever its existence is checked. *)
Definition file_missing_for (r : nat) : State -> Event -> Prop :=
  fun st e => phase st = AwaitAccess r -> e <> AccessDone true.

(** The file of job [r] exists whenever checked, and every dispatch of
    job [r] fails. *)
Definition always_fails_for (pf : Platform) (r : nat) : State -> Event -> Prop :=
  fun st e =>
    (phase st = AwaitAccess r -> e <> AccessDone false) /\
    (phase st = AwaitSpawn r ->
     forall ev j, e = SpawnDone ev -> heap st !! r = Some j ->
                  spawnCommand (dispatch pf j) ev <> Ok tt).

(** ** Invariants *)

(** What holds of the queue between two iterations of the drain
    loop. *)
Record loop_ok (opts : PrinterQueueOptions) (st : State) : Prop := {
  ok_nodup : NoDup (queue st);
  ok_queued : forall r, r ∈ queue st ->
      exists j, heap st !! r = Some j /\ status j = Queued /\
                attempts j <= queueRetries opts;
  ok_attempts : forall r j, heap st !! r = Some j ->
      0 <= attempts j <= queueRetries opts + 1;
  ok_exhausted : forall r j, heap st !! r = Some j ->
      queueRetries opts < attempts j -> status j = Error;
  ok_fresh : forall r, heap st !! r = None -> printings r st = O;
}.

(** What holds in every reachable state. *)
Record queue_ok (opts : PrinterQueueOptions) (st : State) : Prop := {
  ok_loop : loop_ok opts st;
  ok_current : forall r, current st = Some r ->
      exists j, heap st !! r = Some j /\ status j = Printing /\
                attempts j <= queueRetries opts;
  ok_busy : forall r, current st = Some r -> processing st = true;
  ok_idle : current st = None -> queue st = [] /\ processing st = false;
}.

(** What holds of job [r] while its file exists and its dispatches
    fail. *)
Record failing_ok (opts : PrinterQueueOptions) (r : nat) (st : State)
    : Prop := {
  fo_count : forall j, heap st !! r = Some j ->
      Z.of_nat (printings r st)
      = attempts j + (if decide (current st = Some r) then 1 else 0);
  fo_status : forall j, heap st !! r = Some j -> status j <> Completed;
  fo_error : forall j, heap st !! r = Some j -> status j = Error ->
      attempts j = queueRetries opts + 1;
}.

(** What holds of job [r] while its file is missing. *)
Record missing_ok (r : nat) (st : State) : Prop := {
  mo_spawns : spawns r st = O;
  mo_requeues : requeues r st = O;
  mo_phase : phase st <> AwaitSpawn r;
  mo_attempts : forall j, heap st !! r = Some j -> attempts j = 0;
  mo_status : forall j, heap st !! r = Some j -> status j <> Completed;
  mo_error : forall j, heap st !! r = Some j -> status j = Error ->
      error j = Some "File not found"%string;
}.

(** ** Sample configuration and jobs *)

Definition retry_options (n : Z) : PrinterQueueOptions :=
  {| defaultCopies := 1; queueRetries := n; targetPrinters := [] |}.

Definition photo_job : PrintJob :=
  {| filePath := "strip.jpg"; format := F4x6; copies := Some 3;
     printer := None |}.

(** One processing of a job whose file exists and whose dispatch exits
    with code 1. *)
Definition failed_attempt : list Event :=
  [ AccessDone true; SpawnDone (ChildExit (Some 1)) ].

(** The sample job, alone on the queue, waiting for its dispatch. *)
Definition awaiting_dispatch : State :=
  match run (retry_options 2) Posix init
          [Enqueue photo_job "print-1" 0; AccessDone true] with
  | Some st => st
  | None => init
  end.

Fixpoint failed_attempts (n : nat) : list Event :=
  match n with
  | O => []
  | S m => failed_attempt ++ failed_attempts m
  end.

(** The drain loop waits for the existence check of job [r], which has
    [k] failed attempts so far and has been taken from the queue [n]
    times; nothing else is queued. *)
Record focused (r : nat) (k : Z) (n : nat) (st : State) : Prop := {
  fc_queue : queue st = [];
  fc_phase : phase st = AwaitAccess r;
  fc_job : exists j, heap st !! r = Some j /\ attempts j = k;
  fc_count : printings r st = n;
}.

(** Job [r] has ended in [error] after [k] failed attempts, having been
    taken from the queue [n] times, and the drain loop has stopped. *)
Record exhausted (r : nat) (k : Z) (n : nat) (st : State) : Prop := {
  ex_job : exists j, heap st !! r = Some j /\ status j = Error /\
                     attempts j = k;
  ex_count : printings r st = n;
  ex_idle : phase st = Idle /\ processing st = false /\ queue st = [];
}.

(** ** The shape of the queue *)

(** What ties the job objects, the queue and the map of ids together:
    the queue holds exactly the jobs marked [queued], each once, and
    every id of the map leads to a job that carries it. *)
Record store_ok (h : list PrintJobState) (q : list nat)
    (m : gmap string nat) : Prop := {
  so_nodup : NoDup q;
  so_queued : forall r, r ∈ q ->
      exists j, h !! r = Some j /\ status j = Queued;
  so_waiting : forall r j, h !! r = Some j -> status j = Queued -> r ∈ q;
  so_jobs : forall i r, m !! i = Some r ->
      exists j, h !! r = Some j /\ id j = i;
}.

(** What holds in every reachable state, whatever the retry budget. *)
Record shape_ok (st : State) : Prop := {
  sh_store : store_ok (heap st) (queue st) (jobs st);
  sh_current : forall r, current st = Some r ->
      exists j, heap st !! r = Some j /\ status j = Printing;
  sh_printing : forall r j, heap st !! r = Some j -> status j = Printing ->
      current st = Some r;
  sh_busy : forall r, current st = Some r -> processing st = true;
  sh_idle : current st = None -> queue st = [] /\ processing st = false;
}.

(** The order in which jobs are taken up: the [k] jobs submitted first
    have been taken from the queue at least once, the later ones never,
    and these wait in the queue in the order of their submission. *)
Record order_ok (st : State) (k : nat) : Prop := {
  or_bound : (k <= length (heap st))%nat;
  or_taken : forall r, (r < k)%nat <-> (0 < printings r st)%nat;
  or_fresh : List.filter (fun r => (k <=? r)%nat) (queue st)
             = seq k (length (heap st) - k);
  or_current : forall r, current st = Some r -> (0 < printings r st)%nat;
}.

(** ** Progress *)

(** An event of the worker: the answer to one of its [await]s. *)
Definition is_worker (e : Event) : bool :=
  match e with
  | Enqueue _ _ _ => false
  | _ => true
  end.

(** Job [r] is stored and has not ended. *)
Definition unsettled (r : nat) (st : State) : Prop :=
  exists j, heap st !! r = Some j /\ (status j = Queued \/ status j = Printing).

(** The number of jobs in front of [r] in the queue. *)
Fixpoint position (r : nat) (q : list nat) : nat :=
  match q with
  | [] => O
  | x :: q' => if (x =? r)%nat then O else S (position r q')
  end.

(** How far job [r] is from its end: the attempts it has left, the
    number of jobs served before its next turn, and the [await]s left
    of the turn in progress. *)
Definition attempts_left (opts : PrinterQueueOptions) (r : nat) (st : State)
    : nat :=
  match heap st !! r with
  | Some j => Z.to_nat (queueRetries opts + 1 - attempts j)
  | None => O
  end.

Definition ahead (r : nat) (st : State) : nat :=
  match current st with
  | Some c => if (c =? r)%nat then O else S (position r (queue st))
  | None => position r (queue st)
  end.

Definition turn_left (st : State) : nat :=
  match phase st with
  | AwaitAccess _ => 2%nat
  | AwaitSpawn _ => 1%nat
  | Idle => O
  end.

(** [st'] is closer to the end of job [r] than [st], in the
    lexicographic order of the three measures. *)
Definition closer (opts : PrinterQueueOptions) (r : nat) (st' st : State)
    : Prop :=
  (attempts_left opts r st' < attempts_left opts r st)%nat \/
  (attempts_left opts r st' = attempts_left opts r st /\
   ((ahead r st' < ahead r st)%nat \/
    (ahead r st' = ahead r st /\ (turn_left st' < turn_left st)%nat))).

(** [st'] follows [st] by any number of submissions and then one event
    of the worker, job [r] being unsettled before and after, in an
    environment in which its file exists and its dispatches fail. *)
Inductive works_on (opts : PrinterQueueOptions) (pf : Platform) (r : nat)
    : State -> State -> Prop :=
| work_step st e st' :
    reachable_under opts pf (always_fails_for pf r) st -> unsettled r st ->
    is_worker e = true -> always_fails_for pf r st e ->
    step opts pf st e = Some st' -> unsettled r st' ->
    works_on opts pf r st' st
| work_later st job newid now st' st'' :
    reachable_under opts pf (always_fails_for pf r) st -> unsettled r st ->
    step opts pf st (Enqueue job newid now) = Some st' ->
    works_on opts pf r st'' st' ->
    works_on opts pf r st'' st.

(** Every event of [es], run from [st], obeys [env]. *)
Fixpoint obeys (opts : PrinterQueueOptions) (pf : Platform)
    (env : State -> Event -> Prop) (st : State) (es : list Event) : Prop :=
  match es with
  | [] => True
  | e :: rest =>
      env st e /\
      match step opts pf st e with
      | Some st' => obeys opts pf env st' rest
      | None => False
      end
  end.

(** The ids handed to [enqueue] are new ones. *)
Definition fresh_ids : State -> Event -> Prop :=
  fun st e =>
    match e with
    | Enqueue _ newid _ => jobs st !! newid = None
    | _ => True
    end.

(** The values of the map of ids are the job objects, each once. *)
Definition indexed (st : State) : Prop :=
  (snd <$> map_to_list (jobs st)) ≡ₚ seq 0 (length (heap st)).

(** Number of ['] in a string. *)
Fixpoint quotes (s : string) : nat :=
  match s with
  | EmptyString => O
  | String c r => if Ascii.eqb c "'" then S (quotes r) else quotes r
  end.

(** The jobs of the map that are marked [completed], counted as
    [getMetrics] counts the others. *)
Definition completed_jobs (st : State) : nat :=
  length (List.filter (status_is Completed st) (snd <$> map_to_list (jobs st))).

(** The sample job, printed at the first attempt. *)
Definition printed_once : State :=
  match run (retry_options 2) Posix init
          [ Enqueue photo_job "print-1" 0; AccessDone true;
            SpawnDone (ChildExit (Some 0)) ] with
  | Some st => st
  | None => init
  end.

(** Two more jobs, for a queue of three. *)
Definition strip_job : PrintJob :=
  {| filePath := "strip-2.jpg"; format := F2x6; copies := None;
     printer := Some "HiTi P525L"%string |}.

(** Two jobs share the queue: the first fails at every dispatch, the
    second is printed at once. *)
Definition shared_run : list Event :=
  [ Enqueue photo_job "print-1" 0; Enqueue strip_job "print-2" 1;
    AccessDone true; SpawnDone (ChildExit (Some 1));
    AccessDone true; SpawnDone (ChildExit (Some 0));
    AccessDone true; SpawnDone (ChildExit (Some 1));
    AccessDone true; SpawnDone (ChildExit (Some 1)) ].

Definition busy_queue : State :=
  match run (retry_options 2) Posix init
          [ Enqueue photo_job "print-1" 0; Enqueue strip_job "print-2" 1;
            Enqueue photo_job "print-3" 2; AccessDone true ] with
  | Some st => st
  | None => init
  end.

End Printer.

(* ===================================================================== *)
(** * The live-view broadcaster: [CameraService] *)
(* ===================================================================== *)

Module Camera.

(** Calls made on the [CameraDriver]. *)
Inductive DriverCall :=
| GetLiveFrame
| DriverCapture.

(** A [FrameListener] is identified by a number; [registration] lists
    the listeners of [liveViewClients] in the order the set iterates
    them, which is the order of their registration.  [ticking],
    [querying] and [capturing] count the interval callbacks, the
    [getLatestFrame] calls and the [capture] calls that wait for the
    driver.  [driverCalls] records the driver calls made and
    [delivered] the frames handed to listeners, both in order. *)
Record State := {
  latestFrame : option Buffer;
  liveViewClients : gset nat;
  registration : list nat;
  liveInterval : bool;
  liveViewEnabled : bool;
  lastCapture : option Z;
  ticking : nat;
  querying : nat;
  capturing : nat;
  driverCalls : list DriverCall;
  delivered : list (nat * Buffer);
}.

Definition init : State :=
  {| latestFrame := None; liveViewClients := ∅; registration := [];
     liveInterval := false;
     liveViewEnabled := false; lastCapture := None; ticking := O;
     querying := O; capturing := O; driverCalls := []; delivered := [] |}.

Definition set_latestFrame (f : option Buffer) (st : State) : State :=
  {| latestFrame := f; liveViewClients := liveViewClients st;
     registration := registration st;
     liveInterval := liveInterval st; liveViewEnabled := liveViewEnabled st;
     lastCapture := lastCapture st; ticking := ticking st;
     querying := querying st; capturing := capturing st;
     driverCalls := driverCalls st; delivered := delivered st |}.

Definition set_clients (c : gset nat) (order : list nat) (st : State)
    : State :=
  {| latestFrame := latestFrame st; liveViewClients := c;
     registration := order;
     liveInterval := liveInterval st; liveViewEnabled := liveViewEnabled st;
     lastCapture := lastCapture st; ticking := ticking st;
     querying := querying st; capturing := capturing st;
     driverCalls := driverCalls st; delivered := delivered st |}.

Definition set_live (interval enabled : bool) (st : State) : State :=
  {| latestFrame := latestFrame st; liveViewClients := liveViewClients st;
     registration := registration st;
     liveInterval := interval; liveViewEnabled := enabled;
     lastCapture := lastCapture st; ticking := ticking st;
     querying := querying st; capturing := capturing st;
     driverCalls := driverCalls st; delivered := delivered st |}.

Definition set_lastCapture (t : option Z) (st : State) : State :=
  {| latestFrame := latestFrame st; liveViewClients := liveViewClients st;
     registration := registration st;
     liveInterval := liveInterval st; liveViewEnabled := liveViewEnabled st;
     lastCapture := t; ticking := ticking st;
     querying := querying st; capturing := capturing st;
     driverCalls := driverCalls st; delivered := delivered st |}.

Definition set_waiting (t q c : nat) (st : State) : State :=
  {| latestFrame := latestFrame st; liveViewClients := liveViewClients st;
     registration := registration st;
     liveInterval := liveInterval st; liveViewEnabled := liveViewEnabled st;
     lastCapture := lastCapture st; ticking := t; querying := q;
     capturing := c;
     driverCalls := driverCalls st; delivered := delivered st |}.

Definition call_driver (c : DriverCall) (st : State) : State :=
  {| latestFrame := latestFrame st; liveViewClients := liveViewClients st;
     registration := registration st;
     liveInterval := liveInterval st; liveViewEnabled := liveViewEnabled st;
     lastCapture := lastCapture st; ticking := ticking st;
     querying := querying st; capturing := capturing st;
     driverCalls := driverCalls st ++ [c]; delivered := delivered st |}.

Definition deliver (frame : Buffer) (st : State) : State :=
  {| latestFrame := latestFrame st; liveViewClients := liveViewClients st;
     registration := registration st;
     liveInterval := liveInterval st; liveViewEnabled := liveViewEnabled st;
     lastCapture := lastCapture st; ticking := ticking st;
     querying := querying st; capturing := capturing st;
     driverCalls := driverCalls st;
     delivered := delivered st
       ++ map (fun cb => (cb, frame)) (registration st) |}.

(** The listeners called when listener [thrower] throws: those before
    it in the order of iteration, and [thrower] itself. *)
Fixpoint called_until (thrower : nat) (order : list nat) : list nat :=
  match order with
  | [] => []
  | cb :: r =>
      if (cb =? thrower)%nat then [cb] else cb :: called_until thrower r
  end.

Definition deliver_until (thrower : nat) (frame : Buffer) (st : State)
    : State :=
  {| latestFrame := latestFrame st; liveViewClients := liveViewClients st;
     registration := registration st;
     liveInterval := liveInterval st; liveViewEnabled := liveViewEnabled st;
     lastCapture := lastCapture st; ticking := ticking st;
     querying := querying st; capturing := capturing st;
     driverCalls := driverCalls st;
     delivered := delivered st
       ++ map (fun cb => (cb, frame)) (called_until thrower (registration st)) |}.

(** What a call of [getLatestFrame] does before its first [await]:
    it answers from the cache, or asks the driver for a frame and
    waits. *)
Inductive Reply :=
| Answer (f : Buffer)
| Awaiting.

Definition getLatestFrame (st : State) : State * Reply :=
  match latestFrame st with
  | Some f => (st, Answer f)
  | None =>
      (call_driver GetLiveFrame
         (set_waiting (ticking st) (S (querying st)) (capturing st) st),
       Awaiting)
  end.

(** [getLatestFrame] resumes with what [driver.getLiveFrame()] yielded
    ([Err]: it threw) and returns. *)
Definition getLatestFrame_resume (res : Result Buffer) (st : State)
    : option (State * option Buffer) :=
  match querying st with
  | O => None
  | S n =>
      let st1 := set_waiting (ticking st) n (capturing st) st in
      match res with
      | Ok buffer => Some (set_latestFrame (Some buffer) st1, Some buffer)
      | Err _ => Some (st1, None)
      end
  end.

Definition startLiveView (st : State) : State :=
  if liveInterval st then set_live (liveInterval st) true st
  else set_live true true st.

Definition stopLiveView (st : State) : State :=
  set_live (if liveInterval st then false else liveInterval st) false st.

Definition registerLiveViewClient (cb : nat) (st : State) : State :=
  set_clients (liveViewClients st ∪ {[cb]})
    (if decide (cb ∈ registration st) then registration st
     else registration st ++ [cb])
    st.

Definition unregisterLiveViewClient (cb : nat) (st : State) : State :=
  set_clients (liveViewClients st ∖ {[cb]})
    (List.filter (fun x => negb (x =? cb)%nat) (registration st))
    st.

(** The interval callback of [startLiveView] fires, which it can do
    only while the interval is set: it asks the driver for a frame. *)
Definition interval_fire (st : State) : option State :=
  if liveInterval st then
    Some (call_driver GetLiveFrame
            (set_waiting (S (ticking st)) (querying st) (capturing st) st))
  else None.

(** The callback resumes with the frame, caches it and hands it to the
    listeners registered at that moment, none of which throws; a driver
    error is only logged. *)
Definition interval_resume (res : Result Buffer) (st : State) : option State :=
  match ticking st with
  | O => None
  | S n =>
      let st1 := set_waiting n (querying st) (capturing st) st in
      match res with
      | Ok frame => Some (deliver frame (set_latestFrame (Some frame) st1))
      | Err _ => Some st1
      end
  end.

(** The callback resumes with the frame and caches it, and listener
    [thrower], one of those registered, throws when it is called: the
    loop over the listeners ends there, the error being caught and
    logged. *)
Definition interval_resume_thrown (frame : Buffer) (thrower : nat)
    (st : State) : option State :=
  match ticking st with
  | O => None
  | S n =>
      if decide (thrower ∈ registration st) then
        Some (deliver_until thrower frame
                (set_latestFrame (Some frame)
                   (set_waiting n (querying st) (capturing st) st)))
      else None
  end.

(** [capture] up to its [await]. *)
Definition capture (st : State) : State :=
  call_driver DriverCapture
    (set_waiting (ticking st) (querying st) (S (capturing st)) st).

(** [capture] resumes with the file path and the bytes the driver
    produced and returns the path and the capture time; when the driver
    threw, so does [capture]. *)
Definition capture_resume (res : Result (string * Buffer)) (now : Z)
    (st : State) : option (State * Result (string * Z)) :=
  match capturing st with
  | O => None
  | S n =>
      let st1 := set_waiting (ticking st) (querying st) n st in
      match res with
      | Ok (path, buffer) =>
          Some (set_lastCapture (Some now)
                  (set_latestFrame (Some buffer) st1),
                Ok (path, now))
      | Err m => Some (st1, Err m)
      end
  end.

Inductive Event :=
| Register (cb : nat)
| Unregister (cb : nat)
| StartLiveView
| StopLiveView
| TimerFires
| FrameArrives (res : Result Buffer)
| FrameArrivesThrown (frame : Buffer) (thrower : nat)
| Query
| QueryDone (res : Result Buffer)
| CaptureCall
| CaptureDone (res : Result (string * Buffer)) (now : Z).

Definition step (st : State) (e : Event) : option State :=
  match e with
  | Register cb => Some (registerLiveViewClient cb st)
  | Unregister cb => Some (unregisterLiveViewClient cb st)
  | StartLiveView => Some (startLiveView st)
  | StopLiveView => Some (stopLiveView st)
  | TimerFires => interval_fire st
  | FrameArrives res => interval_resume res st
  | FrameArrivesThrown frame thrower => interval_resume_thrown frame thrower st
  | Query => Some (fst (getLatestFrame st))
  | QueryDone res => fst <$> getLatestFrame_resume res st
  | CaptureCall => Some (capture st)
  | CaptureDone res now => fst <$> capture_resume res now st
  end.

Fixpoint run (st : State) (es : list Event) : option State :=
  match es with
  | [] => Some st
  | e :: r => match step st e with
              | Some st' => run st' r
              | None => None
              end
  end.

Inductive reachable : State -> Prop :=
| reach_init : reachable init
| reach_step st e st' : reachable st -> step st e = Some st' -> reachable st'.

(** Number of frame fetches made on the driver so far. *)
Definition is_fetch (c : DriverCall) : bool :=
  match c with
  | GetLiveFrame => true
  | DriverCapture => false
  end.

Fixpoint count_fetches (l : list DriverCall) : nat :=
  match l with
  | [] => O
  | c :: r => if is_fetch c then S (count_fetches r) else count_fetches r
  end.

Definition fetches (st : State) : nat := count_fetches (driverCalls st).



(** ** The wiring of index.ts

    [clients] is [wss.clients] of the web-socket server, which the
    library updates before the server's ['connection'] handler and
    before a socket's ['close'] handler run.  The listener registered
    for a socket is identified with the socket.  [resumed] records that
    live view was last started by a capture request with [resumeLive]. *)
Record Server := {
  camera : State;
  clients : gset nat;
  resumed : bool;
}.

Definition server_init : Server :=
  {| camera := init; clients := ∅; resumed := false |}.

Inductive Request :=
| Connection (sock : nat)
| Close (sock : nat)
| PostCapture
| PostCaptureDone (resumeLive : bool) (res : Result (string * Buffer)) (now : Z)
| GetLive
| GetLiveDone (res : Result Buffer)
| Timer
| TimerDone (res : Result Buffer)
| Shutdown.

Definition with_camera (cam : State) (sv : Server) : Server :=
  {| camera := cam; clients := clients sv; resumed := resumed sv |}.

Definition handle (sv : Server) (rq : Request) : option Server :=
  match rq with
  | Connection sock =>
      Some {| camera := startLiveView (registerLiveViewClient sock (camera sv));
              clients := clients sv ∪ {[sock]};
              resumed := resumed sv |}
  | Close sock =>
      let cl := clients sv ∖ {[sock]} in
      let cam := unregisterLiveViewClient sock (camera sv) in
      if decide (size cl = 0%nat)
      then Some {| camera := stopLiveView cam; clients := cl; resumed := false |}
      else Some {| camera := cam; clients := cl; resumed := resumed sv |}
  | PostCapture => Some (with_camera (capture (camera sv)) sv)
  | PostCaptureDone resumeLive res now =>
      match capture_resume res now (camera sv) with
      | None => None
      | Some (cam, Err _) => Some (with_camera cam sv)
      | Some (cam, Ok _) =>
          if resumeLive
          then Some {| camera := startLiveView cam; clients := clients sv;
                       resumed := true |}
          else Some (with_camera cam sv)
      end
  | GetLive => Some (with_camera (fst (getLatestFrame (camera sv))) sv)
  | GetLiveDone res =>
      match getLatestFrame_resume res (camera sv) with
      | Some (cam, _) => Some (with_camera cam sv)
      | None => None
      end
  | Timer =>
      match interval_fire (camera sv) with
      | Some cam => Some (with_camera cam sv)
      | None => None
      end
  | TimerDone res =>
      match interval_resume res (camera sv) with
      | Some cam => Some (with_camera cam sv)
      | None => None
      end
  | Shutdown =>
      Some {| camera := stopLiveView (camera sv); clients := clients sv;
              resumed := false |}
  end.





Definition frame : Buffer := [Byte.xff; Byte.xd8].


(** ** Status, frame interval and the Canon driver *)

Inductive DriverName := Canon | Mock.

Record CameraStatus := {
  cs_connected : bool;
  cs_model : string;
  cs_liveView : bool;
  cs_driver : DriverName;
  cs_lastCapture : option Z;
}.

(** [getStatus], with the driver selected at start-up. *)
Definition getStatus (d : DriverName) (st : State) : CameraStatus :=
  {| cs_connected := true;
     cs_model := match d with
                 | Canon => "Canon EOS 2000D"
                 | Mock => "Mock DSLR (offline mode)"
                 end;
     cs_liveView := liveViewEnabled st;
     cs_driver := d;
     cs_lastCapture := lastCapture st |}.

(** [Math.round]: the nearest integer, halves going up. *)
Definition round (x : Q) : Z := Qfloor (x + (1 # 2)).

(** [Math.max(1, Math.round(1000 / frameRate))], for a frame rate
    other than 0. *)
Definition frameInterval (frameRate : Q) : Z :=
  Z.max 1 (round (1000 / frameRate)).

Definition is_timer (e : Event) : bool :=
  match e with
  | TimerFires => true
  | _ => false
  end.

Fixpoint count_timer (es : list Event) : nat :=
  match es with
  | [] => O
  | e :: r => if is_timer e then S (count_timer r) else count_timer r
  end.

(** Calls made on the native module by [CanonEdsdkDriver], with what
    [startLiveView] answered. *)
Inductive NativeCall :=
| NStartLiveView (ok : bool)
| NStopLiveView
| NGetLiveFrame.

Record CanonDriver := {
  liveViewStarted : bool;
  nativeCalls : list NativeCall;
}.

Definition canon_init : CanonDriver :=
  {| liveViewStarted := false; nativeCalls := [] |}.

Definition native_call (c : NativeCall) (d : CanonDriver) : CanonDriver :=
  {| liveViewStarted := liveViewStarted d;
     nativeCalls := nativeCalls d ++ [c] |}.

(** [ensureLiveView]; [ok] is what [native.startLiveView()] answers if
    it is called. *)
Definition ensureLiveView (ok : bool) (d : CanonDriver)
    : CanonDriver * Result unit :=
  if negb (liveViewStarted d) then
    let d1 := native_call (NStartLiveView ok) d in
    if negb ok then (d1, Err "Canon driver could not start LiveView")
    else ({| liveViewStarted := true; nativeCalls := nativeCalls d1 |}, Ok tt)
  else (d, Ok tt).

(** [getLiveFrame] of the Canon driver; [frame] is what
    [native.getLiveFrame()] answers if it is called. *)
Definition canon_getLiveFrame (ok : bool) (frame : option Buffer)
    (d : CanonDriver) : CanonDriver * Result Buffer :=
  match ensureLiveView ok d with
  | (d1, Err m) => (d1, Err m)
  | (d1, Ok _) =>
      let d2 := native_call NGetLiveFrame d1 in
      match frame with
      | None => (d2, Err "Canon driver did not return a frame")
      | Some f => (d2, Ok f)
      end
  end.

Definition canon_dispose (d : CanonDriver) : CanonDriver :=
  if liveViewStarted d then native_call NStopLiveView d else d.

Inductive CanonEvent :=
| CanonGetLiveFrame (ok : bool) (frame : option Buffer)
| CanonDispose.

Definition canon_step (d : CanonDriver) (e : CanonEvent) : CanonDriver :=
  match e with
  | CanonGetLiveFrame ok frame => fst (canon_getLiveFrame ok frame d)
  | CanonDispose => canon_dispose d
  end.

Definition canon_run (es : list CanonEvent) : CanonDriver :=
  fold_left canon_step es canon_init.

Definition after_start (c : NativeCall) : bool :=
  match c with
  | NStartLiveView _ => false
  | _ => true
  end.

(** Three listeners, registered in the order 3, 1, 2, and a timer
    callback waiting for its frame. *)
Definition three_listeners : State :=
  match run init [ Register 3; Register 1; Register 2; StartLiveView;
                   TimerFires ] with
  | Some st => st
  | None => init
  end.

(** The order of registration and the set of listeners agree. *)
Record registration_ok (st : State) : Prop := {
  ro_nodup : NoDup (registration st);
  ro_same : forall cb, cb ∈ registration st <-> cb ∈ liveViewClients st;
}.

End Camera.

(* ===================================================================== *)
(** * The request schemas and routes of index.ts *)
(* ===================================================================== *)

Module Routes.

(** A validator on an optional field: absent passes. *)
Definition optional {A : Type} (check : A -> bool) (field : option A) : bool :=
  match field with
  | Some a => check a
  | None => true
  end.

(** [z.number().int()] on a rational. *)
Definition is_int (q : Q) : bool := Qeq_bool q (inject_Z (Qfloor q)).

(** [aiSchema], on a body whose fields have the JSON types the schema
    asks for and whose [style], if any, is one of the eight tokens. *)
Definition aiSchema (body : Generation.AIJobRequest) : bool :=
  optional (fun p => (String.length p <=? 200)%nat) (Generation.prompt body)
  && optional (fun v => Qle_bool 0 v && Qle_bool v 1) (Generation.intensity body)
  && optional (fun v => is_int v && Qle_bool 1 v && Qle_bool v 4)
       (Generation.variations body)
  && (truthy (Generation.sourcePath body) || truthy (Generation.base64 body)).

(** [printSchema], likewise. *)
Definition printSchema (body : Printer.PrintJob) : bool :=
  optional (fun c => (1 <=? c) && (c <=? 10)) (Printer.copies body).

(** [POST /print]: the new state of the queue and the id answered. *)
Definition post_print (opts : Printer.PrinterQueueOptions)
    (body : Printer.PrintJob) (newid : string) (now : Z) (st : Printer.State)
    : option (Printer.State * string) :=
  if printSchema body
  then Some (Printer.enqueue opts body newid now st, newid)
  else None.

(** [GET /print/:id]: the job, or the 404 answer. *)
Definition get_print (i : string) (st : Printer.State)
    : Result Printer.PrintJobState :=
  match Printer.getStatus i st with
  | Some j => Ok j
  | None => Err "Job not found"
  end.

End Routes.

(* ===================================================================== *)
(** * The template renderer: [TemplateRenderer] *)
(* ===================================================================== *)

Module Templates.

Inductive TemplateFormat := F4x6 | F2x6.

Definition format_name (f : TemplateFormat) : string :=
  match f with
  | F4x6 => "4x6"
  | F2x6 => "2x6"
  end.

Record TemplateSlot := {
  x : Z;
  y : Z;
  width : Z;
  height : Z;
  radius : option Z;
}.

Record TemplateLayout := {
  layout_id : string;
  format : TemplateFormat;
  size_width : Z;
  size_height : Z;
  background : option string;
  overlay : option string;
  slots : list TemplateSlot;
}.

Definition slot (sx sy sw sh r : Z) : TemplateSlot :=
  {| x := sx; y := sy; width := sw; height := sh; radius := Some r |}.

Definition classic_4x6 : TemplateLayout :=
  {| layout_id := "classic-4x6"; format := F4x6;
     size_width := 1800; size_height := 1200;
     background := Some "classic-4x6-bg.png"%string;
     overlay := Some "classic-4x6-overlay.png"%string;
     slots := [ slot 150 150 1500 900 40 ] |}.

Definition dual_strip_2x6 : TemplateLayout :=
  {| layout_id := "dual-strip-2x6"; format := F2x6;
     size_width := 1200; size_height := 1800;
     background := Some "dual-strip-bg.png"%string;
     overlay := Some "dual-strip-overlay.png"%string;
     slots := [ slot 80 120 460 560 30; slot 80 700 460 560 30;
                slot 80 1280 460 560 30; slot 660 120 460 560 30;
                slot 660 700 460 560 30; slot 660 1280 460 560 30 ] |}.

Definition collage_4x6 : TemplateLayout :=
  {| layout_id := "collage-4x6"; format := F4x6;
     size_width := 1800; size_height := 1200;
     background := Some "collage-bg.png"%string;
     overlay := Some "collage-overlay.png"%string;
     slots := [ slot 80 150 740 900 35; slot 980 150 740 430 35;
                slot 980 620 740 430 35 ] |}.

(** What [TEMPLATE_LIBRARY[id]] evaluates to: a layout of the table, a
    member that the table object inherits from [Object.prototype]
    (which is truthy and has none of the fields of a layout), or
    [undefined]. *)
Inductive Entry :=
| Layout (l : TemplateLayout)
| Inherited
| Undefined.

Definition prototype_names : list string :=
  [ "constructor"; "__proto__"; "hasOwnProperty"; "isPrototypeOf";
    "propertyIsEnumerable"; "toLocaleString"; "toString"; "valueOf";
    "__defineGetter__"; "__defineSetter__"; "__lookupGetter__";
    "__lookupSetter__" ]%string.

Definition TEMPLATE_LIBRARY (i : string) : Entry :=
  if String.eqb i "classic-4x6" then Layout classic_4x6
  else if String.eqb i "dual-strip-2x6" then Layout dual_strip_2x6
  else if String.eqb i "collage-4x6" then Layout collage_4x6
  else if existsb (String.eqb i) prototype_names then Inherited
  else Undefined.

Record TemplateRequest := {
  templateId : string;
  images : list string;
  qrData : option string;
  caption : option string;
  accentColor : option string;
}.

Record TemplateResult := {
  composedPath : string;
  previewData : string;
  res_format : TemplateFormat;
}.

Record TemplateRendererOptions := {
  templatesDir : string;
  processedDir : string;
}.

Inductive RenderError :=
| UnknownTemplate (i : string)
| NoImages
| TypeError
| External (message : string).

(** The calls made on the image of one slot. *)
Inductive SlotOp :=
| SlotResize (w h : Z)
| SlotMask (w h r : Z)
| SlotPng.

(** What is laid over the base. *)
Inductive Input :=
| FromBuffer (b : Buffer)
| CaptionSvg (safe : string)
| FromFile (path : string).

Record OverlayOptions := {
  input : Input;
  left : Z;
  top : Z;
}.

Inductive Base :=
| BaseAsset (path : string) (w h : Z)
| BaseSolid (w h : Z) (colour : string).

(** What a run of [render] obtains from outside: whether an asset can
    be accessed, the results of the image-library and QR calls, of the
    final composition and of the write, what [path.join] of the
    platform makes of a directory and a file name, and the identifier
    drawn. *)
Record World := {
  access : string -> bool;
  join : string -> string -> string;
  sharp_slot : string -> list SlotOp -> Result Buffer;
  qr_code : string -> Result Buffer;
  compose : Base -> list OverlayOptions -> Result Buffer;
  toFile : string -> Buffer -> Result unit;
  randomUUID : string;
  toBase64 : Buffer -> string;
}.

Definition loadAsset (w : World) (opts : TemplateRendererOptions)
    (assetName : option string) : option string :=
  match assetName with
  | Some name =>
      if truthy assetName then
        let assetPath := join w (templatesDir opts) name in
        if access w assetPath then Some assetPath else None
      else None
  | None => None
  end.

Definition buildBase (w : World) (opts : TemplateRendererOptions)
    (layout : TemplateLayout) (accent : option string) : Base :=
  match loadAsset w opts (background layout) with
  | Some asset => BaseAsset asset (size_width layout) (size_height layout)
  | None =>
      BaseSolid (size_width layout) (size_height layout)
        (match accent with Some c => c | None => "#0e0e0e"%string end)
  end.

Definition renderSlot (w : World) (sourcePath : string) (sl : TemplateSlot)
    : Result Buffer :=
  sharp_slot w sourcePath
    ([ SlotResize (width sl) (height sl) ]
     ++ match radius sl with
        | Some r => if r =? 0 then [] else [ SlotMask (width sl) (height sl) r ]
        | None => []
        end
     ++ [ SlotPng ]).

(** [images[i] ?? images[images.length - 1]] *)
Definition source_for (imgs : list string) (i : nat) : option string :=
  match imgs !! i with
  | Some s => Some s
  | None => last imgs
  end.

(** The loop over the slots of [render], from slot [i] on. *)
Fixpoint slot_loop (w : World) (imgs : list string) (sls : list TemplateSlot)
    (i : nat) (composites : list OverlayOptions)
    : Result (list OverlayOptions) :=
  match sls with
  | [] => Ok composites
  | sl :: rest =>
      match source_for imgs i with
      | Some sourcePath =>
          if truthy (Some sourcePath) then
            match renderSlot w sourcePath sl with
            | Ok slotBuffer =>
                slot_loop w imgs rest (S i)
                  (composites
                   ++ [ {| input := FromBuffer slotBuffer; left := x sl;
                           top := y sl |} ])
            | Err m => Err m
            end
          else slot_loop w imgs rest (S i) composites
      | None => slot_loop w imgs rest (S i) composites
      end
  end.

Definition buildCaption (c : string) : Input := CaptionSvg (substring 0 60 c).

(** The list handed to [composite], for a layout of the table. *)
Definition layers (w : World) (opts : TemplateRendererOptions)
    (layout : TemplateLayout) (req : TemplateRequest)
    : Result (list OverlayOptions) :=
  match slot_loop w (images req) (slots layout) 0 [] with
  | Err m => Err m
  | Ok c1 =>
      let with_qr :=
        match qrData req with
        | Some d =>
            if truthy (qrData req) then
              match qr_code w d with
              | Ok b => Ok (c1 ++ [ {| input := FromBuffer b;
                                       left := size_width layout - 260;
                                       top := size_height layout - 260 |} ])
              | Err m => Err m
              end
            else Ok c1
        | None => Ok c1
        end in
      match with_qr with
      | Err m => Err m
      | Ok c2 =>
          let c3 :=
            match caption req with
            | Some c =>
                if truthy (caption req)
                then c2 ++ [ {| input := buildCaption c; left := 60;
                                top := size_height layout - 200 |} ]
                else c2
            | None => c2
            end in
          match loadAsset w opts (overlay layout) with
          | Some asset =>
              Ok (c3 ++ [ {| input := FromFile asset; left := 0; top := 0 |} ])
          | None => Ok c3
          end
      end
  end.

Definition render (w : World) (opts : TemplateRendererOptions)
    (req : TemplateRequest) : TemplateResult + RenderError :=
  match TEMPLATE_LIBRARY (templateId req) with
  | Undefined => inr (UnknownTemplate (templateId req))
  | Inherited =>
      match images req with
      | [] => inr NoImages
      | _ => inr TypeError
      end
  | Layout layout =>
      match images req with
      | [] => inr NoImages
      | _ =>
          let base := buildBase w opts layout (accentColor req) in
          match layers w opts layout req with
          | Err m => inr (External m)
          | Ok composites =>
              let outputPath :=
                join w (processedDir opts)
                  (randomUUID w ++ "-" ++ templateId req ++ "-"
                   ++ format_name (format layout) ++ ".jpg")%string in
              match compose w base composites with
              | Err m => inr (External m)
              | Ok composed =>
                  match toFile w outputPath composed with
                  | Err m => inr (External m)
                  | Ok _ =>
                      inl {| composedPath := outputPath;
                             previewData :=
                               ("data:image/jpeg;base64," ++ toBase64 w composed)%string;
                             res_format := format layout |}
                  end
              end
          end
      end
  end.

(** A world in which every asset exists and every call succeeds, with
    [path.join] as it is on POSIX for a plain directory and a plain file
    name. *)
Definition studio : World :=
  {| access := fun _ => true;
     join := fun d f => (d ++ "/" ++ f)%string;
     sharp_slot := fun src _ => Ok (map byte_of_ascii (list_ascii_of_string src));
     qr_code := fun _ => Ok [];
     compose := fun _ _ => Ok [];
     toFile := fun _ _ => Ok tt;
     randomUUID := "0";
     toBase64 := fun _ => EmptyString |}.

Definition strip_of (imgs : list string) : TemplateRequest :=
  {| templateId := "dual-strip-2x6"; images := imgs; qrData := None;
     caption := None; accentColor := None |}.

End Templates.

(* ===================================================================== *)
(** * Properties of the generation queue *)
(* ===================================================================== *)

Module GenerationSpec.
Import Generation.

Lemma run_reachable opts es : forall st st',
  reachable opts st -> run opts st es = Some st' -> reachable opts st'.
Proof.
  induction es as [|e es IH]; simpl; intros st st' Hr Hrun.
  - by inversion Hrun; subst.
  - destruct (step opts st e) as [st1|] eqn:Hs; [|discriminate].
    eapply IH; [|exact Hrun]. eapply reach_step; eauto.
Qed.

Lemma run_app opts es1 es2 st :
  run opts st (es1 ++ es2) =
  match run opts st es1 with
  | Some st1 => run opts st1 es2
  | None => None
  end.
Proof.
  revert st. induction es1 as [|e es1 IH]; simpl; intros st; [done|].
  destruct (step opts st e); [apply IH | done].
Qed.

(** ** [generate] always returns *)

Lemma ceiling_guard_true (vars : Q) (i : Z) :
  (vars <= inject_Z i)%Q -> Z.to_nat (Qceiling vars - i) = 0%nat.
Proof.
  intros Hle. apply Qceiling_resp_le in Hle. rewrite Qceiling_Z in Hle. lia.
Qed.

Lemma ceiling_guard_false (vars : Q) (i : Z) :
  ~ (vars <= inject_Z i)%Q -> i < Qceiling vars.
Proof.
  intros Hn. apply Qnot_le_lt in Hn. rewrite Zlt_Qlt.
  eapply Qlt_le_trans; [exact Hn|]. apply Qle_ceiling.
Qed.

Lemma effective_variations_range req :
  (1 <= effective_variations req <= 5)%Q.
Proof.
  unfold effective_variations. split.
  - apply Q.le_max_l.
  - apply Q.max_lub; [done|]. apply Q.le_min_l.
Qed.

Lemma effective_variations_ceiling req :
  1 <= Qceiling (effective_variations req) <= 5.
Proof.
  pose proof (effective_variations_range req) as [Hlo Hhi]. split.
  - rewrite Zle_Qle. eapply Qle_trans; [exact Hlo|apply Qle_ceiling].
  - apply Qceiling_resp_le in Hhi. exact Hhi.
Qed.

(** What the loop does in every world: it goes through all its
    iterations, or it stops at the first call that throws. *)
Lemma variation_loop_spec w opts src st intens p vars :
  forall fuel i outs prevs calls,
    (Z.to_nat (Qceiling vars - i) <= fuel)%nat ->
    (exists bufs,
       length bufs = Z.to_nat (Qceiling vars - i) /\
       all_ok w opts src st intens p i bufs /\
       variation_loop w opts src st intens p vars fuel i outs prevs calls
       = Some (Ok (outs ++ map (outputPath w opts st)
                             (seqZ i (Qceiling vars - i)),
                   prevs ++ map (preview w) bufs),
               calls ++ loop_calls w opts src st intens p i bufs)) \/
    (exists bufs m last,
       (length bufs < Z.to_nat (Qceiling vars - i))%nat /\
       all_ok w opts src st intens p i bufs /\
       failed_at w opts src st intens p (i + Z.of_nat (length bufs)) m last /\
       variation_loop w opts src st intens p vars fuel i outs prevs calls
       = Some (Err m, calls ++ loop_calls w opts src st intens p i bufs ++ last)).
Proof.
  induction fuel as [|f IH]; intros i outs prevs calls Hfuel;
    cbn [variation_loop];
    destruct (Qle_bool vars (inject_Z i)) eqn:Hg.
  - apply Qle_bool_iff in Hg. pose proof (ceiling_guard_true _ _ Hg) as Hz.
    left. exists []. rewrite Hz, seqZ_nil by lia. simpl.
    by rewrite !app_nil_r.
  - assert (~ (vars <= inject_Z i)%Q) as Hn.
    { intros Hle. apply Qle_bool_iff in Hle. congruence. }
    apply ceiling_guard_false in Hn. lia.
  - apply Qle_bool_iff in Hg. pose proof (ceiling_guard_true _ _ Hg) as Hz.
    left. exists []. rewrite Hz, seqZ_nil by lia. simpl.
    by rewrite !app_nil_r.
  - assert (~ (vars <= inject_Z i)%Q) as Hn.
    { intros Hle. apply Qle_bool_iff in Hle. congruence. }
    apply ceiling_guard_false in Hn.
    destruct (sharp w src (applyStyle st intens i p)) as [vbuf|m] eqn:Hsharp.
    + destruct (writeFile w (outputPath w opts st i) vbuf) as [[]|m] eqn:Hwrite.
      * destruct (IH (i + 1) (outs ++ [outputPath w opts st i])
                    (prevs ++ [preview w vbuf])
                    (calls ++ [CallSharp src (applyStyle st intens i p);
                               CallWriteFile (outputPath w opts st i) vbuf]))
          as [(bufs & Hlen & Hok & Heq)|(bufs & m & last & Hlen & Hok & Hf & Heq)];
          [lia| |].
        -- left. exists (vbuf :: bufs). split; [simpl; lia|].
           split; [by repeat split|]. rewrite Heq.
           rewrite (seqZ_cons i) by lia.
           replace (Z.succ i) with (i + 1) by lia.
           replace (Z.pred (Qceiling vars - i)) with (Qceiling vars - (i + 1))
             by lia.
           simpl. by rewrite <- !app_assoc.
        -- right. exists (vbuf :: bufs), m, last. split; [simpl; lia|].
           split; [by repeat split|]. split.
           ++ replace (i + Z.of_nat (length (vbuf :: bufs)))
                with (i + 1 + Z.of_nat (length bufs)) by (simpl; lia).
              exact Hf.
           ++ rewrite Heq. simpl. by rewrite <- !app_assoc.
      * right. exists [], m, (iteration_calls w opts src st intens p i vbuf).
        split; [simpl; lia|]. split; [done|]. split.
        -- simpl. rewrite Z.add_0_r. right. by exists vbuf.
        -- reflexivity.
    + right. exists [], m, [CallSharp src (applyStyle st intens i p)].
      split; [simpl; lia|]. split; [done|]. split.
      * simpl. rewrite Z.add_0_r. by left.
      * reflexivity.
Qed.

Lemma variation_loop_total w opts src st intens p vars :
  forall fuel i outs prevs calls,
    (Z.to_nat (Qceiling vars - i) <= fuel)%nat ->
    variation_loop w opts src st intens p vars fuel i outs prevs calls <> None.
Proof.
  intros fuel i outs prevs calls Hfuel.
  destruct (variation_loop_spec w opts src st intens p vars fuel i outs prevs
              calls Hfuel)
    as [(bufs & _ & _ & ->)|(bufs & m & last & _ & _ & _ & ->)]; done.
Qed.

Lemma loadSource_has_source w req src :
  loadSource w req = Ok src ->
  negb (truthy (sourcePath req)) && negb (truthy (base64 req)) = false.
Proof.
  unfold loadSource. destruct (truthy (base64 req)) eqn:Hb.
  - intros _. by rewrite andb_false_r.
  - destruct (truthy (sourcePath req)) eqn:Hs; simpl; [done|discriminate].
Qed.

(** What [generate] does once the source is loaded, in every world. *)
Lemma run_generate_spec w opts req src :
  loadSource w req = Ok src ->
  let st := effective_style opts req in
  let t := effective_intensity req in
  let n := Qceiling (effective_variations req) in
  (exists r bufs,
     run_generate w opts req
     = Some (Ok r, loop_calls w opts src st t (prompt req) 0 bufs) /\
     length bufs = Z.to_nat n /\
     all_ok w opts src st t (prompt req) 0 bufs /\
     outputs r = map (outputPath w opts st) (seqZ 0 n) /\
     previews r = map (preview w) bufs) \/
  (exists m bufs last,
     run_generate w opts req
     = Some (Err m, loop_calls w opts src st t (prompt req) 0 bufs ++ last) /\
     (length bufs < Z.to_nat n)%nat /\
     all_ok w opts src st t (prompt req) 0 bufs /\
     failed_at w opts src st t (prompt req) (Z.of_nat (length bufs)) m last).
Proof.
  intros Hsrc st t n. unfold run_generate.
  rewrite (loadSource_has_source w req src Hsrc), Hsrc.
  pose proof (effective_variations_ceiling req) as Hceil.
  destruct (variation_loop_spec w opts src st t (prompt req)
              (effective_variations req) 5 0 [] [] [])
    as [(bufs & Hlen & Hok & Heq)|(bufs & m & last & Hlen & Hok & Hf & Heq)];
    [lia| |].
  - left. fold st t. rewrite Heq. rewrite Z.sub_0_r in *.
    eexists. exists bufs. split; [reflexivity|]. by repeat split.
  - right. fold st t. rewrite Heq. rewrite Z.sub_0_r in *.
    exists m, bufs, last. split; [reflexivity|]. by repeat split.
Qed.

Lemma generate_total w opts req : generate w opts req <> None.
Proof.
  unfold generate, run_generate.
  destruct (negb (truthy (sourcePath req)) && negb (truthy (base64 req)));
    [done|].
  destruct (loadSource w req) as [src|m]; [|done].
  pose proof (effective_variations_ceiling req) as Hc.
  pose proof (variation_loop_total w opts src (effective_style opts req)
                (effective_intensity req) (prompt req)
                (effective_variations req) 5 0 [] [] []) as Hloop.
  destruct (variation_loop _ _ _ _ _ _ _ _ _ _ _ _) as [[[[outs prevs]|m] calls]|];
    try done.
  exfalso. apply Hloop; [lia|done].
Qed.

Lemma settle_enabled w opts t job st :
  find_job t (running st) = Some job ->
  exists st', step opts st (Settle t w) = Some st' /\
              activeJobs st' = activeJobs st /\
              releasing st' = releasing st ++ [t] /\
              running st' = remove_job t (running st).
Proof.
  intros Hf. simpl. unfold settle, runJob. rewrite Hf.
  pose proof (generate_total w opts (request job)) as Htot.
  destruct (generate w opts (request job)) as [[r|m]|]; [| |done];
    eexists; (split; [reflexivity|]); simpl; done.
Qed.

Lemma remove_ticket_in t l : In t l -> exists rest, remove_ticket t l = Some rest.
Proof.
  induction l as [|x l IH]; simpl; [done|].
  destruct (Nat.eqb_spec x t) as [->|Hne]; [eauto|].
  intros [Hx|Hin]; [done|]. destruct (IH Hin) as [rest ->]. eauto.
Qed.

Lemma remove_ticket_length t l rest :
  remove_ticket t l = Some rest -> length l = S (length rest).
Proof.
  revert rest. induction l as [|x l IH]; simpl; intros rest; [discriminate|].
  destruct (x =? t)%nat; [by intros [= <-]|].
  destruct (remove_ticket t l) as [r'|]; [|discriminate].
  intros [= <-]. simpl. f_equal. by apply IH.
Qed.

Lemma release_enabled opts t st :
  In t (releasing st) ->
  exists st', step opts st (Release t) = Some st' /\
              activeJobs st' = activeJobs st - 1 /\
              immediates st' = S (immediates st) /\
              step opts st' Immediate
              = Some (processQueue opts (set_immediates (immediates st) st')).
Proof.
  intros Hin. simpl. unfold release.
  destruct (remove_ticket_in t _ Hin) as [rest ->].
  eexists. split; [reflexivity|]. simpl. done.
Qed.

(** ** Slot accounting *)

Lemma processQueue_slots opts st :
  0 <= activeJobs st <= maxParallelJobs opts ->
  activeJobs st = Z.of_nat (length (running st) + length (releasing st)) ->
  (tail (queue st) <> [] ->
   maxParallelJobs opts <= activeJobs st + Z.of_nat (immediates st) + 1) ->
  slots_ok opts (processQueue opts st).
Proof.
  intros [Hlo Hhi] Hrun Hbusy. unfold processQueue.
  destruct (activeJobs st >=? maxParallelJobs opts) eqn:Hge.
  - apply Z.geb_le in Hge. split; auto. intros _. lia.
  - rewrite Z.geb_leb in Hge. apply Z.leb_gt in Hge.
    destruct (queue st) as [|job rest] eqn:Hq.
    + split; auto. rewrite Hq. congruence.
    + split; simpl.
      * lia.
      * lia.
      * rewrite length_app. simpl. lia.
      * intros Hrest. specialize (Hbusy Hrest). lia.
Qed.

Lemma find_job_length t l job :
  find_job t l = Some job -> length l = S (length (remove_job t l)).
Proof.
  induction l as [|j r IH]; simpl; [discriminate|].
  destruct (ticket j =? t)%nat; intros H; [done|].
  simpl. f_equal. by apply IH.
Qed.

Lemma step_slots opts st e st' :
  slots_ok opts st -> step opts st e = Some st' -> slots_ok opts st'.
Proof.
  intros [Hlo Hhi Hrun Hbusy] Hstep. destruct e as [req|t w|t|]; simpl in Hstep.
  - inversion Hstep; subst; clear Hstep. unfold enqueue.
    apply processQueue_slots; simpl; auto.
    intros Htl. destruct (queue st) as [|j q] eqn:Hq; simpl in Htl; [done|].
    assert (j :: q <> []) as Hne by done. specialize (Hbusy Hne). lia.
  - unfold settle in Hstep.
    destruct (find_job t (running st)) as [job|] eqn:Hf; [|discriminate].
    destruct (runJob w opts job) as [out|]; [|discriminate].
    inversion Hstep; subst; clear Hstep.
    apply find_job_length in Hf.
    split; simpl; auto. rewrite length_app. simpl. lia.
  - unfold release in Hstep.
    destruct (remove_ticket t (releasing st)) as [rest|] eqn:Hrem; [|discriminate].
    inversion Hstep; subst; clear Hstep.
    apply remove_ticket_length in Hrem.
    split; simpl; try lia.
    intros Hq. specialize (Hbusy Hq). lia.
  - unfold immediate in Hstep.
    destruct (immediates st) as [|n] eqn:Hi; [discriminate|].
    inversion Hstep; subst; clear Hstep.
    apply processQueue_slots; simpl; auto.
    intros Htl. assert (queue st <> []) as Hne.
    { intros Hq. rewrite Hq in Htl. done. }
    specialize (Hbusy Hne). lia.
Qed.

Lemma reachable_slots opts st :
  0 <= maxParallelJobs opts -> reachable opts st -> slots_ok opts st.
Proof.
  intros HN Hr. induction Hr as [|st e st' _ IH Hstep].
  - split; simpl; try lia. congruence.
  - eapply step_slots; eauto.
Qed.

(** ** Admission order *)

Lemma processQueue_fifo opts st : fifo_ok st -> fifo_ok (processQueue opts st).
Proof.
  intros [Ha Hq Ht]. unfold processQueue.
  destruct (activeJobs st >=? maxParallelJobs opts); [by split|].
  destruct (queue st) as [|job rest] eqn:Hqueue; [split; auto; by rewrite Hqueue|].
  simpl in Hq. injection Hq as Hjob Hrest.
  split; simpl.
  - rewrite length_app. simpl. rewrite Nat.add_1_r, seq_S. simpl.
    rewrite <- Ha. by rewrite Hjob.
  - rewrite length_app. simpl. rewrite Nat.add_1_r. exact Hrest.
  - rewrite length_app. simpl. simpl in Ht. lia.
Qed.

Lemma step_fifo opts st e st' :
  fifo_ok st -> step opts st e = Some st' -> fifo_ok st'.
Proof.
  intros [Ha Hq Ht] Hstep. destruct e as [req|t w|t|]; simpl in Hstep.
  - inversion Hstep; subst; clear Hstep. unfold enqueue.
    apply processQueue_fifo. split; simpl; auto.
    + rewrite map_app, length_app. simpl. rewrite Nat.add_1_r, seq_S.
      rewrite Hq. by rewrite Ht.
    + rewrite length_app. simpl. lia.
  - unfold settle in Hstep.
    destruct (find_job t (running st)) as [job|]; [|discriminate].
    destruct (runJob w opts job) as [out|]; [|discriminate].
    inversion Hstep; subst; clear Hstep. by split.
  - unfold release in Hstep.
    destruct (remove_ticket t (releasing st)) as [rest|]; [|discriminate].
    inversion Hstep; subst; clear Hstep. by split.
  - unfold immediate in Hstep.
    destruct (immediates st) as [|n]; [discriminate|].
    inversion Hstep; subst; clear Hstep.
    apply processQueue_fifo. by split.
Qed.

Lemma reachable_fifo opts st : reachable opts st -> fifo_ok st.
Proof.
  intros Hr. induction Hr as [|st e st' _ IH Hstep].
  - by split.
  - eapply step_fifo; eauto.
Qed.

(** ** C2: the concurrency bound *)

(** C2.  With a limit [maxParallelJobs = N] (a count, so [0 <= N]), in
    every state the queue can reach, whatever the interleaving of
    enqueue calls, job completions and scheduled admission attempts,
    the active-job counter lies between 0 and [N] and is the number of
    jobs that were admitted and have not yet released their slot.
    Every running job can complete; once its caller is answered its
    slot is released and one more admission attempt, a call of
    [processQueue], is scheduled.  Whenever a request waits, either all
    [N] slots are taken or such an attempt is still scheduled: no slot
    stays idle while a request waits. *)
Theorem active_jobs_bounded (opts : AIProcessorOptions) (st : State) :
  0 <= maxParallelJobs opts ->
  reachable opts st ->
  0 <= activeJobs st <= maxParallelJobs opts /\
  activeJobs st = Z.of_nat (length (running st) + length (releasing st)) /\
  (queue st <> [] ->
   maxParallelJobs opts <= activeJobs st + Z.of_nat (immediates st)) /\
  (forall t job w,
     find_job t (running st) = Some job ->
     exists st',
       step opts st (Settle t w) = Some st' /\
       activeJobs st' = activeJobs st /\ In t (releasing st')) /\
  (forall t, In t (releasing st) ->
     exists st',
       step opts st (Release t) = Some st' /\
       activeJobs st' = activeJobs st - 1 /\
       immediates st' = S (immediates st) /\
       step opts st' Immediate
       = Some (processQueue opts (set_immediates (immediates st) st'))).
Proof.
  intros HN Hr. destruct (reachable_slots opts st HN Hr) as [Hlo Hhi Hrun Hbusy].
  repeat split; auto.
  - intros t job w Hf.
    destruct (settle_enabled w opts t job st Hf) as (st' & Hstep & Ha & Hrel & _).
    exists st'. repeat split; auto. rewrite Hrel. apply in_or_app. right. by left.
  - intros t Hin. by apply release_enabled.
Qed.

(** Three requests against a limit of two: two run, one waits. *)
Lemma active_jobs_bounded_witness :
  let st := enqueue (kiosk_options 2) (file_request None)
              (enqueue (kiosk_options 2) (file_request None)
                 (enqueue (kiosk_options 2) (file_request None) init)) in
  activeJobs st = 2 /\ length (queue st) = 1%nat /\
  0 <= activeJobs st <= 2.
Proof.
  intros st. split; [reflexivity|]. split; [reflexivity|].
  refine (proj1 (active_jobs_bounded (kiosk_options 2) st _ _)).
  - simpl. lia.
  - apply (run_reachable (kiosk_options 2)
             [Enqueue (file_request None); Enqueue (file_request None);
              Enqueue (file_request None)] init st); [constructor | reflexivity].
Defined.

(** ** C7: admission is first-in first-out *)

(** C7.  Tickets are handed out in submission order, and in every
    reachable state the jobs admitted so far followed by the jobs still
    waiting are exactly the submitted jobs in submission order.  Hence
    if A was enqueued strictly before B and B has been admitted, A was
    admitted earlier; and while A and B both wait, no step admits B and
    leaves A waiting. *)
Theorem fifo_admission (opts : AIProcessorOptions) (st : State) :
  reachable opts st ->
  admitted st ++ map ticket (queue st) = seq 0 (submitted st) /\
  (forall a b, (a < b)%nat -> In b (admitted st) ->
     exists i j, admitted st !! i = Some a /\ admitted st !! j = Some b /\
                 (i < j)%nat) /\
  (forall a b e st', (a < b)%nat -> waiting a st -> waiting b st ->
     step opts st e = Some st' -> In b (admitted st') ->
     In a (admitted st') /\ ~ waiting a st').
Proof.
  intros Hr.
  assert (forall s, fifo_ok s -> forall a b, (a < b)%nat -> In b (admitted s) ->
            exists i j, admitted s !! i = Some a /\ admitted s !! j = Some b /\
                        (i < j)%nat) as Horder.
  { intros s [Ha _ _] a b Hab Hb. rewrite Ha in Hb. apply in_seq in Hb.
    exists a, b. rewrite Ha. split; [|split; [|done]].
    - apply lookup_seq. lia.
    - apply lookup_seq. lia. }
  pose proof (reachable_fifo opts st Hr) as Hf.
  split; [|split].
  - destruct Hf as [Ha Hq Ht]. rewrite Hq, Ht, seq_app. by rewrite <- Ha.
  - by apply Horder.
  - intros a b e st' Hab Hwa Hwb Hstep Hb.
    assert (fifo_ok st') as Hf' by (eapply step_fifo; eauto).
    destruct (Horder st' Hf' a b Hab Hb) as (i & j & Hi & _ & _).
    split.
    + apply list_elem_of_In. eapply list_elem_of_lookup_2; eauto.
    + destruct Hf' as [Ha' Hq' _]. unfold waiting. rewrite Hq'.
      intros Hin. apply in_seq in Hin.
      apply lookup_lt_Some in Hi as Hlt.
      rewrite Ha' in Hi. apply lookup_seq in Hi. lia.
Qed.

(** Two requests against a limit of one, the first completes: the
    second is admitted after the first. *)
Lemma fifo_admission_witness :
  exists st,
    run (kiosk_options 1) init
      [Enqueue (file_request None); Enqueue (file_request None);
       Settle 0 fair_world; Release 0; Immediate] = Some st /\
    admitted st = [0%nat; 1%nat] /\
    admitted st ++ map ticket (queue st) = seq 0 (submitted st).
Proof.
  eexists. split; [reflexivity|]. split; [reflexivity|].
  refine (proj1 (fifo_admission (kiosk_options 1) _ _)).
  eapply (run_reachable (kiosk_options 1)
            [Enqueue (file_request None); Enqueue (file_request None);
             Settle 0 fair_world; Release 0; Immediate] init);
    [constructor | reflexivity].
Defined.

(** ** C1: a request without a source image *)

Lemma generate_missing_source w opts req :
  missing_source req ->
  generate w opts req = Some (Err "AI job missing source image").
Proof. intros [Hs Hb]. unfold generate, run_generate. by rewrite Hs, Hb. Qed.

(** C1 as stated fails: with one free slot, enqueueing a request that
    has no source image admits it at once, the counter going from 0
    to 1 on its behalf. *)
Lemma missing_source_occupies_slot :
  missing_source no_source_request /\
  activeJobs (enqueue (kiosk_options 1) no_source_request init) = 1 /\
  ~ never_admitted (kiosk_options 1) no_source_request.
Proof.
  split; [by split|]. split; [reflexivity|].
  intros Hnever. apply (Hnever init [] _ (reach_init _) eq_refl).
  simpl. by left.
Qed.

(** C1, amended.  A request with neither [sourcePath] nor [base64] goes
    through admission like any other request: enqueued when a slot is
    free and nobody waits, it is admitted at once and the counter is
    incremented for it.  Its run consults nothing outside the process
    and fails with the missing-source error, so when its run ends the
    caller is rejected with that error; the slot is then released and a
    new admission attempt is scheduled. *)
Theorem missing_source_rejected (opts : AIProcessorOptions)
    (req : AIJobRequest) :
  missing_source req ->
  (forall w, generate w opts req = Some (Err "AI job missing source image")) /\
  (forall st, queue st = [] -> activeJobs st < maxParallelJobs opts ->
     activeJobs (enqueue opts req st) = activeJobs st + 1 /\
     admitted (enqueue opts req st) = admitted st ++ [submitted st] /\
     queue (enqueue opts req st) = []) /\
  (forall st t job w, find_job t (running st) = Some job -> request job = req ->
     exists st' st'',
       step opts st (Settle t w) = Some st' /\
       settled st' = (t, Rejected "AI job missing source image") :: settled st /\
       activeJobs st' = activeJobs st /\
       step opts st' (Release t) = Some st'' /\
       activeJobs st'' = activeJobs st - 1 /\
       immediates st'' = S (immediates st)).
Proof.
  intros Hmiss. split; [|split].
  - intros w. by apply generate_missing_source.
  - intros st Hq Hlt. unfold enqueue, processQueue. simpl. rewrite Hq. simpl.
    rewrite Z.geb_leb. destruct (Z.leb_spec (maxParallelJobs opts) (activeJobs st));
      [lia|]. simpl. done.
  - intros st t job w Hfind Hreq.
    assert (step opts st (Settle t w)
            = Some {| queue := queue st; activeJobs := activeJobs st;
                      running := remove_job t (running st);
                      releasing := releasing st ++ [t];
                      immediates := immediates st;
                      settled := (t, Rejected "AI job missing source image")
                                 :: settled st;
                      submitted := submitted st; admitted := admitted st |})
      as Hsettle.
    { simpl. unfold settle, runJob.
      by rewrite Hfind, Hreq, (generate_missing_source w opts req Hmiss). }
    destruct (release_enabled opts t
                {| queue := queue st; activeJobs := activeJobs st;
                   running := remove_job t (running st);
                   releasing := releasing st ++ [t];
                   immediates := immediates st;
                   settled := (t, Rejected "AI job missing source image")
                              :: settled st;
                   submitted := submitted st; admitted := admitted st |})
      as (st'' & Hrel & Ha & Hi & _).
    { simpl. apply in_or_app. right. by left. }
    eexists _, st''. split; [exact Hsettle|]. simpl.
    split; [done|]. split; [done|]. split; [exact Hrel|]. done.
Qed.

(** The whole life of such a request on an idle queue with one slot. *)
Lemma missing_source_rejected_witness :
  exists st,
    run (kiosk_options 1) init
      [Enqueue no_source_request; Settle 0 fair_world; Release 0; Immediate]
    = Some st /\
    settled st = [(0%nat, Rejected "AI job missing source image")] /\
    activeJobs st = 0 /\
    generate fair_world (kiosk_options 1) no_source_request
      = Some (Err "AI job missing source image").
Proof.
  eexists. split; [reflexivity|]. split; [reflexivity|]. split; [reflexivity|].
  refine (proj1 (missing_source_rejected (kiosk_options 1) no_source_request _)
            fair_world).
  split; reflexivity.
Defined.

(** ** C5: the per-variation factor *)

Lemma variationFactor_mod (i : Z) :
  0 <= i -> variationFactor i = (1 + inject_Z ((i * 13) mod 7) / 20)%Q.
Proof.
  intros Hi. unfold variationFactor. rewrite Z.rem_mod_nonneg; [done|lia|lia].
Qed.

Lemma applyStyle_equiv st (x y : Q) i p :
  (x == y)%Q -> Forall2 op_equiv (applyStyle st x i p) (applyStyle st y i p).
Proof.
  intros Hxy.
  destruct st; unfold applyStyle; simpl;
    repeat (constructor; [simpl; repeat split; try (rewrite Hxy; reflexivity);
                          reflexivity|]);
    constructor.
Qed.

(** C5.  For a variation index [i >= 0] (the loop of [generate] only
    produces such indices) the factor is [1 + ((i * 13) mod 7) / 20]; it
    scales the preset's saturation, intensified by [intensity * 0.2], in
    the [modulate] call, next to a brightness of [1 + intensity * 0.05].
    Over the five indices a request can reach the factors are 1, 1.3,
    1.25, 1.2 and 1.15.  The calls made on the pipeline are a function
    of style, intensity, index and prompt alone: equal inputs give equal
    calls, and intensities equal as rationals give calls with equal
    parameters. *)
Theorem variation_factor_deterministic (st : StyleType) (intens : Q) (i : Z)
    (p : option string) :
  0 <= i ->
  variationFactor i = (1 + inject_Z ((i * 13) mod 7) / 20)%Q /\
  applyStyle st intens i p !! 1%nat
    = Some (Modulate (saturation (STYLE_PRESETS st) * (1 + intens * (2 # 10))
                      * (1 + inject_Z ((i * 13) mod 7) / 20))
                     (1 + intens * (5 # 100))) /\
  map (fun k => Qred (variationFactor k)) [0; 1; 2; 3; 4]
    = [1; 13 # 10; 5 # 4; 6 # 5; 23 # 20]%Q /\
  (forall st' intens' i' p',
     st = st' -> intens = intens' -> i = i' -> p = p' ->
     applyStyle st intens i p = applyStyle st' intens' i' p') /\
  (forall intens', (intens == intens')%Q ->
     Forall2 op_equiv (applyStyle st intens i p) (applyStyle st intens' i p)).
Proof.
  intros Hi. split; [by apply variationFactor_mod|]. split; [|split; [|split]].
  - unfold applyStyle. simpl. by rewrite (variationFactor_mod i Hi).
  - reflexivity.
  - intros st' intens' i' p' -> -> -> ->. reflexivity.
  - intros intens' Heq. by apply applyStyle_equiv.
Qed.

Lemma variation_factor_deterministic_witness :
  variationFactor 3 = (1 + inject_Z ((3 * 13) mod 7) / 20)%Q /\
  Qred (variationFactor 3) = (6 # 5)%Q.
Proof.
  split; [|reflexivity].
  refine (proj1 (variation_factor_deterministic Cartoon (7 # 10) 3 None _)).
  lia.
Defined.

(** ** C6: clamping and the number of outputs *)

Lemma effective_intensity_range req :
  (0 <= effective_intensity req <= 1)%Q.
Proof.
  unfold effective_intensity. split.
  - apply Q.min_glb; [done|]. apply Q.le_max_l.
  - apply Q.le_min_l.
Qed.

Lemma clamp_variations (v : Q) :
  ((v <= 1 -> Qmax 1 (Qmin 5 v) == 1) /\
   (1 <= v <= 5 -> Qmax 1 (Qmin 5 v) == v) /\
   (5 <= v -> Qmax 1 (Qmin 5 v) == 5))%Q.
Proof.
  split; [|split].
  - intros Hv. apply Q.max_l. rewrite Q.min_r; [done|].
    eapply Qle_trans; [exact Hv|done].
  - intros [H1 H5]. rewrite Q.min_r by done. by apply Q.max_r.
  - intros Hv. rewrite Q.min_l by done. by apply Q.max_r.
Qed.

Lemma clamp_intensity (v : Q) :
  ((v <= 0 -> Qmin 1 (Qmax 0 v) == 0) /\
   (0 <= v <= 1 -> Qmin 1 (Qmax 0 v) == v) /\
   (1 <= v -> Qmin 1 (Qmax 0 v) == 1))%Q.
Proof.
  split; [|split].
  - intros Hv. rewrite Q.max_l by done. by apply Q.min_r.
  - intros [H0 H1]. rewrite Q.max_r by done. by apply Q.min_r.
  - intros Hv. rewrite Q.max_r; [by apply Q.min_l|].
    eapply Qle_trans; [|exact Hv]. done.
Qed.

Lemma count_clamped (q : Q) :
  (q == inject_Z (Qfloor q))%Q ->
  (Qmax 1 (Qmin 5 q) == inject_Z (Qceiling (Qmax 1 (Qmin 5 q))))%Q.
Proof.
  intros Hq.
  destruct (Q.max_spec 1 (Qmin 5 q)) as [[_ ->]|[_ ->]]; [|done].
  destruct (Q.min_spec 5 q) as [[_ ->]|[_ ->]]; [done|].
  rewrite Hq at 2. rewrite Qceiling_Z. exact Hq.
Qed.

Lemma no_failure_when_io_succeeds w opts src st intens p i m last :
  io_succeeds w -> ~ failed_at w opts src st intens p i m last.
Proof.
  intros [Hsharp Hwrite] [[Hs _]|(b & _ & Hw & _)].
  - destruct (Hsharp src (applyStyle st intens i p)) as [out Hout]. congruence.
  - rewrite Hwrite in Hw. discriminate.
Qed.

Lemma all_ok_length w opts src st intens p bufs :
  forall i, length (loop_calls w opts src st intens p i bufs)
            = (2 * length bufs)%nat.
Proof.
  induction bufs as [|b bufs IH]; intros i; simpl; [done|].
  rewrite IH. lia.
Qed.

(** C6 as stated fails.  A request for 2.5 variations has the clamped
    count 2.5 and produces three outputs and three previews; and a job
    whose first image-library call throws is rejected without having
    written anything. *)
Lemma fractional_count_rounds_up :
  ~ outputs_match_clamped_count /\
  (effective_variations (freestyle_request (Some (5 # 2))) == 5 # 2)%Q /\
  (exists r,
     generate fair_world (kiosk_options 1) (freestyle_request (Some (5 # 2)))
     = Some (Ok r) /\
     length (outputs r) = 3%nat /\ length (previews r) = 3%nat) /\
  (exists m ops,
     run_generate broken_world (kiosk_options 1) (freestyle_request (Some 3%Q))
     = Some (Err m, [CallSharp [] ops])).
Proof.
  assert (exists r,
            generate fair_world (kiosk_options 1)
              (freestyle_request (Some (5 # 2))) = Some (Ok r) /\
            length (outputs r) = 3%nat /\ length (previews r) = 3%nat) as Hrun.
  { eexists. split; [reflexivity|]. split; reflexivity. }
  split; [|split; [reflexivity|split; [exact Hrun|]]].
  - intros Hall. destruct Hrun as (r & Hgen & Hlen & _).
    destruct (Hall _ _ _ _ Hgen) as [Hout _]. rewrite Hlen in Hout.
    discriminate Hout.
  - do 2 eexists. reflexivity.
Qed.

(** C6, amended.  The effective variation count is the requested one
    clamped into [1, 5], 1 when absent; the effective intensity is the
    requested one clamped into [0, 1], 0.7 when absent.  Once the source
    is loaded, [generate] runs one iteration per whole number below the
    effective count, [n] of them where [n] is the effective count
    rounded up (the effective count itself for a request whose count is
    a whole number or absent).  Each iteration runs the image pipeline
    built with the effective style and the effective intensity on the
    source and writes the variation to the path of that iteration.  If
    every call succeeds the job makes exactly these [2 n] calls and
    returns [n] outputs, the paths written, and [n] previews, one of
    each variation.  Otherwise it stops at the first call that throws
    and is rejected with that error, having completed fewer than [n]
    iterations.  When the image library and the writes always succeed
    it is the first case that holds. *)
Theorem clamped_generation (w : World) (opts : AIProcessorOptions)
    (req : AIJobRequest) :
  ((1 <= effective_variations req <= 5) /\
   (variations req = None -> effective_variations req = 1) /\
   (forall v, variations req = Some v ->
      (v <= 1 -> effective_variations req == 1) /\
      (1 <= v <= 5 -> effective_variations req == v) /\
      (5 <= v -> effective_variations req == 5)) /\
   (0 <= effective_intensity req <= 1) /\
   (intensity req = None -> effective_intensity req = 7 # 10) /\
   (forall v, intensity req = Some v ->
      (v <= 0 -> effective_intensity req == 0) /\
      (0 <= v <= 1 -> effective_intensity req == v) /\
      (1 <= v -> effective_intensity req == 1)))%Q /\
  (let n := Qceiling (effective_variations req) in
   1 <= n <= 5 /\
   (effective_variations req <= inject_Z n)%Q /\
   (inject_Z n < effective_variations req + 1)%Q /\
   (is_count (variations req) -> (inject_Z n == effective_variations req)%Q)) /\
  (forall src, loadSource w req = Ok src ->
     let st := effective_style opts req in
     let t := effective_intensity req in
     let n := Qceiling (effective_variations req) in
     ((exists r bufs,
         run_generate w opts req
         = Some (Ok r, loop_calls w opts src st t (prompt req) 0 bufs) /\
         generate w opts req = Some (Ok r) /\
         all_ok w opts src st t (prompt req) 0 bufs /\
         length bufs = Z.to_nat n /\
         outputs r = map (outputPath w opts st) (seqZ 0 n) /\
         previews r = map (preview w) bufs /\
         length (outputs r) = Z.to_nat n /\
         length (previews r) = Z.to_nat n /\
         length (loop_calls w opts src st t (prompt req) 0 bufs)
         = (2 * Z.to_nat n)%nat) \/
      (exists m bufs last,
         run_generate w opts req
         = Some (Err m, loop_calls w opts src st t (prompt req) 0 bufs ++ last) /\
         generate w opts req = Some (Err m) /\
         all_ok w opts src st t (prompt req) 0 bufs /\
         (length bufs < Z.to_nat n)%nat /\
         failed_at w opts src st t (prompt req) (Z.of_nat (length bufs)) m last)) /\
     (io_succeeds w ->
      exists r bufs,
        run_generate w opts req
        = Some (Ok r, loop_calls w opts src st t (prompt req) 0 bufs) /\
        generate w opts req = Some (Ok r) /\
        length (outputs r) = Z.to_nat n /\
        length (previews r) = Z.to_nat n /\
        (is_count (variations req) ->
         (inject_Z (Z.of_nat (length (outputs r)))
          == effective_variations req)%Q))).
Proof.
  pose proof (effective_variations_ceiling req) as Hceil.
  assert (is_count (variations req) ->
          (inject_Z (Qceiling (effective_variations req))
           == effective_variations req)%Q) as Hwhole.
  { intros Hcount. symmetry. unfold effective_variations in *.
    destruct (variations req) as [q|]; simpl in Hcount.
    - by apply count_clamped.
    - reflexivity. }
  split; [|split].
  - split; [apply effective_variations_range|].
    split; [intros Hv; unfold effective_variations; by rewrite Hv|].
    split; [intros v Hv; unfold effective_variations; rewrite Hv;
            apply clamp_variations|].
    split; [apply effective_intensity_range|].
    split; [intros Hv; unfold effective_intensity; by rewrite Hv|].
    intros v Hv; unfold effective_intensity; rewrite Hv; apply clamp_intensity.
  - intros n. split; [exact Hceil|]. split; [apply Qle_ceiling|].
    split; [|exact Hwhole].
    pose proof (Qceiling_lt (effective_variations req)) as Hlt.
    rewrite <- Z.add_opp_r, inject_Z_plus in Hlt.
    change (inject_Z (- (1))) with (- (1))%Q in Hlt.
    subst n. set (c := inject_Z (Qceiling (effective_variations req))) in *.
    set (v := effective_variations req) in *. clearbody c v. lra.
  - intros src Hsrc st t n.
    assert ((exists r bufs,
               run_generate w opts req
               = Some (Ok r, loop_calls w opts src st t (prompt req) 0 bufs) /\
               generate w opts req = Some (Ok r) /\
               all_ok w opts src st t (prompt req) 0 bufs /\
               length bufs = Z.to_nat n /\
               outputs r = map (outputPath w opts st) (seqZ 0 n) /\
               previews r = map (preview w) bufs /\
               length (outputs r) = Z.to_nat n /\
               length (previews r) = Z.to_nat n /\
               length (loop_calls w opts src st t (prompt req) 0 bufs)
               = (2 * Z.to_nat n)%nat) \/
            (exists m bufs last,
               run_generate w opts req
               = Some (Err m,
                       loop_calls w opts src st t (prompt req) 0 bufs ++ last) /\
               generate w opts req = Some (Err m) /\
               all_ok w opts src st t (prompt req) 0 bufs /\
               (length bufs < Z.to_nat n)%nat /\
               failed_at w opts src st t (prompt req)
                 (Z.of_nat (length bufs)) m last)) as Hcases.
    { destruct (run_generate_spec w opts req src Hsrc)
        as [(r & bufs & Hrun & Hlen & Hok & Hout & Hprev)
           |(m & bufs & last & Hrun & Hlen & Hok & Hf)].
      - left. exists r, bufs. split; [exact Hrun|].
        split; [unfold generate; by rewrite Hrun|].
        split; [exact Hok|]. split; [exact Hlen|]. split; [exact Hout|].
        split; [exact Hprev|].
        split; [rewrite Hout, length_map, length_seqZ; reflexivity|].
        split; [by rewrite Hprev, length_map|].
        by rewrite all_ok_length, Hlen.
      - right. exists m, bufs, last. split; [exact Hrun|].
        split; [unfold generate; by rewrite Hrun|]. by repeat split. }
    split; [exact Hcases|]. intros Hio.
    destruct Hcases as [(r & bufs & Hrun & Hgen & _ & _ & _ & _ & Hlo & Hlp & _)
                       |(m & bufs & last & _ & _ & _ & _ & Hf)].
    + exists r, bufs. split; [exact Hrun|]. split; [exact Hgen|].
      split; [exact Hlo|]. split; [exact Hlp|].
      intros Hcount. rewrite Hlo. subst n. rewrite Z2Nat.id by lia.
      by apply Hwhole.
    + by destruct (no_failure_when_io_succeeds _ _ _ _ _ _ _ _ _ Hio Hf).
Qed.

(** The boundary cases of the clamps, and a request for ten variations
    run to completion: ten calls, five outputs and five previews. *)
Lemma clamped_generation_witness :
  effective_variations (freestyle_request (Some 0%Q)) = 1%Q /\
  effective_variations (freestyle_request (Some 10%Q)) = 5%Q /\
  Qmin 1 (Qmax 0 (- 1)) = 0%Q /\ Qmin 1 (Qmax 0 2) = 1%Q /\
  effective_intensity no_source_request = (7 # 10)%Q /\
  (exists r bufs,
     run_generate fair_world (kiosk_options 1) (freestyle_request (Some 10%Q))
     = Some (Ok r,
             loop_calls fair_world (kiosk_options 1) [] Freestyle (7 # 10)
               None 0 bufs) /\
     generate fair_world (kiosk_options 1) (freestyle_request (Some 10%Q))
     = Some (Ok r) /\
     length (outputs r) = 5%nat /\ length (previews r) = 5%nat).
Proof.
  split; [reflexivity|]. split; [reflexivity|].
  split; [reflexivity|]. split; [reflexivity|]. split; [reflexivity|].
  destruct (proj2 (proj2 (proj2 (clamped_generation fair_world (kiosk_options 1)
                                   (freestyle_request (Some 10%Q)))) []
                     eq_refl))
    as (r & bufs & Hrun & Hgen & Hlen & Hprev & _).
  - split; [intros b ops; by exists b|reflexivity].
  - exists r, bufs. split; [exact Hrun|]. split; [exact Hgen|].
    split; [exact Hlen|exact Hprev].
Defined.

End GenerationSpec.

(* ===================================================================== *)
(** * Properties of the print queue *)
(* ===================================================================== *)

Module PrinterSpec.
Import Printer.

Lemma lookup_update r f (h : list PrintJobState) r' :
  update r f h !! r' = if decide (r' = r) then f <$> h !! r else h !! r'.
Proof.
  unfold update. destruct (h !! r) as [j|] eqn:Hr.
  - destruct (decide (r' = r)) as [->|Hne].
    + rewrite list_lookup_insert_eq; [done|]. by eapply lookup_lt_Some.
    + by rewrite list_lookup_insert_ne.
  - destruct (decide (r' = r)) as [->|Hne]; [by rewrite Hr|done].
Qed.

Lemma lookup_update_eq r f (h : list PrintJobState) j :
  h !! r = Some j -> update r f h !! r = Some (f j).
Proof. intros H. rewrite lookup_update, decide_True by done. by rewrite H. Qed.

Lemma lookup_update_ne r f (h : list PrintJobState) r' :
  r' <> r -> update r f h !! r' = h !! r'.
Proof. intros H. by rewrite lookup_update, decide_False. Qed.

Lemma count_app f l1 l2 : count f (l1 ++ l2) = (count f l1 + count f l2)%nat.
Proof.
  induction l1 as [|t l1 IH]; simpl; [done|].
  destruct (f t); simpl; by rewrite IH.
Qed.

Lemma print_run_app opts pf es1 es2 st :
  run opts pf st (es1 ++ es2) =
  match run opts pf st es1 with
  | Some st1 => run opts pf st1 es2
  | None => None
  end.
Proof.
  revert st. induction es1 as [|e es1 IH]; simpl; intros st; [done|].
  destruct (step opts pf st e); [apply IH | done].
Qed.

Lemma reachable_under_any opts pf env st :
  reachable_under opts pf env st -> reachable opts pf st.
Proof.
  induction 1 as [|st e st' _ IH _ Hstep]; [constructor|].
  eapply reach_step; eauto. done.
Qed.

Lemma print_run_reachable opts pf es : forall st st',
  reachable opts pf st -> run opts pf st es = Some st' -> reachable opts pf st'.
Proof.
  induction es as [|e es IH]; simpl; intros st st' Hr Hrun.
  - by inversion Hrun; subst.
  - destruct (step opts pf st e) as [st1|] eqn:Hs; [|discriminate].
    eapply IH; [|exact Hrun]. eapply reach_step; eauto. done.
Qed.

(** ** The queue invariant *)

Lemma current_not_queued opts st r j :
  loop_ok opts st -> heap st !! r = Some j -> status j <> Queued ->
  r ∉ queue st.
Proof.
  intros Hok Hj Hs Hin. destruct (ok_queued _ _ Hok r Hin) as (j' & Hj' & Hq & _).
  congruence.
Qed.

(** The record of job [r] is replaced by [f] of it; the job is either
    left out of the queue or appended to it. *)
Lemma loop_ok_modify opts st st' r j f :
  loop_ok opts st ->
  heap st !! r = Some j -> status j <> Queued ->
  heap st' = update r f (heap st) ->
  0 <= attempts (f j) <= queueRetries opts + 1 ->
  (queueRetries opts < attempts (f j) -> status (f j) = Error) ->
  (queue st' = queue st \/
   (queue st' = queue st ++ [r] /\ status (f j) = Queued /\
    attempts (f j) <= queueRetries opts)) ->
  (forall r', printings r' st' = printings r' st) ->
  loop_ok opts st'.
Proof.
  intros Hok Hj Hs Hheap Hatt Hexh Hqueue Htrace.
  pose proof (current_not_queued opts st r j Hok Hj Hs) as Hnotin.
  destruct Hok as [Hnd Hq Ha He Hf].
  assert (forall r', r' ∈ queue st ->
            exists j', heap st' !! r' = Some j' /\ status j' = Queued /\
                       attempts j' <= queueRetries opts) as Hold.
  { intros r' Hin. rewrite Hheap, lookup_update_ne; [by apply Hq|].
    intros ->. done. }
  split.
  - destruct Hqueue as [->|[-> _]]; [done|].
    apply NoDup_app. split; [done|]. split; [|apply NoDup_singleton].
    intros x Hx Hx'. apply list_elem_of_singleton in Hx'. by subst.
  - intros r' Hin. destruct Hqueue as [Heq|(Heq & Hst & Hat)]; rewrite Heq in Hin.
    + by apply Hold.
    + apply elem_of_app in Hin as [Hin|Hin]; [by apply Hold|].
      apply list_elem_of_singleton in Hin as ->.
      exists (f j). by rewrite Hheap, (lookup_update_eq _ _ _ _ Hj).
  - intros r' j'. rewrite Hheap, lookup_update.
    destruct (decide (r' = r)) as [->|Hne]; [|by apply Ha].
    rewrite Hj. simpl. by intros [= <-].
  - intros r' j'. rewrite Hheap, lookup_update.
    destruct (decide (r' = r)) as [->|Hne]; [|by apply He].
    rewrite Hj. simpl. by intros [= <-].
  - intros r'. rewrite Hheap, lookup_update, Htrace.
    destruct (decide (r' = r)) as [->|Hne]; [|by apply Hf].
    by rewrite Hj.
Qed.

Lemma drain_ok opts st :
  loop_ok opts st -> processing st = true -> queue_ok opts (drain st).
Proof.
  intros Hok Hproc. unfold drain. destruct (queue st) as [|r rest] eqn:Hq.
  - split; simpl; try done.
    destruct Hok as [Hnd Hqd Ha He Hf]. split; simpl; auto.
    + constructor.
    + intros r Hin. by apply elem_of_nil in Hin.
  - assert (r ∈ queue st) as Hin by (rewrite Hq; left).
    destruct (ok_queued _ _ Hok r Hin) as (j & Hj & Hst & Hat).
    pose proof (ok_nodup _ _ Hok) as Hnd. rewrite Hq in Hnd.
    apply NoDup_cons in Hnd as [Hnotin Hnd].
    assert (forall r', r' ∈ rest -> r' <> r) as Hne by (intros r' H ->; done).
    split; simpl; try done.
    + destruct Hok as [_ Hqd Ha He Hf]. split; simpl.
      * done.
      * intros r' Hr'. rewrite lookup_update_ne by auto.
        apply Hqd. rewrite Hq. by right.
      * intros r' j'. rewrite lookup_update.
        destruct (decide (r' = r)) as [->|_]; [|by apply Ha].
        rewrite Hj. simpl. intros [= <-]. simpl. by apply (Ha r).
      * intros r' j'. rewrite lookup_update.
        destruct (decide (r' = r)) as [->|_]; [|by apply He].
        rewrite Hj. simpl. intros [= <-]. simpl. lia.
      * intros r'. rewrite lookup_update. unfold printings. simpl.
        rewrite count_app. simpl.
        destruct (decide (r' = r)) as [->|Hne']; [by rewrite Hj|].
        intros Hnone. apply Hf in Hnone. unfold printings in Hnone.
        rewrite Hnone. simpl.
        destruct (Nat.eqb_spec r r'); [congruence|done].
    + unfold current. simpl. intros r' [= <-].
      exists (set_status Printing j). by rewrite (lookup_update_eq _ _ _ _ Hj).
Qed.

Lemma enqueue_ok opts job newid now st :
  0 <= queueRetries opts ->
  queue_ok opts st -> queue_ok opts (enqueue opts job newid now st).
Proof.
  intros HR [Hok Hcur Hbusy Hidle]. unfold enqueue.
  set (state := {| js_filePath := filePath job; id := newid;
                   attempts := 0 |}).
  assert (forall r j, heap st !! r = Some j -> (heap st ++ [state]) !! r = Some j)
    as Hext.
  { intros r j Hj. rewrite lookup_app_l; [done|]. by eapply lookup_lt_Some. }
  assert (forall r j, (heap st ++ [state]) !! r = Some j ->
            heap st !! r = Some j \/ (r = length (heap st) /\ j = state))
    as Hinv.
  { intros r j Hj. apply lookup_snoc_Some in Hj as [[_ Hj]|[Hr Hj]]; auto. }
  assert (forall pr ph,
            loop_ok opts
              {| heap := heap st ++ [state];
                 queue := queue st ++ [length (heap st)];
                 jobs := <[newid := length (heap st)]> (jobs st);
                 processing := pr; phase := ph; trace := trace st |}) as Hloop.
  { intros pr ph. destruct Hok as [Hnd Hq Ha He Hf]. split; simpl.
    - apply NoDup_app. split; [done|]. split; [|apply NoDup_singleton].
      intros x Hx Hx'. apply list_elem_of_singleton in Hx' as ->.
      destruct (Hq _ Hx) as (j & Hj & _). apply lookup_lt_Some in Hj. lia.
    - intros r Hin. apply elem_of_app in Hin as [Hin|Hin].
      + destruct (Hq _ Hin) as (j & Hj & Hrest). exists j. split; auto.
      + apply list_elem_of_singleton in Hin as ->. exists state.
        split; [apply list_lookup_middle; done|]. simpl. split; [done|lia].
    - intros r j Hj. apply Hinv in Hj as [Hj|[_ ->]]; [by eapply Ha|].
      simpl. lia.
    - intros r j Hj. apply Hinv in Hj as [Hj|[_ ->]]; [by eapply He|].
      simpl. lia.
    - intros r Hnone. apply Hf. apply lookup_ge_None in Hnone.
      apply lookup_ge_None. rewrite length_app in Hnone. simpl in Hnone. lia. }
  unfold tick. simpl. destruct (processing st) eqn:Hproc.
  - split; simpl.
    + apply Hloop.
    + intros r Hr. destruct (Hcur r Hr) as (j & Hj & Hrest). exists j. auto.
    + done.
    + intros Hnone. destruct (Hidle Hnone) as [_ ?]. congruence.
  - apply drain_ok; [apply Hloop|done].
Qed.

Ltac trace_unchanged :=
  intros; unfold printings, spawns, requeues; simpl; rewrite count_app; simpl;
  lia.

Lemma step_ok opts pf st e st' :
  0 <= queueRetries opts ->
  queue_ok opts st -> step opts pf st e = Some st' -> queue_ok opts st'.
Proof.
  intros HR Hok Hstep. destruct e as [job newid now|ok|ev]; simpl in Hstep.
  - inversion Hstep; subst. by apply enqueue_ok.
  - unfold processJob_access in Hstep.
    destruct (phase st) as [|r|r] eqn:Hph; try discriminate.
    destruct (heap st !! r) as [j|] eqn:Hj; [|discriminate].
    destruct Hok as [Hloop Hcur Hbusy Hidle].
    destruct (Hcur r) as (j' & Hj' & Hst & Hat); [by unfold current; rewrite Hph|].
    assert (j' = j) as -> by congruence.
    destruct ok; inversion Hstep; subst; clear Hstep.
    + split; simpl; try done.
      * destruct Hloop as [? ? ? ? Hf]; split; try done.
        intros r' Hnone. simpl in Hnone. apply Hf in Hnone.
        unfold printings in *. simpl. rewrite count_app, Hnone. done.
      * unfold current. simpl. intros r' [= <-]. eauto.
      * intros _ _. apply (Hbusy r). by unfold current; rewrite Hph.
    + apply drain_ok; simpl; [|apply (Hbusy r); by unfold current; rewrite Hph].
      pose proof (ok_attempts _ _ Hloop r j Hj) as Hrange.
      eapply (loop_ok_modify opts st _ r j); simpl; eauto; simpl;
        try congruence; try lia; try trace_unchanged.
  - unfold processJob_dispatch in Hstep.
    destruct (phase st) as [|r|r] eqn:Hph; try discriminate.
    destruct (heap st !! r) as [j|] eqn:Hj; [|discriminate].
    destruct Hok as [Hloop Hcur Hbusy Hidle].
    destruct (Hcur r) as (j' & Hj' & Hst & Hat); [by unfold current; rewrite Hph|].
    assert (j' = j) as -> by congruence.
    assert (processing st = true) as Hproc
      by (apply (Hbusy r); by unfold current; rewrite Hph).
    pose proof (ok_attempts _ _ Hloop r j Hj) as Hrange.
    destruct (spawnCommand (dispatch pf j) ev) as [[]|msg].
    + inversion Hstep; subst; clear Hstep. apply drain_ok; simpl; [|done].
      eapply (loop_ok_modify opts st _ r j); simpl; eauto; simpl;
        try congruence; try lia; try trace_unchanged.
    + simpl in Hstep.
      destruct (attempts j + 1 <=? queueRetries opts) eqn:Hle;
        inversion Hstep; subst; clear Hstep.
      * apply Z.leb_le in Hle. apply drain_ok; simpl; [|done].
        eapply (loop_ok_modify opts st _ r j); simpl; eauto; simpl;
          try congruence; try lia; try trace_unchanged.
      * apply Z.leb_gt in Hle. apply drain_ok; simpl; [|done].
        eapply (loop_ok_modify opts st _ r j); simpl; eauto; simpl;
          try congruence; try lia; try trace_unchanged.
Qed.

Lemma init_ok opts : queue_ok opts init.
Proof.
  split; simpl; try done. split; simpl; try done.
  - constructor.
  - intros r Hin. by apply elem_of_nil in Hin.
Qed.

Lemma reachable_ok opts pf st :
  0 <= queueRetries opts -> reachable opts pf st -> queue_ok opts st.
Proof.
  intros HR Hr. induction Hr as [|st e st' _ IH _ Hstep].
  - apply init_ok.
  - eapply step_ok; eauto.
Qed.

(** ** A job whose file exists and whose dispatches fail *)

Lemma printings_snoc r st t :
  count (is_printing_of r) (trace st ++ [t])
  = (printings r st + (if is_printing_of r t then 1 else 0))%nat.
Proof. unfold printings. rewrite count_app. simpl. destruct (is_printing_of r t); lia. Qed.

Lemma drain_failing opts r st :
  current st = None -> failing_ok opts r st -> failing_ok opts r (drain st).
Proof.
  intros Hcur [Hc Hs He]. unfold drain.
  destruct (queue st) as [|r0 rest].
  - split; simpl; auto. intros j Hj.
    change (printings r _) with (printings r st). rewrite (Hc j Hj), Hcur. done.
  - split; simpl.
    + intros j. rewrite lookup_update. unfold printings at 1. unfold current.
      simpl. rewrite printings_snoc. simpl.
      destruct (decide (r = r0)) as [->|Hne].
      * destruct (heap st !! r0) as [j0|] eqn:Hj0; simpl; [|done].
        intros [= <-]. simpl. rewrite Nat.eqb_refl.
        rewrite decide_True by done.
        specialize (Hc j0 eq_refl). rewrite Hcur in Hc.
        rewrite decide_False in Hc by done. lia.
      * intros Hj. specialize (Hc j Hj). rewrite Hcur in Hc.
        rewrite decide_False in Hc by done.
        destruct (Nat.eqb_spec r0 r); [congruence|].
        rewrite decide_False by congruence. lia.
    + intros j. rewrite lookup_update.
      destruct (decide (r = r0)) as [->|Hne]; [|by apply Hs].
      destruct (heap st !! r0) as [j0|]; simpl; [|done]. by intros [= <-].
    + intros j. rewrite lookup_update.
      destruct (decide (r = r0)) as [->|Hne]; [|by apply He].
      destruct (heap st !! r0) as [j0|]; simpl; [|done]. by intros [= <-].
Qed.

(** Job [r0], being worked on, gets its record replaced by [f] of it
    and the loop comes back for the next job. *)
Lemma failing_modify opts r st r0 j0 f q t pr :
  failing_ok opts r st ->
  current st = Some r0 -> heap st !! r0 = Some j0 ->
  (forall r', is_printing_of r' t = false) ->
  (r0 = r ->
   attempts (f j0) = attempts j0 + 1 /\ status (f j0) <> Completed /\
   (status (f j0) = Error -> attempts (f j0) = queueRetries opts + 1)) ->
  failing_ok opts r
    {| heap := update r0 f (heap st); queue := q; jobs := jobs st;
       processing := pr; phase := Idle; trace := trace st ++ [t] |}.
Proof.
  intros [Hc Hs He] Hcur Hj0 Ht Hsame.
  split; simpl.
  - intros j. rewrite lookup_update. unfold printings at 1. unfold current.
    simpl. rewrite printings_snoc, Ht, Nat.add_0_r.
    destruct (decide (r = r0)) as [->|Hne].
    + rewrite Hj0. simpl. intros [= <-].
      specialize (Hc j0 Hj0). rewrite Hcur, decide_True in Hc by done.
      destruct (Hsame eq_refl) as [-> _]. lia.
    + intros Hj. specialize (Hc j Hj). rewrite Hcur in Hc.
      rewrite decide_False in Hc by congruence. lia.
  - intros j. rewrite lookup_update.
    destruct (decide (r = r0)) as [->|Hne]; [|by apply Hs].
    rewrite Hj0. simpl. intros [= <-]. by destruct (Hsame eq_refl) as (_ & ? & _).
  - intros j. rewrite lookup_update.
    destruct (decide (r = r0)) as [->|Hne]; [|by apply He].
    rewrite Hj0. simpl. intros [= <-]. by destruct (Hsame eq_refl) as (_ & _ & ?).
Qed.

Lemma step_failing opts pf r st e st' :
  queue_ok opts st -> failing_ok opts r st ->
  always_fails_for pf r st e ->
  step opts pf st e = Some st' -> failing_ok opts r st'.
Proof.
  intros Hok Hfail [Henv1 Henv2] Hstep.
  destruct Hok as [Hloop Hcur Hbusy Hidle].
  destruct e as [job newid now|ok|ev]; simpl in Hstep.
  - inversion Hstep; subst; clear Hstep. unfold enqueue.
    set (state := {| js_filePath := filePath job; id := newid;
                     attempts := 0 |}).
    assert (forall pr,
              failing_ok opts r
                {| heap := heap st ++ [state];
                   queue := queue st ++ [length (heap st)];
                   jobs := <[newid := length (heap st)]> (jobs st);
                   processing := pr; phase := phase st; trace := trace st |})
      as Hpushed.
    { intros pr. destruct Hfail as [Hc Hs He]. split; simpl.
      - intros j Hj. change (printings r _) with (printings r st).
        change (current _) with (current st).
        apply lookup_snoc_Some in Hj as [[_ Hj]|[Hr Hj]]; [by apply Hc|].
        subst j r. simpl.
        assert (heap st !! length (heap st) = None) as Hnone
          by (by apply lookup_ge_None).
        rewrite (ok_fresh _ _ Hloop _ Hnone).
        destruct (decide (current st = Some (length (heap st)))) as [Hc'|]; [|done].
        destruct (Hcur _ Hc') as (j & Hj & _). congruence.
      - intros j Hj.
        apply lookup_snoc_Some in Hj as [[_ Hj]|[Hr Hj]]; [by eapply Hs|].
        by subst j.
      - intros j Hj.
        apply lookup_snoc_Some in Hj as [[_ Hj]|[Hr Hj]]; [by eapply He|].
        by subst j. }
    unfold tick. simpl. destruct (processing st) eqn:Hproc; [apply Hpushed|].
    apply drain_failing; [|apply Hpushed].
    unfold current. simpl. destruct (current st) as [r0|] eqn:Hc; [|done].
    specialize (Hbusy r0 eq_refl). congruence.
  - unfold processJob_access in Hstep.
    destruct (phase st) as [|r0|r0] eqn:Hph; try discriminate.
    destruct (heap st !! r0) as [j0|] eqn:Hj0; [|discriminate].
    assert (current st = Some r0) as Hc0 by (by unfold current; rewrite Hph).
    destruct ok; inversion Hstep; subst; clear Hstep.
    + destruct Hfail as [Hc Hs He]. split; simpl; auto.
      intros j Hj. unfold printings at 1. unfold current. simpl.
      rewrite printings_snoc. simpl. rewrite Nat.add_0_r.
      rewrite (Hc j Hj), Hc0. done.
    + apply drain_failing; [done|].
      eapply failing_modify; eauto.
      intros ->. exfalso. by apply Henv1.
  - unfold processJob_dispatch in Hstep.
    destruct (phase st) as [|r0|r0] eqn:Hph; try discriminate.
    destruct (heap st !! r0) as [j0|] eqn:Hj0; [|discriminate].
    assert (current st = Some r0) as Hc0 by (by unfold current; rewrite Hph).
    destruct (Hcur r0 Hc0) as (j' & Hj' & Hst & Hat).
    assert (j' = j0) as -> by congruence.
    destruct (spawnCommand (dispatch pf j0) ev) as [[]|msg] eqn:Hsp.
    + inversion Hstep; subst; clear Hstep.
      apply drain_failing; [done|].
      eapply failing_modify; eauto.
      intros ->. exfalso. by eapply (Henv2 eq_refl ev j0).
    + simpl in Hstep.
      destruct (attempts j0 + 1 <=? queueRetries opts) eqn:Hle;
        inversion Hstep; subst; clear Hstep.
      * apply drain_failing; [done|].
        eapply failing_modify; eauto. intros _. simpl. done.
      * apply Z.leb_gt in Hle. apply drain_failing; [done|].
        eapply failing_modify; eauto. intros _. simpl.
        split; [done|]. split; [done|]. intros _. lia.
Qed.

Lemma init_failing opts r : failing_ok opts r init.
Proof. split; simpl; intros j Hj; by rewrite lookup_nil in Hj. Qed.

Lemma reachable_failing opts pf r st :
  0 <= queueRetries opts ->
  reachable_under opts pf (always_fails_for pf r) st ->
  queue_ok opts st /\ failing_ok opts r st.
Proof.
  intros HR Hr. induction Hr as [|st e st' Hr [IHok IHf] Henv Hstep].
  - split; [apply init_ok|apply init_failing].
  - split; [eapply step_ok; eauto|eapply step_failing; eauto].
Qed.

(** ** A job whose file is missing *)

Lemma spawns_snoc r st t :
  count (is_spawn_of r) (trace st ++ [t])
  = (spawns r st + (if is_spawn_of r t then 1 else 0))%nat.
Proof. unfold spawns. rewrite count_app. simpl. destruct (is_spawn_of r t); lia. Qed.

Lemma requeues_snoc r st t :
  count (is_requeue_of r) (trace st ++ [t])
  = (requeues r st + (if is_requeue_of r t then 1 else 0))%nat.
Proof.
  unfold requeues. rewrite count_app. simpl. destruct (is_requeue_of r t); lia.
Qed.

Lemma drain_missing r st : missing_ok r st -> missing_ok r (drain st).
Proof.
  intros [Hsp Hrq Hph Ha Hs He]. unfold drain.
  destruct (queue st) as [|r0 rest].
  - split; simpl; auto.
  - split; simpl.
    + unfold spawns. simpl. rewrite spawns_snoc. simpl. lia.
    + unfold requeues. simpl. rewrite requeues_snoc. simpl. lia.
    + done.
    + intros j. rewrite lookup_update.
      destruct (decide (r = r0)) as [->|Hne]; [|by apply Ha].
      destruct (heap st !! r0) as [j0|] eqn:Hj0; simpl; [|done].
      intros [= <-]. simpl. by apply Ha.
    + intros j. rewrite lookup_update.
      destruct (decide (r = r0)) as [->|Hne]; [|by apply Hs].
      destruct (heap st !! r0) as [j0|]; simpl; [|done]. by intros [= <-].
    + intros j. rewrite lookup_update.
      destruct (decide (r = r0)) as [->|Hne]; [|by apply He].
      destruct (heap st !! r0) as [j0|]; simpl; [|done]. by intros [= <-].
Qed.

Lemma missing_modify r st r0 j0 f q t pr :
  missing_ok r st ->
  heap st !! r0 = Some j0 ->
  is_spawn_of r t = false -> is_requeue_of r t = false ->
  (r0 = r ->
   attempts (f j0) = attempts j0 /\ status (f j0) <> Completed /\
   (status (f j0) = Error -> error (f j0) = Some "File not found"%string)) ->
  missing_ok r
    {| heap := update r0 f (heap st); queue := q; jobs := jobs st;
       processing := pr; phase := Idle; trace := trace st ++ [t] |}.
Proof.
  intros [Hsp Hrq Hph Ha Hs He] Hj0 Ht1 Ht2 Hsame.
  split; simpl.
  - unfold spawns. simpl. rewrite spawns_snoc, Ht1. lia.
  - unfold requeues. simpl. rewrite requeues_snoc, Ht2. lia.
  - done.
  - intros j. rewrite lookup_update.
    destruct (decide (r = r0)) as [->|Hne]; [|by apply Ha].
    rewrite Hj0. simpl. intros [= <-].
    destruct (Hsame eq_refl) as [-> _]. by apply Ha.
  - intros j. rewrite lookup_update.
    destruct (decide (r = r0)) as [->|Hne]; [|by apply Hs].
    rewrite Hj0. simpl. intros [= <-]. by destruct (Hsame eq_refl) as (_ & ? & _).
  - intros j. rewrite lookup_update.
    destruct (decide (r = r0)) as [->|Hne]; [|by apply He].
    rewrite Hj0. simpl. intros [= <-]. by destruct (Hsame eq_refl) as (_ & _ & ?).
Qed.

Lemma step_missing opts pf r st e st' :
  missing_ok r st -> file_missing_for r st e ->
  step opts pf st e = Some st' -> missing_ok r st'.
Proof.
  intros Hmiss Henv Hstep.
  destruct e as [job newid now|ok|ev]; simpl in Hstep.
  - inversion Hstep; subst; clear Hstep. unfold enqueue.
    set (state := {| js_filePath := filePath job; id := newid;
                     attempts := 0 |}).
    assert (forall pr,
              missing_ok r
                {| heap := heap st ++ [state];
                   queue := queue st ++ [length (heap st)];
                   jobs := <[newid := length (heap st)]> (jobs st);
                   processing := pr; phase := phase st; trace := trace st |})
      as Hpushed.
    { intros pr. destruct Hmiss as [Hsp Hrq Hph Ha Hs He]. split; simpl; auto.
      - intros j Hj.
        apply lookup_snoc_Some in Hj as [[_ Hj]|[Hr Hj]]; [by eapply Ha|].
        by subst j.
      - intros j Hj.
        apply lookup_snoc_Some in Hj as [[_ Hj]|[Hr Hj]]; [by eapply Hs|].
        by subst j.
      - intros j Hj.
        apply lookup_snoc_Some in Hj as [[_ Hj]|[Hr Hj]]; [by eapply He|].
        by subst j. }
    unfold tick. simpl. destruct (processing st); [apply Hpushed|].
    apply drain_missing, Hpushed.
  - unfold processJob_access in Hstep.
    destruct (phase st) as [|r0|r0] eqn:Hph; try discriminate.
    destruct (heap st !! r0) as [j0|] eqn:Hj0; [|discriminate].
    destruct ok; inversion Hstep; subst; clear Hstep.
    + assert (r0 <> r) as Hne by (intros ->; by apply Henv).
      destruct Hmiss as [Hsp Hrq Hph' Ha Hs He]. split; simpl; auto.
      * unfold spawns. simpl. rewrite spawns_snoc. simpl.
        destruct (Nat.eqb_spec r0 r); [done|lia].
      * unfold requeues. simpl. rewrite requeues_snoc. simpl. lia.
      * congruence.
    + apply drain_missing. eapply missing_modify; eauto.
  - unfold processJob_dispatch in Hstep.
    destruct (phase st) as [|r0|r0] eqn:Hph; try discriminate.
    destruct (heap st !! r0) as [j0|] eqn:Hj0; [|discriminate].
    assert (r0 <> r) as Hne.
    { intros ->. by apply (mo_phase _ _ Hmiss). }
    assert ((r0 =? r)%nat = false) as Hneb by (by apply Nat.eqb_neq).
    destruct (spawnCommand (dispatch pf j0) ev) as [[]|msg].
    + inversion Hstep; subst; clear Hstep.
      apply drain_missing. eapply missing_modify; eauto. done.
    + simpl in Hstep.
      destruct (attempts j0 + 1 <=? queueRetries opts);
        inversion Hstep; subst; clear Hstep;
        apply drain_missing; eapply missing_modify; eauto; done.
Qed.

Lemma init_missing r : missing_ok r init.
Proof. split; simpl; try done; intros j Hj; by rewrite lookup_nil in Hj. Qed.

Lemma reachable_missing opts pf r st :
  reachable_under opts pf (file_missing_for r) st -> missing_ok r st.
Proof.
  intros Hr. induction Hr as [|st e st' Hr IH Henv Hstep].
  - apply init_missing.
  - eapply step_missing; eauto.
Qed.

(** ** Settled jobs stay as they are *)

Lemma drain_lookup st r j :
  heap st !! r = Some j -> r ∉ queue st -> heap (drain st) !! r = Some j.
Proof.
  intros Hj Hnotin. unfold drain. destruct (queue st) as [|r0 rest]; [done|].
  simpl. rewrite lookup_update_ne; [done|]. intros ->. apply Hnotin. left.
Qed.

Lemma step_settled opts pf st e st' r j :
  queue_ok opts st -> heap st !! r = Some j ->
  status j = Error \/ status j = Completed ->
  step opts pf st e = Some st' -> heap st' !! r = Some j.
Proof.
  intros [Hloop Hcur Hbusy Hidle] Hj Hterm Hstep.
  assert (r ∉ queue st) as Hnotin.
  { eapply current_not_queued; eauto. intros Hq. destruct Hterm; congruence. }
  assert (forall r0, current st = Some r0 -> r <> r0) as Hne.
  { intros r0 Hc ->. destruct (Hcur _ Hc) as (j' & Hj' & Hst & _).
    assert (j' = j) as -> by congruence. destruct Hterm; congruence. }
  destruct e as [job newid now|ok|ev]; simpl in Hstep.
  - inversion Hstep; subst; clear Hstep. unfold enqueue, tick. simpl.
    assert ((heap st ++ [{| js_filePath := filePath job; js_format := format job;
               js_copies := match copies job with
                            | Some c => c | None => defaultCopies opts end;
               js_printer := match printer job with
                             | Some p => Some p
                             | None => head (targetPrinters opts) end;
               id := newid; status := Queued; createdAt := now; attempts := 0;
               error := None |}]) !! r = Some j) as Hj'.
    { rewrite lookup_app_l; [done|]. by eapply lookup_lt_Some. }
    destruct (processing st); [done|].
    apply drain_lookup; simpl; [done|].
    intros Hin. apply elem_of_app in Hin as [Hin|Hin]; [done|].
    apply list_elem_of_singleton in Hin. apply lookup_lt_Some in Hj. lia.
  - unfold processJob_access in Hstep.
    destruct (phase st) as [|r0|r0] eqn:Hph; try discriminate.
    destruct (heap st !! r0) as [j0|] eqn:Hj0; [|discriminate].
    assert (r <> r0) as Hr0 by (apply Hne; by unfold current; rewrite Hph).
    destruct ok; inversion Hstep; subst; clear Hstep; [done|].
    apply drain_lookup; simpl; [|done]. by rewrite lookup_update_ne.
  - unfold processJob_dispatch in Hstep.
    destruct (phase st) as [|r0|r0] eqn:Hph; try discriminate.
    destruct (heap st !! r0) as [j0|] eqn:Hj0; [|discriminate].
    assert (r <> r0) as Hr0 by (apply Hne; by unfold current; rewrite Hph).
    destruct (spawnCommand (dispatch pf j0) ev) as [[]|msg].
    + inversion Hstep; subst; clear Hstep.
      apply drain_lookup; simpl; [|done]. by rewrite lookup_update_ne.
    + simpl in Hstep.
      destruct (attempts j0 + 1 <=? queueRetries opts);
        inversion Hstep; subst; clear Hstep;
        (apply drain_lookup; simpl; [by rewrite lookup_update_ne|]); [|done].
      intros Hin. apply elem_of_app in Hin as [Hin|Hin]; [done|].
      by apply list_elem_of_singleton in Hin.
Qed.

Lemma run_settled opts pf es : forall st st' r j,
  0 <= queueRetries opts -> queue_ok opts st -> heap st !! r = Some j ->
  status j = Error \/ status j = Completed ->
  run opts pf st es = Some st' ->
  heap st' !! r = Some j /\ r ∉ queue st'.
Proof.
  induction es as [|e es IH]; simpl; intros st st' r j HR Hok Hj Hterm Hrun.
  - inversion Hrun; subst. split; [done|].
    eapply current_not_queued; eauto; [apply Hok|].
    intros Hq. destruct Hterm; congruence.
  - destruct (step opts pf st e) as [st1|] eqn:Hstep; [|discriminate].
    eapply (IH st1); eauto.
    + eapply step_ok; eauto.
    + eapply step_settled; eauto.
Qed.

(** ** Running a job to exhaustion *)

Lemma failed_attempt_requeue opts pf st r k n :
  focused r k n st -> k + 1 <= queueRetries opts ->
  exists st', run opts pf st failed_attempt = Some st' /\
              focused r (k + 1) (S n) st'.
Proof.
  intros [Hq Hph (j & Hj & Hk) Hn] Hle.
  unfold failed_attempt, run, step, processJob_access. rewrite Hph, Hj.
  unfold processJob_dispatch. simpl. rewrite Hj. simpl.
  rewrite Hk. apply Z.leb_le in Hle. rewrite Hle.
  eexists. split; [reflexivity|]. rewrite Hq. unfold drain. simpl.
  split; simpl.
  - done.
  - done.
  - rewrite !lookup_update, !decide_True by done. rewrite Hj. simpl.
    eexists. split; [reflexivity|]. simpl. lia.
  - unfold printings in *. simpl. rewrite !count_app. simpl.
    rewrite Nat.eqb_refl. lia.
Qed.

Lemma failed_attempt_final opts pf st r k n :
  focused r k n st -> queueRetries opts < k + 1 ->
  exists st', run opts pf st failed_attempt = Some st' /\
              exhausted r (k + 1) n st'.
Proof.
  intros [Hq Hph (j & Hj & Hk) Hn] Hlt.
  unfold failed_attempt, run, step, processJob_access. rewrite Hph, Hj.
  unfold processJob_dispatch. simpl. rewrite Hj. simpl.
  rewrite Hk. apply Z.leb_gt in Hlt. rewrite Hlt.
  eexists. split; [reflexivity|]. rewrite Hq. unfold drain. simpl.
  split; simpl.
  - rewrite !lookup_update, !decide_True by done. rewrite Hj. simpl.
    eexists. split; [reflexivity|]. simpl. split; [done|lia].
  - unfold printings in *. simpl. rewrite !count_app. simpl. lia.
  - done.
Qed.

Lemma failed_attempts_exhaust opts pf r : forall m st k n,
  focused r k n st -> k + Z.of_nat m = queueRetries opts ->
  exists st', run opts pf st (failed_attempts (S m)) = Some st' /\
              exhausted r (queueRetries opts + 1) (n + m) st'.
Proof.
  induction m as [|m IH]; intros st k n Hfoc Hk.
  - destruct (failed_attempt_final opts pf st r k n Hfoc) as (st' & Hrun & Hex);
      [lia|].
    exists st'. split; [exact Hrun|].
    replace (queueRetries opts + 1) with (k + 1) by lia.
    by rewrite Nat.add_0_r.
  - destruct (failed_attempt_requeue opts pf st r k n Hfoc) as (st1 & Hrun & Hfoc1);
      [lia|].
    destruct (IH st1 (k + 1) (S n) Hfoc1) as (st' & Hrun' & Hex); [lia|].
    exists st'. split.
    + change (failed_attempts (S (S m)))
        with (failed_attempt ++ failed_attempts (S m)).
      by rewrite print_run_app, Hrun.
    + by replace (n + S m)%nat with (S n + m)%nat by lia.
Qed.

Lemma enqueue_idle_focused opts pf st job newid now :
  0 <= queueRetries opts -> reachable opts pf st -> processing st = false ->
  focused (length (heap st)) 0 1 (enqueue opts job newid now st).
Proof.
  intros HR Hr Hproc.
  destruct (reachable_ok opts pf st HR Hr) as [Hloop Hcur Hbusy Hidle].
  assert (current st = None) as Hnone.
  { destruct (current st) as [r0|] eqn:Hc; [|done].
    specialize (Hbusy r0 eq_refl). congruence. }
  destruct (Hidle Hnone) as [Hq _].
  assert (heap st !! length (heap st) = None) as Hfresh
    by (by apply lookup_ge_None).
  pose proof (ok_fresh _ _ Hloop _ Hfresh) as Hzero.
  unfold enqueue, tick. simpl. rewrite Hproc, Hq. unfold drain. simpl.
  split; simpl.
  - done.
  - done.
  - rewrite lookup_update, decide_True by done.
    rewrite list_lookup_middle by done. simpl. eexists. split; [reflexivity|done].
  - unfold printings in *. simpl. rewrite count_app, Hzero. simpl.
    by rewrite Nat.eqb_refl.
Qed.

(** ** C4: a missing file *)

(** C4.  While the file of job [r] is missing whenever its existence is
    checked, the print mechanism is never dispatched for it, it is never
    appended back to the queue, its attempts stay 0, it is never
    completed, and in status [error] its message is 'File not found'.
    In any reachable state in which the loop waits for the existence
    check of job [r], a negative answer takes the job, then in status
    [printing], straight to [error] with that message and its attempts
    unchanged, dispatches nothing, leaves it out of the queue, and
    nothing that happens later changes it. *)
Theorem missing_file_is_terminal (opts : PrinterQueueOptions) (pf : Platform)
    (r : nat) :
  (forall st, reachable_under opts pf (file_missing_for r) st ->
     spawns r st = O /\ requeues r st = O /\ phase st <> AwaitSpawn r /\
     forall j, heap st !! r = Some j ->
       attempts j = 0 /\ status j <> Completed /\
       (status j = Error -> error j = Some "File not found"%string)) /\
  (0 <= queueRetries opts ->
   forall st j, reachable opts pf st ->
     phase st = AwaitAccess r -> heap st !! r = Some j ->
     status j = Printing /\
     exists st', step opts pf st (AccessDone false) = Some st' /\
       let j' := set_error (Some "File not found"%string) (set_status Error j) in
       attempts j' = attempts j /\
       heap st' !! r = Some j' /\ (r ∉ queue st') /\
       spawns r st' = spawns r st /\ requeues r st' = requeues r st /\
       forall es st'', run opts pf st' es = Some st'' ->
                       heap st'' !! r = Some j' /\ (r ∉ queue st'')).
Proof.
  split.
  - intros st Hr. destruct (reachable_missing opts pf r st Hr)
      as [Hsp Hrq Hph Ha Hs He].
    repeat split; auto.
  - intros HR st j Hr Hph Hj.
    pose proof (reachable_ok opts pf st HR Hr) as Hok.
    destruct (ok_current _ _ Hok r) as (j0 & Hj0 & Hst & Hat);
      [by unfold current; rewrite Hph|].
    assert (j0 = j) as -> by congruence.
    split; [done|].
    set (mid := {| heap := update r (fun j => set_error (Some "File not found"%string)
                                               (set_status Error j)) (heap st);
                   queue := queue st; jobs := jobs st;
                   processing := processing st; phase := Idle;
                   trace := trace st ++ [TError r] |}).
    assert (step opts pf st (AccessDone false) = Some (drain mid)) as Hstep.
    { simpl. unfold processJob_access. by rewrite Hph, Hj. }
    pose proof (step_ok opts pf st _ _ HR Hok Hstep) as Hok'.
    exists (drain mid). split; [done|]. simpl. split; [done|].
    assert (r ∉ queue st) as Hnotin.
    { eapply current_not_queued; eauto; [apply Hok|congruence]. }
    assert (heap (drain mid) !! r
            = Some (set_error (Some "File not found"%string) (set_status Error j)))
      as Hj'.
    { apply drain_lookup; simpl; [|done].
      rewrite lookup_update, decide_True by done. by rewrite Hj. }
    split; [done|]. split.
    { eapply (current_not_queued opts (drain mid) r); [apply Hok'|exact Hj'|done]. }
    split; [|split].
    + unfold spawns, drain, mid. simpl. destruct (queue st); simpl;
        rewrite ?count_app; simpl; lia.
    + unfold requeues, drain, mid. simpl. destruct (queue st); simpl;
        rewrite ?count_app; simpl; lia.
    + intros es st'' Hrun. eapply run_settled; eauto.
Qed.

(** A job whose file is missing, alone on the queue. *)
Lemma missing_file_is_terminal_witness :
  exists st',
    run (retry_options 2) Posix init
      [Enqueue photo_job "print-1" 0; AccessDone false] = Some st' /\
    getStatus "print-1" st'
    = Some {| js_filePath := "strip.jpg"; js_format := F4x6; js_copies := 3;
              js_printer := None; id := "print-1"; status := Error;
              createdAt := 0; attempts := 0;
              error := Some "File not found"%string |} /\
    spawns 0 st' = O /\ queue st' = [].
Proof.
  eexists. split; [reflexivity|]. split; [reflexivity|]. split; [|reflexivity].
  refine (proj1 (proj1 (missing_file_is_terminal (retry_options 2) Posix 0) _ _)).
  apply (reach_step _ _ _ (enqueue (retry_options 2) photo_job "print-1" 0 init)
           (AccessDone false)).
  - apply (reach_step _ _ _ init (Enqueue photo_job "print-1" 0)).
    + apply reach_init.
    + intros Hph. discriminate.
    + reflexivity.
  - intros _ Heq. discriminate.
  - reflexivity.
Defined.

(** ** C8: a print binary that is not installed *)

Lemma drain_keeps st r j :
  heap st !! r = Some j ->
  exists j', heap (drain st) !! r = Some j' /\
             attempts j' = attempts j /\ error j' = error j /\
             (status j' = status j \/ status j' = Printing).
Proof.
  intros Hj. unfold drain. destruct (queue st) as [|r0 rest]; simpl.
  - exists j. auto.
  - rewrite lookup_update. destruct (decide (r = r0)) as [->|Hne].
    + rewrite Hj. simpl. eexists. split; [reflexivity|]. simpl. auto.
    + exists j. auto.
Qed.

Lemma drain_requeues st r : requeues r (drain st) = requeues r st.
Proof.
  unfold drain, requeues. destruct (queue st); simpl; [done|].
  rewrite count_app. simpl. lia.
Qed.

Lemma is_enoent_spec c : is_enoent c = true <-> c = Some "ENOENT"%string.
Proof.
  destruct c as [s|]; simpl; [|split; discriminate].
  rewrite String.eqb_eq. split; congruence.
Qed.

(** C8.  [spawnCommand] resolves when the child exits with code 0 and
    also when spawning fails with code ENOENT; it rejects on every other
    spawn error and on every other exit.  In any reachable state in
    which the loop waits for the dispatch of job [r]: a spawn failure
    with code ENOENT completes the job, clears its error and counts no
    attempt; a rejected dispatch counts one attempt, records the
    message, and either appends the job back to the queue (while the
    attempts do not exceed [queueRetries]) or ends it in [error]. *)
Theorem missing_binary_counts_as_success (opts : PrinterQueueOptions)
    (pf : Platform) :
  (forall cmd msg, spawnCommand cmd (ChildError (Some "ENOENT"%string) msg) = Ok tt) /\
  (forall cmd c msg, c <> Some "ENOENT"%string ->
     spawnCommand cmd (ChildError c msg) = Err msg) /\
  (forall cmd, spawnCommand cmd (ChildExit (Some 0)) = Ok tt) /\
  (forall cmd c, c <> Some 0 ->
     spawnCommand cmd (ChildExit c)
     = Err (command cmd ++ " exited with code " ++ code_text c)) /\
  (0 <= queueRetries opts ->
   forall st r j, reachable opts pf st ->
     phase st = AwaitSpawn r -> heap st !! r = Some j ->
     (forall msg, exists st',
        step opts pf st (SpawnDone (ChildError (Some "ENOENT"%string) msg))
        = Some st' /\
        let j' := set_error None (set_status Completed j) in
        heap st' !! r = Some j' /\ status j' = Completed /\
        attempts j' = attempts j /\ (r ∉ queue st')) /\
     (forall ev msg, spawnCommand (dispatch pf j) ev = Err msg ->
        exists st' j',
          step opts pf st (SpawnDone ev) = Some st' /\
          heap st' !! r = Some j' /\
          attempts j' = attempts j + 1 /\ error j' = Some msg /\
          status j' <> Completed /\
          (attempts j + 1 <= queueRetries opts ->
           requeues r st' = S (requeues r st)) /\
          (queueRetries opts < attempts j + 1 ->
           status j' = Error /\ (r ∉ queue st')))).
Proof.
  split; [done|]. split; [|split; [done|split]].
  - intros cmd c msg Hc. simpl. destruct (is_enoent c) eqn:He; [|done].
    by apply is_enoent_spec in He.
  - intros cmd c Hc. destruct c as [[|p|p]|]; simpl; try done.
  - intros HR st r j Hr Hph Hj.
    pose proof (reachable_ok opts pf st HR Hr) as Hok.
    destruct (ok_current _ _ Hok r) as (j0 & Hj0 & Hst & Hat);
      [by unfold current; rewrite Hph|].
    assert (j0 = j) as -> by congruence.
    assert (r ∉ queue st) as Hnotin.
    { eapply current_not_queued; eauto; [apply Hok|congruence]. }
    split.
    + intros msg.
      set (mid := {| heap := update r (fun j => set_error None
                                                  (set_status Completed j)) (heap st);
                     queue := queue st; jobs := jobs st;
                     processing := processing st; phase := Idle;
                     trace := trace st ++ [TCompleted r] |}).
      assert (step opts pf st (SpawnDone (ChildError (Some "ENOENT"%string) msg))
              = Some (drain mid)) as Hstep.
      { simpl. unfold processJob_dispatch. by rewrite Hph, Hj. }
      pose proof (step_ok opts pf st _ _ HR Hok Hstep) as Hok'.
      exists (drain mid). split; [done|]. simpl.
      assert (heap (drain mid) !! r
              = Some (set_error None (set_status Completed j))) as Hj'.
      { apply drain_lookup; simpl; [|done].
        rewrite lookup_update, decide_True by done. by rewrite Hj. }
      split; [done|]. split; [done|]. split; [done|].
      eapply (current_not_queued opts (drain mid) r); [apply Hok'|exact Hj'|done].
    + intros ev msg Hsp.
      destruct (Z.leb_spec (attempts j + 1) (queueRetries opts)) as [Hle|Hgt].
      * set (mid := {| heap := update r (fun j => set_status Queued
                                 (set_error (Some msg)
                                    (set_attempts (attempts j + 1) j))) (heap st);
                       queue := queue st ++ [r]; jobs := jobs st;
                       processing := processing st; phase := Idle;
                       trace := trace st ++ [TRequeued r] |}).
        assert (step opts pf st (SpawnDone ev) = Some (drain mid)) as Hstep.
        { simpl. unfold processJob_dispatch. rewrite Hph, Hj, Hsp. simpl.
          apply Z.leb_le in Hle. by rewrite Hle. }
        destruct (drain_keeps mid r
                    (set_status Queued (set_error (Some msg)
                                          (set_attempts (attempts j + 1) j))))
          as (j' & Hj' & Ha' & He' & Hs').
        { unfold mid. simpl. rewrite lookup_update, decide_True by done.
          by rewrite Hj. }
        exists (drain mid), j'. split; [done|]. split; [done|].
        split; [by rewrite Ha'|]. split; [by rewrite He'|].
        split; [destruct Hs' as [-> | ->]; done|].
        split; [|lia]. intros _. rewrite drain_requeues.
        unfold requeues, mid. simpl. rewrite count_app. simpl.
        rewrite Nat.eqb_refl. lia.
      * set (mid := {| heap := update r (fun j => set_status Error
                                 (set_error (Some msg)
                                    (set_attempts (attempts j + 1) j))) (heap st);
                       queue := queue st; jobs := jobs st;
                       processing := processing st; phase := Idle;
                       trace := trace st ++ [TError r] |}).
        assert (step opts pf st (SpawnDone ev) = Some (drain mid)) as Hstep.
        { simpl. unfold processJob_dispatch. rewrite Hph, Hj, Hsp. simpl.
          apply Z.leb_gt in Hgt. by rewrite Hgt. }
        pose proof (step_ok opts pf st _ _ HR Hok Hstep) as Hok'.
        assert (heap (drain mid) !! r
                = Some (set_status Error (set_error (Some msg)
                          (set_attempts (attempts j + 1) j)))) as Hj'.
        { apply drain_lookup; simpl; [|done].
          rewrite lookup_update, decide_True by done. by rewrite Hj. }
        eexists (drain mid), _. split; [done|]. split; [exact Hj'|]. simpl.
        split; [done|]. split; [done|]. split; [done|]. split; [lia|].
        intros _. split; [done|].
        eapply (current_not_queued opts (drain mid) r); [apply Hok'|exact Hj'|done].
Qed.

(** A job dispatched on a machine without the print binary: it is
    completed with no attempt counted. *)
Lemma missing_binary_counts_as_success_witness :
  let st := awaiting_dispatch in
  phase st = AwaitSpawn 0 /\
  exists st',
    step (retry_options 2) Posix st
      (SpawnDone (ChildError (Some "ENOENT"%string) "spawn lp ENOENT"))
    = Some st' /\
    (status <$> getStatus "print-1" st') = Some Completed /\
    (attempts <$> getStatus "print-1" st') = Some 0.
Proof.
  intros st. split; [reflexivity|].
  assert (0 <= queueRetries (retry_options 2)) as HR by (simpl; lia).
  assert (reachable (retry_options 2) Posix st) as Hr.
  { apply (print_run_reachable (retry_options 2) Posix
             [Enqueue photo_job "print-1" 0; AccessDone true] init);
      [constructor|reflexivity]. }
  destruct (proj1 (proj2 (proj2 (proj2 (proj2
              (missing_binary_counts_as_success (retry_options 2) Posix))))
              HR st 0%nat _ Hr eq_refl eq_refl) "spawn lp ENOENT"%string)
    as (st' & Hstep & Hj' & _).
  exists st'. split; [exact Hstep|].
  injection Hstep as <-. split; reflexivity.
Defined.

End PrinterSpec.

(* ===================================================================== *)
(** * Properties of the live-view broadcaster *)
(* ===================================================================== *)

Module CameraSpec.
Import Camera.

Lemma count_fetches_app l1 l2 :
  count_fetches (l1 ++ l2) = (count_fetches l1 + count_fetches l2)%nat.
Proof.
  induction l1 as [|c l1 IH]; simpl; [done|].
  destruct (is_fetch c); simpl; by rewrite IH.
Qed.

Lemma camera_run_reachable es : forall st st',
  reachable st -> run st es = Some st' -> reachable st'.
Proof.
  induction es as [|e es IH]; simpl; intros st st' Hr Hrun.
  - by inversion Hrun; subst.
  - destruct (step st e) as [st1|] eqn:Hs; [|discriminate].
    eapply IH; [|exact Hrun]. eapply reach_step; eauto.
Qed.

(** ** C10: the latest-frame query *)

(** C10.  With a cached frame, [getLatestFrame] answers with it at once
    and leaves the whole state, the record of driver calls included, as
    it was, whatever the interval and the listeners are.  Without one it
    asks the driver for a frame, once, and waits, changing nothing else.
    When the driver yields a frame, the call caches it and returns it
    without a further driver call; when the driver throws, the call
    returns nothing and leaves the cache as it is, so a cache that was
    empty is still empty. *)
Theorem latest_frame_query (st : State) :
  (forall f, latestFrame st = Some f -> getLatestFrame st = (st, Answer f)) /\
  (latestFrame st = None ->
     let st' := fst (getLatestFrame st) in
     snd (getLatestFrame st) = Awaiting /\
     driverCalls st' = driverCalls st ++ [GetLiveFrame] /\
     fetches st' = S (fetches st) /\
     querying st' = S (querying st) /\
     latestFrame st' = None /\
     liveViewClients st' = liveViewClients st /\
     liveInterval st' = liveInterval st /\
     liveViewEnabled st' = liveViewEnabled st /\
     delivered st' = delivered st) /\
  (forall n buffer, querying st = S n ->
     exists st', getLatestFrame_resume (Ok buffer) st = Some (st', Some buffer) /\
       latestFrame st' = Some buffer /\ driverCalls st' = driverCalls st) /\
  (forall n msg, querying st = S n ->
     exists st', getLatestFrame_resume (Err msg) st = Some (st', None) /\
       latestFrame st' = latestFrame st /\ driverCalls st' = driverCalls st).
Proof.
  split; [|split; [|split]].
  - intros f Hf. unfold getLatestFrame. by rewrite Hf.
  - intros Hnone. unfold getLatestFrame. rewrite Hnone. simpl.
    unfold fetches. simpl. rewrite count_fetches_app. simpl.
    repeat split; auto; lia.
  - intros n buffer Hq. unfold getLatestFrame_resume. rewrite Hq.
    eexists. split; [reflexivity|]. done.
  - intros n msg Hq. unfold getLatestFrame_resume. rewrite Hq.
    eexists. split; [reflexivity|]. done.
Qed.

(** On a service that never had a listener nor live view: the first
    query asks the driver, and once its frame has arrived the second
    query answers from the cache. *)
Lemma latest_frame_query_witness :
  let st1 := fst (getLatestFrame init) in
  snd (getLatestFrame init) = Awaiting /\
  fetches st1 = 1%nat /\
  exists st2,
    getLatestFrame_resume (Ok frame) st1 = Some (st2, Some frame) /\
    getLatestFrame st2 = (st2, Answer frame).
Proof.
  intros st1.
  destruct (proj1 (proj2 (latest_frame_query init)) eq_refl)
    as (Hout & _ & Hfetch & _).
  split; [exact Hout|]. split; [exact Hfetch|].
  destruct (proj1 (proj2 (proj2 (latest_frame_query st1))) O frame eq_refl)
    as (st2 & Hres & Hl & _).
  exists st2. split; [exact Hres|].
  exact (proj1 (latest_frame_query st2) frame Hl).
Defined.

(** ** C9: when the timer runs *)




Lemma startLiveView_same st :
  liveViewClients (startLiveView st) = liveViewClients st /\
  latestFrame (startLiveView st) = latestFrame st /\
  fetches (startLiveView st) = fetches st.
Proof. unfold startLiveView. by destruct (liveInterval st). Qed.



(** A query answered from the cache changes nothing. *)
Lemma getLatestFrame_cached st :
  latestFrame st <> None -> fst (getLatestFrame st) = st.
Proof.
  intros Hsome. unfold getLatestFrame. by destruct (latestFrame st).
Qed.


Lemma getLatestFrame_resume_same res st st' out :
  getLatestFrame_resume res st = Some (st', out) ->
  liveInterval st' = liveInterval st /\
  liveViewClients st' = liveViewClients st /\
  fetches st' = fetches st /\
  (latestFrame st <> None -> latestFrame st' <> None).
Proof.
  unfold getLatestFrame_resume. destruct (querying st); [discriminate|].
  destruct res; intros [= <- <-]; simpl; done.
Qed.

Lemma capture_resume_same res now st st' out :
  capture_resume res now st = Some (st', out) ->
  liveInterval st' = liveInterval st /\
  liveViewClients st' = liveViewClients st /\
  fetches st' = fetches st /\
  (latestFrame st <> None -> latestFrame st' <> None).
Proof.
  unfold capture_resume. destruct (capturing st); [discriminate|].
  destruct res as [[path buf]|m]; intros [= <- <-]; simpl; done.
Qed.

Lemma interval_fire_on st st' :
  interval_fire st = Some st' ->
  liveInterval st = true /\ liveInterval st' = true /\
  liveViewClients st' = liveViewClients st /\ fetches st' = S (fetches st).
Proof.
  unfold interval_fire. destruct (liveInterval st) eqn:Hon; [|discriminate].
  intros [= <-]. simpl. unfold fetches. simpl. rewrite count_fetches_app.
  simpl. repeat split; auto; lia.
Qed.

Lemma interval_resume_same res st st' :
  interval_resume res st = Some st' ->
  liveInterval st' = liveInterval st /\
  liveViewClients st' = liveViewClients st /\
  fetches st' = fetches st /\
  (latestFrame st <> None -> latestFrame st' <> None).
Proof.
  unfold interval_resume. destruct (ticking st); [discriminate|].
  destruct res; intros [= <-]; simpl; done.
Qed.








End CameraSpec.

(* ===================================================================== *)
(** * Further properties of the generation queue *)
(* ===================================================================== *)

Module GenerationMore.
Import Generation.

(** ** Every request gets one answer *)

Lemma find_job_ticket t l job : find_job t l = Some job -> ticket job = t.
Proof.
  induction l as [|j r IH]; simpl; [discriminate|].
  destruct (Nat.eqb_spec (ticket j) t) as [Heq|Hne]; [by intros [= <-]|done].
Qed.

Lemma find_job_perm t l job :
  find_job t l = Some job ->
  map ticket l ≡ₚ t :: map ticket (remove_job t l).
Proof.
  induction l as [|j r IH]; simpl; [discriminate|].
  destruct (Nat.eqb_spec (ticket j) t) as [Heq|Hne].
  - intros _. by rewrite Heq.
  - intros Hf. simpl. rewrite (IH Hf). apply Permutation_swap.
Qed.

Lemma remove_ticket_subset t l rest x :
  remove_ticket t l = Some rest -> In x rest -> In x l.
Proof.
  revert rest. induction l as [|y l IH]; simpl; intros rest; [discriminate|].
  destruct (y =? t)%nat; [intros [= <-]; by right|].
  destruct (remove_ticket t l) as [r'|]; [|discriminate].
  intros [= <-] [Hx|Hx]; [by left|]. right. by eapply IH.
Qed.

Lemma processQueue_outcomes opts st :
  outcomes_ok opts st -> outcomes_ok opts (processQueue opts st).
Proof.
  intros [Hp Hr Ha Hb]. unfold processQueue.
  destruct (activeJobs st >=? maxParallelJobs opts) eqn:Hge; [by split|].
  rewrite Z.geb_leb in Hge. apply Z.leb_gt in Hge.
  destruct (queue st) as [|job rest]; [by split|].
  split; simpl.
  - rewrite map_app, Hp. simpl.
    rewrite <- !app_assoc. apply Permutation_app_head.
    apply Permutation_app_comm.
  - done.
  - rewrite length_app. simpl. lia.
  - lia.
Qed.

Lemma step_outcomes opts st e st' :
  outcomes_ok opts st -> step opts st e = Some st' -> outcomes_ok opts st'.
Proof.
  intros Hok Hstep. destruct e as [req|t w|t|]; simpl in Hstep.
  - inversion Hstep; subst; clear Hstep. unfold enqueue.
    apply processQueue_outcomes. destruct Hok. by split.
  - unfold settle in Hstep.
    destruct (find_job t (running st)) as [job|] eqn:Hf; [|discriminate].
    destruct (runJob w opts job) as [out|]; [|discriminate].
    inversion Hstep; subst; clear Hstep. destruct Hok as [Hp Hr Ha Hb].
    split; simpl.
    + rewrite Hp, (find_job_perm _ _ _ Hf). simpl.
      apply Permutation_middle.
    + intros x Hx. apply in_app_or in Hx as [Hx|[<-|[]]]; [right; auto|by left].
    + rewrite length_app. simpl.
      pose proof (GenerationSpec.find_job_length _ _ _ Hf). lia.
    + done.
  - unfold release in Hstep.
    destruct (remove_ticket t (releasing st)) as [rest|] eqn:Hrem; [|discriminate].
    inversion Hstep; subst; clear Hstep. destruct Hok as [Hp Hr Ha Hb].
    split; simpl.
    + done.
    + intros x Hx. apply Hr. by eapply remove_ticket_subset.
    + pose proof (GenerationSpec.remove_ticket_length _ _ _ Hrem). lia.
    + lia.
  - unfold immediate in Hstep.
    destruct (immediates st) as [|n]; [discriminate|].
    inversion Hstep; subst; clear Hstep.
    apply processQueue_outcomes. destruct Hok. by split.
Qed.

Lemma reachable_outcomes opts st : reachable opts st -> outcomes_ok opts st.
Proof.
  intros Hr. induction Hr as [|st e st' _ IH Hstep].
  - split; simpl; try done. lia.
  - eapply step_outcomes; eauto.
Qed.

(** No request is answered twice, and an answered request was admitted
    and is neither running nor waiting any more; a job that waits for
    its slot to be released has been answered. *)
Theorem one_outcome_per_request (opts : AIProcessorOptions) (st : State) :
  reachable opts st ->
  NoDup (map fst (settled st)) /\
  (forall t, In t (map fst (settled st)) ->
     In t (admitted st) /\ ~ In t (map ticket (running st)) /\ ~ waiting t st) /\
  (forall t, In t (releasing st) -> In t (map fst (settled st))).
Proof.
  intros Hr.
  destruct (reachable_outcomes opts st Hr) as [Hp Hrel _ _].
  destruct (GenerationSpec.reachable_fifo opts st Hr) as [Ha Hq Ht].
  assert (NoDup (admitted st ++ map ticket (queue st))) as Hnd.
  { rewrite Ha, Hq, <- seq_app. apply NoDup_ListNoDup, seq_NoDup. }
  apply NoDup_app in Hnd as (Hnda & Hdisj & _).
  rewrite Hp in Hnda. apply NoDup_app in Hnda as (_ & Hrs & Hnds).
  split; [done|]. split; [|done].
  intros t Hin. apply list_elem_of_In in Hin.
  assert (t ∈ admitted st) as Hadm.
  { rewrite Hp. apply elem_of_app. by right. }
  split; [by apply list_elem_of_In|]. split.
  - intros Hrun. apply list_elem_of_In in Hrun. by apply (Hrs t).
  - unfold waiting. intros Hw. apply list_elem_of_In in Hw. by apply (Hdisj t).
Qed.

Lemma one_outcome_per_request_witness :
  exists st,
    run (kiosk_options 1) init
      [Enqueue (file_request None); Enqueue no_source_request;
       Settle 0 fair_world; Release 0; Immediate; Settle 1 fair_world]
    = Some st /\
    map fst (settled st) = [1%nat; 0%nat] /\
    NoDup (map fst (settled st)).
Proof.
  eexists. split; [reflexivity|]. split; [reflexivity|].
  refine (proj1 (one_outcome_per_request (kiosk_options 1) _ _)).
  eapply (GenerationSpec.run_reachable (kiosk_options 1)
            [Enqueue (file_request None); Enqueue no_source_request;
             Settle 0 fair_world; Release 0; Immediate; Settle 1 fair_world] init);
    [constructor | reflexivity].
Defined.

(** [getPendingJobs] counts the requests not yet answered, plus the
    answered ones whose slot has not been released yet. *)
Theorem pending_jobs_accounting (opts : AIProcessorOptions) (st : State) :
  reachable opts st ->
  getPendingJobs st + Z.of_nat (length (settled st))
  = Z.of_nat (submitted st) + Z.of_nat (length (releasing st)) /\
  0 <= getPendingJobs st /\
  (getPendingJobs st = 0 <->
   queue st = [] /\ running st = [] /\ releasing st = []).
Proof.
  intros Hr.
  destruct (reachable_outcomes opts st Hr) as [Hp _ Hact _].
  destruct (GenerationSpec.reachable_fifo opts st Hr) as [_ _ Ht].
  apply Permutation_length in Hp. rewrite length_app, !length_map in Hp.
  unfold getPendingJobs. rewrite Hact. split; [lia|]. split; [lia|].
  split.
  - intros Hz. destruct (queue st), (running st), (releasing st);
      simpl in *; try lia. done.
  - intros (-> & -> & ->). reflexivity.
Qed.

Lemma pending_jobs_accounting_witness :
  let st := enqueue (kiosk_options 1) (file_request None)
              (enqueue (kiosk_options 1) (file_request None) init) in
  getPendingJobs st = 2 /\
  getPendingJobs st + Z.of_nat (length (settled st))
  = Z.of_nat (submitted st) + Z.of_nat (length (releasing st)).
Proof.
  intros st. split; [reflexivity|].
  refine (proj1 (pending_jobs_accounting (kiosk_options 1) st _)).
  apply (GenerationSpec.run_reachable (kiosk_options 1)
           [Enqueue (file_request None); Enqueue (file_request None)] init st);
    [constructor | reflexivity].
Defined.

(** ** The queue keeps draining *)

(** Whatever the outcome of a running job, once it has ended, released
    its slot and the scheduled admission attempt has run, the request
    at the head of the queue is running. *)
Theorem completion_admits_next (opts : AIProcessorOptions) (st : State)
    (t : nat) (job next : PendingJob) (rest : list PendingJob) (w : World) :
  reachable opts st ->
  find_job t (running st) = Some job ->
  queue st = next :: rest ->
  exists st',
    run opts st [Settle t w; Release t; Immediate] = Some st' /\
    queue st' = rest /\
    In next (running st') /\
    admitted st' = admitted st ++ [ticket next].
Proof.
  intros Hr Hf Hq.
  destruct (reachable_outcomes opts st Hr) as [_ _ Hact Hb].
  pose proof (GenerationSpec.find_job_length _ _ _ Hf) as Hlen.
  destruct (GenerationSpec.settle_enabled w opts t job st Hf)
    as (st1 & Hs1 & Ha1 & Hrel1 & Hrun1).
  assert (queue st1 = queue st /\ admitted st1 = admitted st /\
          immediates st1 = immediates st) as (Hq1 & Had1 & Hi1).
  { simpl in Hs1. unfold settle in Hs1. rewrite Hf in Hs1.
    destruct (runJob w opts job); [|discriminate]. by inversion Hs1. }
  destruct (GenerationSpec.remove_ticket_in t (releasing st1)) as [rl Hrl].
  { rewrite Hrel1. apply in_or_app. right. by left. }
  simpl. simpl in Hs1. rewrite Hs1. unfold release. rewrite Hrl.
  unfold immediate. simpl. unfold processQueue. simpl.
  rewrite Ha1, Hq1, Hq, Had1.
  destruct (activeJobs st - 1 >=? maxParallelJobs opts) eqn:Hge.
  { apply Z.geb_le in Hge. lia. }
  eexists. split; [reflexivity|]. simpl. split; [done|]. split; [|done].
  apply in_or_app. right. by left.
Qed.

Lemma completion_admits_next_witness :
  exists st',
    run (kiosk_options 1)
      (enqueue (kiosk_options 1) (file_request None)
         (enqueue (kiosk_options 1) no_source_request init))
      [Settle 0 fair_world; Release 0; Immediate] = Some st' /\
    queue st' = [] /\
    In {| ticket := 1; request := file_request None |} (running st') /\
    admitted st' = [0%nat; 1%nat].
Proof.
  refine (completion_admits_next (kiosk_options 1)
            (enqueue (kiosk_options 1) (file_request None)
               (enqueue (kiosk_options 1) no_source_request init)) 0%nat
            {| ticket := 0; request := no_source_request |}
            {| ticket := 1; request := file_request None |} [] fair_world
            _ eq_refl eq_refl).
  apply (GenerationSpec.run_reachable (kiosk_options 1)
           [Enqueue no_source_request; Enqueue (file_request None)] init);
    [constructor | reflexivity].
Defined.

(** ** Where the source image comes from *)

Lemma second_field_none s : has_comma s = false -> second_field s = None.
Proof.
  induction s as [|c r IH]; simpl; [done|].
  destruct (Ascii.eqb c ","); [discriminate|exact IH].
Qed.

Lemma upto_comma_id s : has_comma s = false -> upto_comma s = s.
Proof.
  induction s as [|c r IH]; simpl; [done|].
  destruct (Ascii.eqb c ","); [discriminate|]. intros H. by rewrite IH.
Qed.

Lemma second_field_app p q :
  has_comma p = false ->
  second_field (p ++ "," ++ q) = Some (upto_comma q).
Proof.
  induction p as [|c r IH]; simpl; [done|].
  destruct (Ascii.eqb c ","); [discriminate|exact IH].
Qed.

Lemma truthy_app p q : truthy (Some (p ++ "," ++ q)%string) = true.
Proof. by destruct p. Qed.

(** Inline bytes win over a path: with a non-empty [base64] the file is
    never read.  Of a data URL [header,payload] the payload alone is
    decoded; text without a comma is decoded whole.  Only without
    inline bytes is the file at [sourcePath] read, and its read error,
    if any, is the error of the job. *)
Theorem inline_bytes_take_precedence (w : World) (req : AIJobRequest) :
  (forall header payload,
     base64 req = Some (header ++ "," ++ payload)%string ->
     has_comma header = false -> has_comma payload = false ->
     loadSource w req = Ok (fromBase64 w payload)) /\
  (forall b,
     base64 req = Some b -> b <> EmptyString -> has_comma b = false ->
     loadSource w req = Ok (fromBase64 w b)) /\
  (forall path,
     truthy (base64 req) = false ->
     sourcePath req = Some path -> path <> EmptyString ->
     loadSource w req = readFile w path).
Proof.
  split; [|split].
  - intros header payload Hb Hh Hp. unfold loadSource.
    rewrite Hb, truthy_app, (second_field_app _ _ Hh). by rewrite upto_comma_id.
  - intros b Hb Hne Hc. unfold loadSource. rewrite Hb.
    destruct b as [|c r]; [done|]. simpl truthy. cbv iota.
    by rewrite (second_field_none _ Hc).
  - intros path Hb Hs Hne. unfold loadSource. rewrite Hb, Hs.
    destruct path as [|c r]; [done|]. reflexivity.
Qed.

Lemma inline_bytes_take_precedence_witness :
  loadSource fair_world
    {| sourcePath := Some "capture.jpg"%string;
       base64 := Some ("data:image/jpeg;base64" ++ "," ++ "QUJD")%string;
       prompt := None; style := None; intensity := None; variations := None |}
  = Ok (fromBase64 fair_world "QUJD").
Proof.
  exact (proj1 (inline_bytes_take_precedence fair_world
            {| sourcePath := Some "capture.jpg"%string;
               base64 := Some ("data:image/jpeg;base64" ++ "," ++ "QUJD")%string;
               prompt := None; style := None; intensity := None;
               variations := None |})
            "data:image/jpeg;base64"%string "QUJD"%string
            eq_refl eq_refl eq_refl).
Defined.

(** ** The output files *)

Lemma list_ascii_app a b :
  list_ascii_of_string (a ++ b)
  = list_ascii_of_string a ++ list_ascii_of_string b.
Proof. induction a as [|c a IH]; simpl; [done|]. by rewrite IH. Qed.

Lemma string_app_assoc (a b c : string) :
  ((a ++ b) ++ c = a ++ (b ++ c))%string.
Proof.
  induction a as [|x a IH]; [done|].
  change (String x ((a ++ b) ++ c) = String x (a ++ (b ++ c)))%string.
  by rewrite IH.
Qed.

Lemma list_ascii_inj (a b : string) :
  list_ascii_of_string a = list_ascii_of_string b -> a = b.
Proof.
  intros H. rewrite <- (string_of_list_ascii_of_string a).
  rewrite <- (string_of_list_ascii_of_string b). by rewrite H.
Qed.

Lemma separator_free_app (a b : string) :
  separator_free (a ++ b) = separator_free a && separator_free b.
Proof.
  induction a as [|x a IH]; [done|].
  change (separator_free (String x (a ++ b))
          = separator_free (String x a) && separator_free b).
  simpl. rewrite IH. by rewrite !andb_assoc.
Qed.

Lemma filename_stem w st i : filename w st i = (stem w st i ++ ".jpg")%string.
Proof. unfold filename, stem. by rewrite !string_app_assoc. Qed.

Lemma decimal_digit (k : Z) :
  0 <= k < 5 ->
  exists c, decimal (Z.to_nat (k + 1)) = String c EmptyString /\
            separator_free (String c EmptyString) = true /\
            c = ascii_of_nat (49 + Z.to_nat k).
Proof.
  intros Hk.
  assert (k = 0 \/ k = 1 \/ k = 2 \/ k = 3 \/ k = 4) as Hc by lia.
  destruct Hc as [->|[->|[->|[->| ->]]]]; eexists; by repeat split.
Qed.

Lemma stem_separator_free w st i :
  0 <= i < 5 -> separator_free (randomUUID w i) = true ->
  separator_free (stem w st i) = true.
Proof.
  intros Hi Hu. unfold stem. destruct (decimal_digit i Hi) as (c & -> & Hc & _).
  rewrite !separator_free_app, Hu, Hc. by destruct st.
Qed.

Lemma stem_inj w st i j :
  0 <= i < 5 -> 0 <= j < 5 -> stem w st i = stem w st j -> i = j.
Proof.
  intros Hi Hj Heq. unfold stem in Heq.
  destruct (decimal_digit i Hi) as (ci & Hdi & _ & ->).
  destruct (decimal_digit j Hj) as (cj & Hdj & _ & ->).
  rewrite Hdi, Hdj in Heq.
  apply (f_equal list_ascii_of_string) in Heq.
  rewrite !list_ascii_app in Heq. rewrite !app_assoc in Heq.
  apply app_inj_2 in Heq as [_ Heq]; [|done].
  injection Heq as Heq.
  apply (f_equal nat_of_ascii) in Heq.
  rewrite !nat_ascii_embedding in Heq by lia. lia.
Qed.

Lemma outputPath_inj w opts st i j :
  keeps_names w (processedDir opts) ->
  (forall k, 0 <= k < 5 -> separator_free (randomUUID w k) = true) ->
  0 <= i < 5 -> 0 <= j < 5 ->
  outputPath w opts st i = outputPath w opts st j -> i = j.
Proof.
  intros Hjoin Hu Hi Hj Heq. unfold outputPath in Heq.
  rewrite !filename_stem in Heq. apply Hjoin in Heq.
  - by apply (stem_inj w st).
  - apply stem_separator_free; [done|by apply Hu].
  - apply stem_separator_free; [done|by apply Hu].
Qed.

Lemma generate_outputs w opts req src :
  loadSource w req = Ok src -> io_succeeds w ->
  exists r,
    generate w opts req = Some (Ok r) /\
    outputs r
    = map (outputPath w opts (effective_style opts req))
        (seqZ 0 (Qceiling (effective_variations req))) /\
    length (previews r) = Z.to_nat (Qceiling (effective_variations req)).
Proof.
  intros Hsrc Hio.
  destruct (GenerationSpec.run_generate_spec w opts req src Hsrc)
    as [(r & bufs & Hrun & Hlen & _ & Hout & Hprev)
       |(m & bufs & last & _ & _ & _ & Hf)].
  - exists r. split; [unfold generate; by rewrite Hrun|].
    split; [exact Hout|]. by rewrite Hprev, length_map.
  - by destruct (GenerationSpec.no_failure_when_io_succeeds
                   _ _ _ _ _ _ _ _ _ Hio Hf).
Qed.

Lemma fair_world_keeps_names (dir : string) : keeps_names fair_world dir.
Proof.
  intros a b _ _ Heq. simpl in Heq.
  apply (f_equal list_ascii_of_string) in Heq.
  rewrite !list_ascii_app in Heq.
  apply app_inv_head in Heq. apply app_inv_head in Heq.
  apply app_inv_tail in Heq. by apply list_ascii_inj.
Qed.

(** When the source loads and the image library and the writes succeed,
    the outputs of [generate] are the paths of variations 0, 1, ... in
    that order, each the file name of its variation joined to the
    processed directory.  Provided that [path.join] keeps apart the
    names it is given, and the identifiers drawn contain no path
    separator, no two of the outputs are the same path, whatever
    identifiers were drawn; there is one preview per output. *)
Theorem outputs_are_distinct_files (w : World) (opts : AIProcessorOptions)
    (req : AIJobRequest) (src : Buffer) :
  loadSource w req = Ok src -> io_succeeds w ->
  keeps_names w (processedDir opts) ->
  (forall i, 0 <= i < 5 -> separator_free (randomUUID w i) = true) ->
  exists r,
    generate w opts req = Some (Ok r) /\
    outputs r
    = map (fun i => join w (processedDir opts)
                      (filename w (effective_style opts req) i))
        (seqZ 0 (Qceiling (effective_variations req))) /\
    NoDup (outputs r) /\
    length (previews r) = length (outputs r).
Proof.
  intros Hsrc Hio Hjoin Hu.
  destruct (generate_outputs w opts req src Hsrc Hio) as (r & Hgen & Hout & Hlp).
  pose proof (GenerationSpec.effective_variations_ceiling req) as Hceil.
  exists r. split; [exact Hgen|]. split; [exact Hout|]. rewrite Hout. split.
  - apply (NoDup_fmap_2_strong (outputPath w opts (effective_style opts req))).
    + intros i j Hi Hj. apply elem_of_seqZ in Hi. apply elem_of_seqZ in Hj.
      apply outputPath_inj; try done; lia.
    + apply NoDup_seqZ.
  - rewrite length_map, length_seqZ. exact Hlp.
Qed.

Lemma outputs_are_distinct_files_witness :
  exists r,
    generate fair_world (kiosk_options 1) (freestyle_request (Some 3%Q))
    = Some (Ok r) /\
    outputs r = [ "processed/0-freestyle-v1.jpg"; "processed/1-freestyle-v2.jpg";
                  "processed/2-freestyle-v3.jpg" ]%string /\
    NoDup (outputs r).
Proof.
  destruct (outputs_are_distinct_files fair_world (kiosk_options 1)
              (freestyle_request (Some 3%Q)) [] eq_refl)
    as (r & Hgen & Hout & Hnd & _).
  - split; [intros b ops; by exists b|reflexivity].
  - apply fair_world_keeps_names.
  - intros i Hi.
    assert (i = 0 \/ i = 1 \/ i = 2 \/ i = 3 \/ i = 4) as Hc by lia.
    destruct Hc as [->|[->|[->|[->| ->]]]]; reflexivity.
  - exists r. split; [exact Hgen|]. split; [exact Hout|exact Hnd].
Defined.

(** ** The image pipeline *)

Lemma substring_length (n : nat) (s : string) :
  (String.length (substring 0 n s) <= n)%nat.
Proof.
  revert s. induction n as [|n IH]; intros [|c r]; simpl; try lia.
  specialize (IH r). lia.
Qed.

Lemma substring_prefix (n : nat) (s : string) :
  exists rest, s = (substring 0 n s ++ rest)%string.
Proof.
  revert s. induction n as [|n IH]; intros [|c r]; simpl.
  - by exists EmptyString.
  - by exists (String c r).
  - by exists EmptyString.
  - destruct (IH r) as [rest Hr]. exists rest.
    change (String c r = String c (substring 0 n r ++ rest)%string).
    by f_equal.
Qed.

Lemma substring_whole (n : nat) (s : string) :
  (String.length s <= n)%nat -> substring 0 n s = s.
Proof.
  revert s. induction n as [|n IH]; intros [|c r]; simpl; try done; try lia.
  intros H. rewrite IH; [done|lia].
Qed.

(** Whatever the style, intensity, seed and prompt, the pipeline starts
    by resizing into 2048 x 2048 and ends by compositing the caption
    and encoding JPEG at quality 93.  The caption carries the style
    asked for and a prefix of the prompt of at most 120 characters, the
    whole prompt when it is that short; it is 140 high exactly when
    there is a non-empty prompt, 90 otherwise. *)
Theorem pipeline_frame (st : StyleType) (intens : Q) (seed : Z)
    (p : option string) :
  exists middle wm,
    applyStyle st intens seed p
    = Resize 2048 2048 :: middle ++ [CompositeWatermark wm; Jpeg 93] /\
    wm_style wm = st /\
    (String.length (wm_prompt wm) <= 120)%nat /\
    (exists rest,
       match p with Some s => s | None => EmptyString end
       = (wm_prompt wm ++ rest)%string) /\
    (forall s, p = Some s -> (String.length s <= 120)%nat -> wm_prompt wm = s) /\
    wm_height wm = (if truthy p then 140 else 90).
Proof.
  unfold applyStyle. cbv zeta.
  match goal with
  | |- context [ [Resize 2048 2048; ?m; ?l; ?g] ++ ?b ++ ?t ++ ?s ++ _ ] =>
      exists ([m; l; g] ++ b ++ t ++ s)
  end.
  exists (buildWatermark st p). split.
  - simpl. by rewrite <- !app_assoc.
  - split; [done|]. unfold buildWatermark; simpl.
    destruct p as [[|c r]|]; simpl.
    + repeat split; try lia; [by exists EmptyString|by intros s [= <-]].
    + repeat split.
      * exact (substring_length 120 (String c r)).
      * destruct (substring_prefix 120 (String c r)) as [rest Hr].
        exists rest. exact Hr.
      * intros s [= <-] Hlen. exact (substring_whole 120 (String c r) Hlen).
    + repeat split; try lia; [by exists EmptyString|done].
Qed.

Lemma variationFactor_range (i : Z) :
  0 <= i -> (1 <= variationFactor i <= 13 # 10)%Q.
Proof.
  intros Hi. rewrite (GenerationSpec.variationFactor_mod i Hi).
  pose proof (Z.mod_pos_bound (i * 13) 7 ltac:(lia)) as [Hlo Hhi].
  assert (0 <= inject_Z ((i * 13) mod 7) <= 6)%Q as [Hq0 Hq6].
  { split.
    - change 0%Q with (inject_Z 0). rewrite <- Zle_Qle. exact Hlo.
    - change 6%Q with (inject_Z 6). rewrite <- Zle_Qle. lia. }
  set (x := inject_Z ((i * 13) mod 7)) in *.
  assert (x / 20 == x * (1 # 20))%Q as -> by reflexivity.
  split; lra.
Qed.

(** The numbers handed to the image library stay in fixed ranges for
    every request and every variation: the saturation factor within
    [0.95, 2.496], the brightness factor within [1, 1.05], a blur
    radius, when the style has one, between 0.02 * i and
    0.5 + 0.02 * i, and the opacity of a tint within [0, 0.15]. *)
Theorem pipeline_parameters_bounded (st : StyleType) (req : AIJobRequest)
    (i : Z) (p : option string) :
  0 <= i ->
  let ops := applyStyle st (effective_intensity req) i p in
  (exists s b,
     ops !! 1%nat = Some (Modulate s b) /\
     (95 # 100 <= s <= 2496 # 1000)%Q /\ (1 <= b <= 105 # 100)%Q) /\
  (forall sigma, In (Blur sigma) ops ->
     (inject_Z i * (2 # 100) <= sigma <= (1 # 2) + inject_Z i * (2 # 100))%Q) /\
  (forall r g b alpha, In (CompositeTint r g b alpha) ops ->
     (0 <= alpha <= 15 # 100)%Q).
Proof.
  intros Hi ops.
  pose proof (GenerationSpec.effective_intensity_range req) as [Ht0 Ht1].
  pose proof (variationFactor_range i Hi) as [Hf1 Hf2].
  subst ops. set (t := effective_intensity req) in *.
  set (f := variationFactor i) in *.
  split; [|split].
  - do 2 eexists. split; [reflexivity|]. fold f.
    assert (1 <= (1 + t * (2 # 10)) * f <= (12 # 10) * (13 # 10))%Q as [Hp1 Hp2].
    { split; nra. }
    rewrite <- Qmult_assoc.
    set (g := ((1 + t * (2 # 10)) * f)%Q) in *.
    split; [|split; lra].
    destruct st; unfold saturation, STYLE_PRESETS; split; nra.
  - intros sigma Hin. unfold applyStyle in Hin.
    destruct st; simpl in Hin;
      repeat (destruct Hin as [Hin|Hin]; [try discriminate|]); try done.
    injection Hin as <-. fold t. split; nra.
  - intros r g b alpha Hin. unfold applyStyle in Hin.
    destruct st; simpl in Hin;
      repeat (destruct Hin as [Hin|Hin]; [try discriminate|]); try done;
      injection Hin as <- <- <- <-; fold t; split; nra.
Qed.

Lemma pipeline_parameters_bounded_witness :
  (exists s b,
     applyStyle Cartoon (effective_intensity (file_request None)) 4 None !! 1%nat
     = Some (Modulate s b) /\
     (95 # 100 <= s <= 2496 # 1000)%Q /\ (1 <= b <= 105 # 100)%Q).
Proof.
  refine (proj1 (pipeline_parameters_bounded Cartoon (file_request None) 4 None _)).
  lia.
Defined.

(** The variations of one request never share a factor: for seeds
    0 <= i < j < 7, and so for the at most five of a request, the
    factors differ; from seed 7 on the same seven factors repeat. *)
Theorem variation_factors_distinct (i j : Z) :
  0 <= i -> i < j -> j < 7 ->
  ~ (variationFactor i == variationFactor j)%Q /\
  variationFactor (i + 7) = variationFactor i.
Proof.
  intros Hi Hij Hj. split.
  - assert (i = 0 \/ i = 1 \/ i = 2 \/ i = 3 \/ i = 4 \/ i = 5 \/ i = 6)
      as Hci by lia.
    assert (j = 0 \/ j = 1 \/ j = 2 \/ j = 3 \/ j = 4 \/ j = 5 \/ j = 6)
      as Hcj by lia.
    destruct Hci as [->|[->|[->|[->|[->|[->| ->]]]]]];
      destruct Hcj as [->|[->|[->|[->|[->|[->| ->]]]]]];
      try lia; vm_compute; discriminate.
  - rewrite !GenerationSpec.variationFactor_mod by lia.
    replace ((i + 7) * 13) with (i * 13 + 13 * 7) by lia.
    by rewrite Z_mod_plus_full.
Qed.

Lemma variation_factors_distinct_witness :
  ~ (variationFactor 0 == variationFactor 4)%Q /\
  variationFactor (0 + 7) = variationFactor 0.
Proof. apply (variation_factors_distinct 0 4); lia. Defined.

(** ** Behind the request schema *)

Lemma is_int_spec (q : Q) :
  Routes.is_int q = true -> (q == inject_Z (Qfloor q))%Q.
Proof. unfold Routes.is_int. apply Qeq_bool_eq. Qed.

(** A body that [aiSchema] accepts never meets the missing-source
    error of [generate], and neither clamp changes what it asked for:
    the effective count and intensity are the requested ones, 1 and 0.7
    when absent.  When the source loads and the image library and the
    writes succeed, the job produces exactly the requested number of
    outputs, four at most. *)
Theorem accepted_body_is_served_as_asked (w : World)
    (opts : AIProcessorOptions) (body : AIJobRequest) (src : Buffer) :
  Routes.aiSchema body = true ->
  ~ missing_source body /\
  (effective_variations body
   == match variations body with Some v => v | None => 1 end)%Q /\
  (effective_intensity body
   == match intensity body with Some v => v | None => 7 # 10 end)%Q /\
  (loadSource w body = Ok src -> io_succeeds w ->
   exists r,
     generate w opts body = Some (Ok r) /\
     (inject_Z (Z.of_nat (length (outputs r)))
      == match variations body with Some v => v | None => 1 end)%Q /\
     (1 <= length (outputs r) <= 4)%nat).
Proof.
  unfold Routes.aiSchema. intros Hs.
  apply andb_prop in Hs as [Hs Hsrc].
  apply andb_prop in Hs as [Hs Hv].
  apply andb_prop in Hs as [_ Ht].
  assert (1 <= match variations body with Some v => v | None => 1 end <= 4)%Q
    as [Hv1 Hv4].
  { destruct (variations body) as [v|]; simpl in Hv; [|done].
    apply andb_prop in Hv as [Hv H4]. apply andb_prop in Hv as [_ H1].
    apply Qle_bool_iff in H1, H4. done. }
  assert (match variations body with Some v => v | None => 1 end
          == inject_Z (Qfloor match variations body with
                              | Some v => v | None => 1 end))%Q as Hint.
  { destruct (variations body) as [v|]; simpl in Hv; [|done].
    apply andb_prop in Hv as [Hv _]. apply andb_prop in Hv as [Hv _].
    by apply is_int_spec. }
  assert (effective_variations body
          == match variations body with Some v => v | None => 1 end)%Q as Hev.
  { unfold effective_variations.
    apply (proj1 (proj2 (GenerationSpec.clamp_variations _))).
    split; [exact Hv1|]. eapply Qle_trans; [exact Hv4|done]. }
  split; [|split; [exact Hev|split]].
  - intros [Hp Hb]. rewrite Hp, Hb in Hsrc. discriminate.
  - unfold effective_intensity.
    apply (proj1 (proj2 (GenerationSpec.clamp_intensity _))).
    destruct (intensity body) as [v|]; simpl in Ht; [|done].
    apply andb_prop in Ht as [H0 H1]. apply Qle_bool_iff in H0, H1. done.
  - intros Hload Hio.
    destruct (generate_outputs w opts body src Hload Hio) as (r & Hgen & Hout & _).
    exists r. split; [exact Hgen|].
    rewrite Hout, length_map, length_seqZ.
    set (v := match variations body with Some v => v | None => 1%Q end) in *.
    assert (Qceiling (effective_variations body) = Qfloor v) as Hc.
    { rewrite Hev. transitivity (Qceiling (inject_Z (Qfloor v))).
      - apply Qceiling_comp. exact Hint.
      - apply Qceiling_Z. }
    rewrite Hc.
    assert (1 <= Qfloor v <= 4) as [Hf1 Hf4].
    { split.
      - apply (Qfloor_resp_le 1 v) in Hv1. exact Hv1.
      - apply (Qfloor_resp_le v 4) in Hv4. exact Hv4. }
    split; [|lia]. rewrite Z2Nat.id by lia. symmetry. exact Hint.
Qed.

Lemma accepted_body_is_served_as_asked_witness :
  ~ missing_source (file_request (Some 3%Q)) /\
  (effective_variations (file_request (Some 3%Q)) == 3)%Q.
Proof.
  destruct (accepted_body_is_served_as_asked fair_world (kiosk_options 1)
              (file_request (Some 3%Q)) [] eq_refl) as (Hm & Hv & _).
  split; [exact Hm|exact Hv].
Defined.

End GenerationMore.

(* ===================================================================== *)
(** * Further properties of the print queue *)
(* ===================================================================== *)

Module PrinterMore.
Import Printer.

Lemma update_length r f (h : list PrintJobState) :
  length (update r f h) = length h.
Proof. unfold update. destruct (h !! r); [apply length_insert|done]. Qed.

Lemma store_enqueue h q m state newid :
  store_ok h q m -> status state = Queued -> id state = newid ->
  store_ok (h ++ [state]) (q ++ [length h]) (<[newid := length h]> m).
Proof.
  intros Hs Hq Hid. split.
  - apply NoDup_app. split; [apply Hs|]. split; [|apply NoDup_singleton].
    intros r Hr Hin. apply list_elem_of_singleton in Hin as ->.
    destruct (so_queued _ _ _ Hs _ Hr) as (j & Hj & _).
    apply lookup_lt_Some in Hj. lia.
  - intros r Hr. apply elem_of_app in Hr as [Hr|Hr].
    + destruct (so_queued _ _ _ Hs _ Hr) as (j & Hj & Hst).
      exists j. split; [|done].
      rewrite lookup_app_l; [done|]. by apply lookup_lt_Some in Hj.
    + apply list_elem_of_singleton in Hr as ->. exists state.
      split; [by apply list_lookup_middle|done].
  - intros r j Hj Hst. apply lookup_snoc_Some in Hj as [[_ Hj]|[-> _]].
    + apply elem_of_app. left. by apply (so_waiting _ _ _ Hs r j).
    + apply elem_of_app. right. by apply list_elem_of_singleton.
  - intros i r Hi. destruct (decide (i = newid)) as [->|Hne].
    + rewrite lookup_insert_eq in Hi. injection Hi as <-.
      exists state. split; [by apply list_lookup_middle|done].
    + rewrite lookup_insert_ne in Hi by done.
      destruct (so_jobs _ _ _ Hs _ _ Hi) as (j & Hj & Hidj).
      exists j. split; [|done].
      rewrite lookup_app_l; [done|]. by apply lookup_lt_Some in Hj.
Qed.

Lemma store_modify h q m r j f q' :
  store_ok h q m -> h !! r = Some j -> status j <> Queued ->
  id (f j) = id j ->
  (status (f j) = Queued /\ q' = q ++ [r]) \/
  (status (f j) <> Queued /\ q' = q) ->
  store_ok (update r f h) q' m.
Proof.
  intros Hs Hj Hnq Hid Hcase.
  assert (r ∉ q) as Hnotin.
  { intros Hin. destruct (so_queued _ _ _ Hs _ Hin) as (j' & Hj' & Hst).
    rewrite Hj in Hj'. injection Hj' as <-. done. }
  split.
  - destruct Hcase as [[_ ->]|[_ ->]]; [|apply Hs].
    apply NoDup_app. split; [apply Hs|]. split; [|apply NoDup_singleton].
    intros x Hx Hin. apply list_elem_of_singleton in Hin as ->. done.
  - intros r' Hr'. rewrite PrinterSpec.lookup_update.
    destruct (decide (r' = r)) as [->|Hne].
    + rewrite Hj. simpl. exists (f j). split; [done|].
      destruct Hcase as [[Hst _]|[_ ->]]; [done|done].
    + apply (so_queued _ _ _ Hs).
      destruct Hcase as [[_ ->]|[_ ->]]; [|done].
      apply elem_of_app in Hr' as [Hr'|Hr']; [done|].
      by apply list_elem_of_singleton in Hr'.
  - intros r' j' Hj' Hst. rewrite PrinterSpec.lookup_update in Hj'.
    destruct (decide (r' = r)) as [->|Hne].
    + rewrite Hj in Hj'. simpl in Hj'. injection Hj' as <-.
      destruct Hcase as [[_ ->]|[Hn _]]; [|done].
      apply elem_of_app. right. by apply list_elem_of_singleton.
    + pose proof (so_waiting _ _ _ Hs r' j' Hj' Hst) as Hin.
      destruct Hcase as [[_ ->]|[_ ->]]; [|done].
      apply elem_of_app. by left.
  - intros i r' Hi. destruct (so_jobs _ _ _ Hs _ _ Hi) as (j' & Hj' & Hidj).
    rewrite PrinterSpec.lookup_update.
    destruct (decide (r' = r)) as [->|Hne]; [|eauto].
    rewrite Hj. simpl. exists (f j). split; [done|].
    rewrite Hj in Hj'. injection Hj' as <-. congruence.
Qed.

Lemma drain_shape st :
  store_ok (heap st) (queue st) (jobs st) ->
  (forall r j, heap st !! r = Some j -> status j <> Printing) ->
  processing st = true -> shape_ok (drain st).
Proof.
  intros Hs Hrest Hp. unfold drain.
  destruct (queue st) as [|r rest] eqn:Hq.
  - split; simpl; try done.
    intros r j Hj Hst. by destruct (Hrest r j Hj).
  - destruct (so_queued _ _ _ Hs r) as (j & Hj & Hst); [by left|].
    pose proof (so_nodup _ _ _ Hs) as Hnd.
    apply NoDup_cons in Hnd as [Hnotin Hnd].
    split; simpl; try done.
    + split.
      * exact Hnd.
      * intros r' Hr'. assert (r' <> r) as Hne by (by intros ->).
        rewrite PrinterSpec.lookup_update_ne by done.
        apply (so_queued _ _ _ Hs). by right.
      * intros r' j' Hj' Hst'. rewrite PrinterSpec.lookup_update in Hj'.
        destruct (decide (r' = r)) as [->|Hne].
        -- rewrite Hj in Hj'. simpl in Hj'. by injection Hj' as <-.
        -- pose proof (so_waiting _ _ _ Hs r' j' Hj' Hst') as Hin.
           apply elem_of_cons in Hin as [?|?]; done.
      * intros i r' Hi. destruct (so_jobs _ _ _ Hs _ _ Hi) as (j' & Hj' & Hidj).
        rewrite PrinterSpec.lookup_update.
        destruct (decide (r' = r)) as [->|Hne]; [|eauto].
        rewrite Hj. simpl. eexists. split; [done|].
        rewrite Hj in Hj'. by injection Hj' as <-.
    + intros r' [= <-]. exists (set_status Printing j).
      split; [by apply PrinterSpec.lookup_update_eq|done].
    + intros r' j' Hj' Hst'. rewrite PrinterSpec.lookup_update in Hj'.
      destruct (decide (r' = r)) as [->|Hne]; [done|].
      by destruct (Hrest r' j' Hj').
Qed.

Lemma shape_resting st :
  shape_ok st -> current st = None ->
  forall r j, heap st !! r = Some j -> status j <> Printing.
Proof.
  intros Hs Hc r j Hj Hst. pose proof (sh_printing _ Hs r j Hj Hst). congruence.
Qed.

Lemma enqueue_shape opts job newid now st :
  shape_ok st -> shape_ok (enqueue opts job newid now st).
Proof.
  intros Hs. unfold enqueue, tick. simpl.
  match goal with
  | |- context [ heap st ++ [?s] ] => set (state := s)
  end.
  pose proof (store_enqueue _ _ _ state newid (sh_store _ Hs) eq_refl eq_refl)
    as Hstore.
  destruct (processing st) eqn:Hp.
  - split; simpl.
    + exact Hstore.
    + intros r Hr. destruct (sh_current _ Hs r Hr) as (j & Hj & Hst).
      exists j. split; [|done].
      rewrite lookup_app_l; [done|]. by apply lookup_lt_Some in Hj.
    + intros r j Hj Hst. apply lookup_snoc_Some in Hj as [[_ Hj]|[_ <-]].
      * by apply (sh_printing _ Hs r j).
      * done.
    + by intros _ _.
    + intros Hc. destruct (sh_idle _ Hs Hc) as [_ ?]. congruence.
  - apply drain_shape; simpl; [exact Hstore| |done].
    assert (current st = None) as Hc.
    { destruct (current st) as [r|] eqn:Hc; [|done].
      pose proof (sh_busy _ Hs r Hc). congruence. }
    intros r j Hj. apply lookup_snoc_Some in Hj as [[_ Hj]|[_ <-]].
    + by apply (shape_resting st Hs Hc r).
    + done.
Qed.

Lemma finish_shape st r j f q' tr :
  shape_ok st -> current st = Some r -> heap st !! r = Some j ->
  id (f j) = id j -> status (f j) <> Printing ->
  (status (f j) = Queued /\ q' = queue st ++ [r]) \/
  (status (f j) <> Queued /\ q' = queue st) ->
  shape_ok (drain {| heap := update r f (heap st); queue := q';
                     jobs := jobs st; processing := processing st;
                     phase := Idle; trace := tr |}).
Proof.
  intros Hs Hc Hj Hid Hnp Hcase.
  destruct (sh_current _ Hs r Hc) as (j0 & Hj0 & Hst0).
  rewrite Hj in Hj0. injection Hj0 as <-.
  apply drain_shape; simpl.
  - apply (store_modify _ _ _ r j f q' (sh_store _ Hs) Hj); [|done|done].
    by rewrite Hst0.
  - intros r' j' Hj'. rewrite PrinterSpec.lookup_update in Hj'.
    destruct (decide (r' = r)) as [->|Hne].
    + rewrite Hj in Hj'. simpl in Hj'. by injection Hj' as <-.
    + intros Hst'. pose proof (sh_printing _ Hs r' j' Hj' Hst'). congruence.
  - by apply (sh_busy _ Hs r).
Qed.

Lemma step_shape opts pf st e st' :
  shape_ok st -> step opts pf st e = Some st' -> shape_ok st'.
Proof.
  intros Hs Hstep. destruct e as [job newid now|ok|ev]; simpl in Hstep.
  - injection Hstep as <-. by apply enqueue_shape.
  - unfold processJob_access in Hstep.
    destruct (phase st) as [|r|r] eqn:Hph; try discriminate.
    destruct (heap st !! r) as [j|] eqn:Hj; [|discriminate].
    assert (current st = Some r) as Hc by (unfold current; by rewrite Hph).
    destruct ok; injection Hstep as <-.
    + split; simpl; try apply Hs.
      * intros r' [= <-]. apply (sh_current _ Hs r Hc).
      * intros r' j' Hj' Hst'. unfold current. simpl.
        pose proof (sh_printing _ Hs r' j' Hj' Hst'). congruence.
      * intros r' _. by apply (sh_busy _ Hs r).
      * done.
    + apply (finish_shape st r j); try done. by right.
  - unfold processJob_dispatch in Hstep.
    destruct (phase st) as [|r|r] eqn:Hph; try discriminate.
    destruct (heap st !! r) as [j|] eqn:Hj; [|discriminate].
    assert (current st = Some r) as Hc by (unfold current; by rewrite Hph).
    destruct (spawnCommand (dispatch pf j) ev) as [[]|msg].
    + injection Hstep as <-. apply (finish_shape st r j); try done. by right.
    + simpl in Hstep.
      destruct (attempts j + 1 <=? queueRetries opts);
        injection Hstep as <-; apply (finish_shape st r j); try done.
      * by left.
      * by right.
Qed.

Lemma init_shape : shape_ok init.
Proof.
  split; try done. split; simpl; try done.
  - constructor.
  - intros r Hr. by apply elem_of_nil in Hr.
Qed.

Lemma reachable_shape opts pf env st :
  reachable_under opts pf env st -> shape_ok st.
Proof.
  induction 1 as [|st e st' _ IH _ Hstep]; [apply init_shape|].
  by apply (step_shape opts pf st e).
Qed.

Lemma status_is_spec s st r :
  status_is s st r = true <-> exists j, heap st !! r = Some j /\ status j = s.
Proof.
  unfold status_is. destruct (heap st !! r) as [j|].
  - split.
    + intros H. exists j. split; [done|]. by destruct (status j), s.
    + intros (j' & [= <-] & <-). by destruct (status j).
  - split; [done|]. by intros (j' & ? & _).
Qed.

Lemma values_nodup st :
  shape_ok st -> NoDup (snd <$> map_to_list (jobs st)).
Proof.
  intros Hs. apply NoDup_fmap_2_strong; [|apply NoDup_map_to_list].
  intros [i r] [i' r'] Hin Hin' Heq. simpl in Heq. subst r'.
  apply elem_of_map_to_list in Hin, Hin'.
  destruct (so_jobs _ _ _ (sh_store _ Hs) _ _ Hin) as (j & Hj & Hid).
  destruct (so_jobs _ _ _ (sh_store _ Hs) _ _ Hin') as (j' & Hj' & Hid').
  rewrite Hj in Hj'. injection Hj' as <-. congruence.
Qed.

Lemma at_most_one (l : list nat) :
  NoDup l -> (forall x y, x ∈ l -> y ∈ l -> x = y) -> (length l <= 1)%nat.
Proof.
  intros Hnd Heq. destruct l as [|a [|b l]]; simpl; try lia.
  apply NoDup_cons in Hnd as [Hnotin _].
  destruct Hnotin. rewrite (Heq a b); [by left|by left|by right; left].
Qed.

(** The worker prints one job at a time: in every reachable state a
    job is marked [printing] exactly when it is the one the drain loop
    is working on, so the metrics never report more than one job as
    printing, and [processing] is set exactly while there is such a
    job.  An [enqueue] that arrives meanwhile only appends to the
    queue; it does not start a second loop. *)
Theorem one_job_at_a_time (opts : PrinterQueueOptions) (pf : Platform)
    (st : State) :
  reachable opts pf st ->
  (forall r j, heap st !! r = Some j ->
     (status j = Printing <-> current st = Some r)) /\
  (printing (getMetrics st) <= 1)%nat /\
  (processing st = true <-> current st <> None) /\
  (forall job newid now,
     processing st = true ->
     let st' := enqueue opts job newid now st in
     phase st' = phase st /\ queue st' = queue st ++ [length (heap st)] /\
     trace st' = trace st).
Proof.
  intros Hr. pose proof (reachable_shape _ _ _ _ Hr) as Hs.
  split; [|split; [|split]].
  - intros r j Hj. split; [by apply (sh_printing _ Hs)|].
    intros Hc. destruct (sh_current _ Hs r Hc) as (j' & Hj' & Hst).
    rewrite Hj in Hj'. by injection Hj' as <-.
  - unfold getMetrics. simpl. apply at_most_one.
    + apply NoDup_ListNoDup, List.NoDup_filter, NoDup_ListNoDup.
      by apply values_nodup.
    + intros x y Hx Hy.
      apply list_elem_of_In, filter_In in Hx as [_ Hx].
      apply list_elem_of_In, filter_In in Hy as [_ Hy].
      apply status_is_spec in Hx as (jx & Hjx & Hsx).
      apply status_is_spec in Hy as (jy & Hjy & Hsy).
      pose proof (sh_printing _ Hs x jx Hjx Hsx).
      pose proof (sh_printing _ Hs y jy Hjy Hsy). congruence.
  - split.
    + intros Hp Hc. destruct (sh_idle _ Hs Hc). congruence.
    + intros Hc. destruct (current st) as [r|] eqn:Hcur; [|done].
      by apply (sh_busy _ Hs r).
  - intros job newid now Hp. unfold enqueue, tick. simpl. by rewrite Hp.
Qed.

Lemma one_job_at_a_time_witness :
  (printing (getMetrics busy_queue) <= 1)%nat /\
  (processing busy_queue = true <-> current busy_queue <> None).
Proof.
  assert (reachable (retry_options 2) Posix busy_queue) as Hr.
  { apply (PrinterSpec.print_run_reachable (retry_options 2) Posix
             [ Enqueue photo_job "print-1" 0; Enqueue strip_job "print-2" 1;
               Enqueue photo_job "print-3" 2; AccessDone true ] init);
      [apply reach_init|reflexivity]. }
  destruct (one_job_at_a_time (retry_options 2) Posix busy_queue Hr)
    as (_ & Hm & Hp & _).
  split; [exact Hm|exact Hp].
Defined.

(** No job is lost or duplicated: the queue holds exactly the jobs
    marked [queued], each once; and once the worker has stopped, the
    queue is empty and every job ever submitted has ended as
    [completed] or [error]. *)
Theorem no_job_is_lost (opts : PrinterQueueOptions) (pf : Platform)
    (st : State) :
  reachable opts pf st ->
  NoDup (queue st) /\
  (forall r j, heap st !! r = Some j -> (status j = Queued <-> r ∈ queue st)) /\
  (forall r, r ∈ queue st -> is_Some (heap st !! r)) /\
  (phase st = Idle ->
   queue st = [] /\ processing st = false /\
   forall r j, heap st !! r = Some j ->
     status j = Completed \/ status j = Error).
Proof.
  intros Hr. pose proof (reachable_shape _ _ _ _ Hr) as Hs.
  pose proof (sh_store _ Hs) as Hst.
  split; [apply Hst|]. split; [|split].
  - intros r j Hj. split; [by apply (so_waiting _ _ _ Hst)|].
    intros Hin. destruct (so_queued _ _ _ Hst r Hin) as (j' & Hj' & Hq).
    rewrite Hj in Hj'. by injection Hj' as <-.
  - intros r Hin. destruct (so_queued _ _ _ Hst r Hin) as (j & Hj & _). eauto.
  - intros Hph. assert (current st = None) as Hc by (unfold current; by rewrite Hph).
    destruct (sh_idle _ Hs Hc) as [Hq Hp]. split; [done|]. split; [done|].
    intros r j Hj. destruct (status j) eqn:Hsj; auto.
    + pose proof (so_waiting _ _ _ Hst r j Hj Hsj) as Hin.
      rewrite Hq in Hin. by apply elem_of_nil in Hin.
    + pose proof (sh_printing _ Hs r j Hj Hsj). congruence.
Qed.

Lemma no_job_is_lost_witness :
  NoDup (queue busy_queue) /\
  (forall r j, heap busy_queue !! r = Some j ->
     (status j = Queued <-> r ∈ queue busy_queue)).
Proof.
  assert (reachable (retry_options 2) Posix busy_queue) as Hr.
  { apply (PrinterSpec.print_run_reachable (retry_options 2) Posix
             [ Enqueue photo_job "print-1" 0; Enqueue strip_job "print-2" 1;
               Enqueue photo_job "print-3" 2; AccessDone true ] init);
      [apply reach_init|reflexivity]. }
  destruct (no_job_is_lost (retry_options 2) Posix busy_queue Hr)
    as (Hnd & Hq & _).
  split; [exact Hnd|exact Hq].
Defined.

Lemma enqueue_record opts job newid now st :
  shape_ok st ->
  getStatus newid (enqueue opts job newid now st)
  = Some {| js_filePath := filePath job; js_format := format job;
            js_copies := match copies job with
                         | Some c => c
                         | None => defaultCopies opts
                         end;
            js_printer := match printer job with
                          | Some p => Some p
                          | None => head (targetPrinters opts)
                          end;
            id := newid;
            status := if processing st then Queued else Printing;
            createdAt := now; attempts := 0; error := None |}.
Proof.
  intros Hs. unfold enqueue, tick. simpl. destruct (processing st) eqn:Hp.
  - unfold getStatus. simpl. rewrite lookup_insert_eq.
    by rewrite list_lookup_middle.
  - assert (current st = None) as Hc.
    { destruct (current st) as [r|] eqn:Hc; [|done].
      pose proof (sh_busy _ Hs r Hc). congruence. }
    destruct (sh_idle _ Hs Hc) as [Hq _]. rewrite Hq. simpl.
    unfold drain, processJob, getStatus. simpl. rewrite lookup_insert_eq.
    by erewrite PrinterSpec.lookup_update_eq by (by apply list_lookup_middle).
Qed.

(** What [enqueue] stores is what [getStatus] gives back: the job as
    submitted, its copies and printer filled in from the options when
    absent, with the id handed out, no attempts and no error; it is
    already [printing] when the worker was idle and [queued] otherwise.
    The records of the other ids are untouched, and the record found
    under an id always carries that id. *)
Theorem status_after_enqueue (opts : PrinterQueueOptions) (pf : Platform)
    (st : State) (job : PrintJob) (newid : string) (now : Z) :
  reachable opts pf st ->
  let st' := enqueue opts job newid now st in
  (exists j, getStatus newid st' = Some j /\
     js_filePath j = filePath job /\ js_format j = format job /\
     js_copies j = match copies job with
                   | Some c => c
                   | None => defaultCopies opts
                   end /\
     js_printer j = match printer job with
                    | Some p => Some p
                    | None => head (targetPrinters opts)
                    end /\
     id j = newid /\ createdAt j = now /\ attempts j = 0 /\ error j = None /\
     status j = (if processing st then Queued else Printing)) /\
  (forall i, i <> newid -> getStatus i st' = getStatus i st) /\
  (forall i j, getStatus i st = Some j -> id j = i).
Proof.
  intros Hr st'. pose proof (reachable_shape _ _ _ _ Hr) as Hs.
  assert (forall i r, jobs st !! i = Some r -> (r < length (heap st))%nat) as Hlt.
  { intros i r Hi. destruct (so_jobs _ _ _ (sh_store _ Hs) _ _ Hi) as (j & Hj & _).
    by apply lookup_lt_Some in Hj. }
  split; [|split].
  - subst st'. rewrite (enqueue_record opts job newid now st Hs).
    eexists. split; [reflexivity|]. simpl. by repeat split.
  - intros i Hne. subst st'. unfold enqueue, tick. simpl.
    destruct (processing st) eqn:Hp.
    + unfold getStatus. simpl. rewrite lookup_insert_ne by done.
      destruct (jobs st !! i) as [r|] eqn:Hi; [|done].
      apply lookup_app_l. by apply (Hlt i).
    + assert (current st = None) as Hc.
      { destruct (current st) as [r|] eqn:Hc; [|done].
        pose proof (sh_busy _ Hs r Hc). congruence. }
      destruct (sh_idle _ Hs Hc) as [Hq _]. rewrite Hq. simpl.
      unfold drain, processJob, getStatus. simpl.
      rewrite lookup_insert_ne by done.
      destruct (jobs st !! i) as [r|] eqn:Hi; [|done].
      pose proof (Hlt i r Hi) as Hr'.
      rewrite PrinterSpec.lookup_update_ne by lia.
      by apply lookup_app_l.
  - intros i j. unfold getStatus.
    destruct (jobs st !! i) as [r|] eqn:Hi; [|done]. intros Hj.
    destruct (so_jobs _ _ _ (sh_store _ Hs) _ _ Hi) as (j' & Hj' & Hid).
    rewrite Hj in Hj'. by injection Hj' as <-.
Qed.

Lemma status_after_enqueue_witness :
  exists j,
    getStatus "print-2"
      (enqueue (retry_options 2) strip_job "print-2" 7
         (enqueue (retry_options 2) photo_job "print-1" 0 init)) = Some j /\
    js_filePath j = "strip-2.jpg"%string /\ js_format j = F2x6 /\
    js_copies j = 1 /\ js_printer j = Some "HiTi P525L"%string /\
    id j = "print-2"%string /\ createdAt j = 7 /\ attempts j = 0 /\
    error j = None /\ status j = Queued.
Proof.
  refine (proj1 (status_after_enqueue (retry_options 2) Posix
                   (enqueue (retry_options 2) photo_job "print-1" 0 init)
                   strip_job "print-2" 7 _)).
  apply (reach_step _ _ _ init (Enqueue photo_job "print-1" 0));
    [apply reach_init|done|reflexivity].
Defined.

Lemma drain_settled st r j :
  heap st !! r = Some j -> r ∉ queue st ->
  heap (drain st) !! r = Some j /\
  printings r (drain st) = printings r st /\
  spawns r (drain st) = spawns r st.
Proof.
  intros Hj Hnotin. unfold drain. destruct (queue st) as [|r0 rest]; [done|].
  assert (r0 <> r) as Hne.
  { intros ->. apply Hnotin. by left. }
  assert ((r0 =? r)%nat = false) as Hneb by (by apply Nat.eqb_neq).
  split; [|split]; simpl.
  - by rewrite PrinterSpec.lookup_update_ne.
  - unfold printings. simpl. rewrite PrinterSpec.count_app. simpl.
    rewrite Hneb. lia.
  - unfold spawns. simpl. rewrite PrinterSpec.count_app. simpl. lia.
Qed.

Lemma finish_settled st r j r0 f q' t :
  heap st !! r = Some j -> r0 <> r -> r ∉ q' ->
  is_printing_of r t = false -> is_spawn_of r t = false ->
  let st' := drain {| heap := update r0 f (heap st); queue := q';
                      jobs := jobs st; processing := processing st;
                      phase := Idle; trace := trace st ++ [t] |} in
  heap st' !! r = Some j /\ printings r st' = printings r st /\
  spawns r st' = spawns r st.
Proof.
  intros Hj Hne Hnotin Hp Hsp st'.
  destruct (drain_settled
              {| heap := update r0 f (heap st); queue := q'; jobs := jobs st;
                 processing := processing st; phase := Idle;
                 trace := trace st ++ [t] |} r j) as (Hh & Hpr & Hs); simpl.
  - by rewrite PrinterSpec.lookup_update_ne.
  - done.
  - subst st'. split; [done|]. rewrite Hpr, Hs.
    unfold printings, spawns. simpl. rewrite !PrinterSpec.count_app. simpl.
    rewrite Hp, Hsp. lia.
Qed.

Lemma step_settled_trace opts pf st e st' r j :
  shape_ok st -> heap st !! r = Some j ->
  status j = Completed \/ status j = Error ->
  step opts pf st e = Some st' ->
  heap st' !! r = Some j /\ printings r st' = printings r st /\
  spawns r st' = spawns r st.
Proof.
  intros Hs Hj Hfin Hstep.
  assert (r ∉ queue st) as Hnotin.
  { intros Hin. destruct (so_queued _ _ _ (sh_store _ Hs) r Hin) as (j' & Hj' & Hq).
    rewrite Hj in Hj'. injection Hj' as <-. destruct Hfin; congruence. }
  assert (current st <> Some r) as Hnc.
  { intros Hc. destruct (sh_current _ Hs r Hc) as (j' & Hj' & Hq).
    rewrite Hj in Hj'. injection Hj' as <-. destruct Hfin; congruence. }
  pose proof (lookup_lt_Some _ _ _ Hj) as Hlt.
  destruct e as [job newid now|ok|ev]; simpl in Hstep.
  - injection Hstep as <-. unfold enqueue, tick. simpl.
    destruct (processing st) eqn:Hp.
    + simpl. split; [|done]. by rewrite lookup_app_l.
    + match goal with
      | |- context [ drain ?s ] =>
          destruct (drain_settled s r j) as (Hh & Hpr & Hsp)
      end; simpl.
      * by rewrite lookup_app_l.
      * assert (current st = None) as Hc.
        { destruct (current st) as [r'|] eqn:Hc; [|done].
          pose proof (sh_busy _ Hs r' Hc). congruence. }
        destruct (sh_idle _ Hs Hc) as [Hq _]. rewrite Hq. simpl.
        intros Hin. apply list_elem_of_singleton in Hin. lia.
      * done.
  - unfold processJob_access in Hstep.
    destruct (phase st) as [|r0|r0] eqn:Hph; try discriminate.
    destruct (heap st !! r0) as [j0|] eqn:Hj0; [|discriminate].
    assert (r0 <> r) as Hne.
    { intros ->. apply Hnc. unfold current. by rewrite Hph. }
    assert ((r0 =? r)%nat = false) as Hneb by (by apply Nat.eqb_neq).
    destruct ok; injection Hstep as <-.
    + simpl. split; [done|]. unfold printings, spawns. simpl.
      rewrite !PrinterSpec.count_app. simpl. rewrite Hneb. lia.
    + by apply finish_settled.
  - unfold processJob_dispatch in Hstep.
    destruct (phase st) as [|r0|r0] eqn:Hph; try discriminate.
    destruct (heap st !! r0) as [j0|] eqn:Hj0; [|discriminate].
    assert (r0 <> r) as Hne.
    { intros ->. apply Hnc. unfold current. by rewrite Hph. }
    destruct (spawnCommand (dispatch pf j0) ev) as [[]|msg].
    + injection Hstep as <-. by apply finish_settled.
    + simpl in Hstep.
      destruct (attempts j0 + 1 <=? queueRetries opts);
        injection Hstep as <-; apply finish_settled; try done.
      intros Hin. apply elem_of_app in Hin as [Hin|Hin]; [done|].
      by apply list_elem_of_singleton in Hin.
Qed.

(** A job that has ended is never touched again: once [completed] or
    [error], its record stays as it is through every later event, it
    is never queued or taken up by the worker again, and no further
    print command is dispatched for it. *)
Theorem settled_jobs_stay_settled (opts : PrinterQueueOptions) (pf : Platform)
    (es : list Event) :
  forall (st st' : State) (r : nat) (j : PrintJobState),
  reachable opts pf st -> heap st !! r = Some j ->
  status j = Completed \/ status j = Error ->
  run opts pf st es = Some st' ->
  heap st' !! r = Some j /\ (r ∉ queue st') /\ current st' <> Some r /\
  printings r st' = printings r st /\ spawns r st' = spawns r st.
Proof.
  induction es as [|e es IH]; intros st st' r j Hr Hj Hfin Hrun; simpl in Hrun.
  - injection Hrun as <-. pose proof (reachable_shape _ _ _ _ Hr) as Hs.
    split; [done|]. split; [|split; [|done]].
    + intros Hin.
      destruct (so_queued _ _ _ (sh_store _ Hs) r Hin) as (j' & Hj' & Hq).
      rewrite Hj in Hj'. injection Hj' as <-. destruct Hfin; congruence.
    + intros Hc. destruct (sh_current _ Hs r Hc) as (j' & Hj' & Hq).
      rewrite Hj in Hj'. injection Hj' as <-. destruct Hfin; congruence.
  - destruct (step opts pf st e) as [mid|] eqn:Hstep; [|discriminate].
    pose proof (reachable_shape _ _ _ _ Hr) as Hs.
    destruct (step_settled_trace opts pf st e mid r j Hs Hj Hfin Hstep)
      as (Hj' & Hp & Hsp).
    assert (reachable opts pf mid) as Hr'.
    { by apply (reach_step _ _ _ st e). }
    destruct (IH mid st' r j Hr' Hj' Hfin Hrun) as (H1 & H2 & H3 & H4 & H5).
    repeat split; try done; congruence.
Qed.

Lemma settled_jobs_stay_settled_witness :
  match run (retry_options 2) Posix printed_once
          [Enqueue strip_job "print-2" 1; AccessDone false] with
  | Some st' =>
      heap st' !! 0%nat = heap printed_once !! 0%nat /\
      spawns 0 st' = spawns 0 printed_once
  | None => False
  end.
Proof.
  destruct (run (retry_options 2) Posix printed_once
              [Enqueue strip_job "print-2" 1; AccessDone false])
    as [st'|] eqn:Hrun; [|discriminate Hrun].
  destruct (settled_jobs_stay_settled (retry_options 2) Posix
              [Enqueue strip_job "print-2" 1; AccessDone false]
              printed_once st' 0%nat
              {| js_filePath := "strip.jpg"; js_format := F4x6; js_copies := 3;
                 js_printer := None; id := "print-1"; status := Completed;
                 createdAt := 0; attempts := 0; error := None |})
    as (H1 & _ & _ & _ & H5).
  - apply (PrinterSpec.print_run_reachable (retry_options 2) Posix
             [ Enqueue photo_job "print-1" 0; AccessDone true;
               SpawnDone (ChildExit (Some 0)) ] init);
      [apply reach_init|reflexivity].
  - reflexivity.
  - by left.
  - exact Hrun.
  - split; [rewrite H1; reflexivity|exact H5].
Defined.

(** A failed job with retries left goes to the back of the queue: it
    is marked [queued] again, with one more attempt and the error of
    the failure, behind every job that was already waiting, and the
    worker takes the job at the head next (the failed job itself when
    nothing else was waiting). *)
Theorem failed_job_goes_to_the_back (opts : PrinterQueueOptions)
    (pf : Platform) (st : State) (r : nat) (j : PrintJobState)
    (ev : ChildEvent) (msg : string) :
  reachable opts pf st ->
  phase st = AwaitSpawn r -> heap st !! r = Some j ->
  spawnCommand (dispatch pf j) ev = Err msg ->
  attempts j + 1 <= queueRetries opts ->
  exists st',
    step opts pf st (SpawnDone ev) = Some st' /\
    current st' = head (queue st ++ [r]) /\
    queue st' = tail (queue st ++ [r]) /\
    (r ∉ queue st) /\
    exists j',
      heap st' !! r = Some j' /\ attempts j' = attempts j + 1 /\
      error j' = Some msg /\
      status j' = match queue st with [] => Printing | _ => Queued end.
Proof.
  intros Hr Hph Hj Hspawn Hle.
  pose proof (reachable_shape _ _ _ _ Hr) as Hs.
  assert (current st = Some r) as Hc by (unfold current; by rewrite Hph).
  assert (r ∉ queue st) as Hnotin.
  { intros Hin. destruct (so_queued _ _ _ (sh_store _ Hs) r Hin) as (j' & Hj' & Hq).
    destruct (sh_current _ Hs r Hc) as (j'' & Hj'' & Hp). congruence. }
  eexists. split.
  { simpl. unfold processJob_dispatch. rewrite Hph, Hj, Hspawn. simpl.
    apply Z.leb_le in Hle. rewrite Hle. reflexivity. }
  unfold drain. simpl. destruct (queue st) as [|nxt rest] eqn:Hq; simpl.
  - repeat split; try done.
    eexists. split.
    { apply PrinterSpec.lookup_update_eq.
      by apply PrinterSpec.lookup_update_eq. }
    done.
  - repeat split; try done.
    assert (nxt <> r) as Hne.
    { intros ->. apply Hnotin. by left. }
    eexists. split.
    { rewrite PrinterSpec.lookup_update_ne by done.
      by apply PrinterSpec.lookup_update_eq. }
    done.
Qed.

Lemma failed_job_goes_to_the_back_witness :
  exists st',
    step (retry_options 2) Posix busy_queue (SpawnDone (ChildExit (Some 1)))
    = Some st' /\
    current st' = Some 1%nat /\ queue st' = [2%nat; 0%nat].
Proof.
  destruct (failed_job_goes_to_the_back (retry_options 2) Posix busy_queue 0%nat
              {| js_filePath := "strip.jpg"; js_format := F4x6; js_copies := 3;
                 js_printer := None; id := "print-1"; status := Printing;
                 createdAt := 0; attempts := 0; error := None |}
              (ChildExit (Some 1)) "lp exited with code 1")
    as (st' & Hstep & Hc & Hq & _); try reflexivity.
  - apply (PrinterSpec.print_run_reachable (retry_options 2) Posix
             [ Enqueue photo_job "print-1" 0; Enqueue strip_job "print-2" 1;
               Enqueue photo_job "print-3" 2; AccessDone true ] init);
      [apply reach_init|reflexivity].
  - simpl. lia.
  - exists st'. split; [exact Hstep|]. split; [exact Hc|exact Hq].
Defined.

(** ** The metrics *)

Lemma drain_store st :
  jobs (drain st) = jobs st /\ length (heap (drain st)) = length (heap st).
Proof.
  unfold drain. destruct (queue st) as [|r rest]; simpl; [done|].
  split; [done|apply update_length].
Qed.

Lemma step_indexed opts pf st e st' :
  indexed st -> fresh_ids st e -> step opts pf st e = Some st' -> indexed st'.
Proof.
  unfold indexed. intros Hi Hfresh Hstep.
  destruct e as [job newid now|ok|ev]; simpl in Hstep.
  - injection Hstep as <-. simpl in Hfresh.
    assert (jobs (enqueue opts job newid now st)
            = <[newid := length (heap st)]> (jobs st) /\
            length (heap (enqueue opts job newid now st)) = S (length (heap st)))
      as [-> ->].
    { unfold enqueue, tick. simpl. destruct (processing st); simpl.
      - split; [done|]. by rewrite last_length.
      - match goal with
        | |- context [ drain ?s ] => destruct (drain_store s) as [-> ->]
        end. simpl. split; [done|]. by rewrite last_length. }
    rewrite seq_S. rewrite (map_to_list_insert _ _ _ Hfresh), fmap_cons.
    rewrite Hi. simpl. apply Permutation_cons_append.
  - unfold processJob_access in Hstep.
    destruct (phase st) as [|r|r]; try discriminate.
    destruct (heap st !! r) as [j|]; [|discriminate].
    destruct ok; injection Hstep as <-; [done|].
    match goal with
    | |- context [ drain ?s ] => destruct (drain_store s) as [-> ->]
    end. simpl. by rewrite update_length.
  - unfold processJob_dispatch in Hstep.
    destruct (phase st) as [|r|r]; try discriminate.
    destruct (heap st !! r) as [j|]; [|discriminate].
    destruct (spawnCommand (dispatch pf j) ev) as [[]|msg];
      [|simpl in Hstep; destruct (attempts j + 1 <=? queueRetries opts)];
      injection Hstep as <-;
      match goal with
      | |- context [ drain ?s ] => destruct (drain_store s) as [-> ->]
      end; simpl; by rewrite update_length.
Qed.

Lemma reachable_indexed opts pf st :
  reachable_under opts pf fresh_ids st -> indexed st.
Proof.
  induction 1 as [|st e st' _ IH Hfresh Hstep].
  - unfold indexed. simpl. by rewrite map_to_list_empty.
  - by apply (step_indexed opts pf st e).
Qed.

Lemma filter_perm (f : nat -> bool) (l k : list nat) :
  l ≡ₚ k -> List.filter f l ≡ₚ List.filter f k.
Proof.
  induction 1 as [|x l k _ IH|x y l|l k m _ IH1 _ IH2]; simpl.
  - done.
  - destruct (f x); [by constructor|done].
  - destruct (f x), (f y); try done. apply perm_swap.
  - by etrans.
Qed.

Lemma partition_four (f1 f2 f3 f4 : nat -> bool) (l : list nat) :
  (forall x, x ∈ l ->
     (Nat.b2n (f1 x) + Nat.b2n (f2 x) + Nat.b2n (f3 x) + Nat.b2n (f4 x) = 1)%nat) ->
  (length (List.filter f1 l) + length (List.filter f2 l)
   + length (List.filter f3 l) + length (List.filter f4 l) = length l)%nat.
Proof.
  induction l as [|x l IH]; intros H; simpl; [done|].
  pose proof (H x ltac:(by left)) as Hx.
  assert (forall y, y ∈ l ->
            (Nat.b2n (f1 y) + Nat.b2n (f2 y) + Nat.b2n (f3 y)
             + Nat.b2n (f4 y) = 1)%nat) as Hl.
  { intros y Hy. apply H. by right. }
  specialize (IH Hl).
  destruct (f1 x), (f2 x), (f3 x), (f4 x); simpl in *; lia.
Qed.

(** With ids that are never reused, the metrics add up: every job ever
    submitted is counted in [totalJobs], and it is counted in exactly
    one of [queued], [printing], [errors] or the completed jobs.  In
    particular [queued], the length of the queue, is the number of
    jobs marked [queued]. *)
Theorem metrics_partition (opts : PrinterQueueOptions) (pf : Platform)
    (st : State) :
  reachable_under opts pf fresh_ids st ->
  let m := getMetrics st in
  totalJobs m = length (heap st) /\
  queued m
  = length (List.filter (status_is Queued st) (snd <$> map_to_list (jobs st))) /\
  (queued m + printing m + errors m + completed_jobs st = totalJobs m)%nat.
Proof.
  intros Hr m. pose proof (reachable_indexed _ _ _ Hr) as Hi.
  pose proof (reachable_shape _ _ _ _ Hr) as Hs.
  pose proof (sh_store _ Hs) as Hst. unfold indexed in Hi.
  assert (totalJobs m = length (heap st)) as Htotal.
  { subst m. unfold getMetrics. simpl.
    rewrite <- length_map_to_list.
    rewrite <- (length_fmap snd (map_to_list (jobs st))).
    rewrite (Permutation_length Hi). apply length_seq. }
  assert (queue st ≡ₚ List.filter (status_is Queued st) (seq 0 (length (heap st))))
    as Hq.
  { apply NoDup_Permutation.
    - apply Hst.
    - apply NoDup_ListNoDup, List.NoDup_filter, NoDup_ListNoDup, NoDup_seq.
    - intros r. split.
      + intros Hin. destruct (so_queued _ _ _ Hst r Hin) as (j & Hj & Hsj).
        apply list_elem_of_In, filter_In. split.
        * apply list_elem_of_In, elem_of_seq. apply lookup_lt_Some in Hj. lia.
        * apply status_is_spec. eauto.
      + intros Hin. apply list_elem_of_In, filter_In in Hin as [_ Hin].
        apply status_is_spec in Hin as (j & Hj & Hsj).
        by apply (so_waiting _ _ _ Hst r j). }
  assert (queued m
          = length (List.filter (status_is Queued st)
                      (snd <$> map_to_list (jobs st)))) as Hqueued.
  { subst m. unfold getMetrics. simpl.
    rewrite (Permutation_length Hq).
    apply Permutation_length. symmetry. by apply filter_perm. }
  split; [exact Htotal|]. split; [exact Hqueued|].
  rewrite Htotal, Hqueued. subst m. unfold getMetrics, completed_jobs. simpl.
  rewrite !(Permutation_length (filter_perm _ _ _ Hi)).
  transitivity (length (seq 0 (length (heap st)))); [|apply length_seq].
  apply partition_four. intros r Hin. apply elem_of_seq in Hin.
  destruct (lookup_lt_is_Some_2 (heap st) r) as [j Hj]; [lia|].
  unfold status_is. rewrite Hj. by destruct (status j).
Qed.

Lemma metrics_partition_witness :
  let st := enqueue (retry_options 2) strip_job "print-2" 1
              (enqueue (retry_options 2) photo_job "print-1" 0 init) in
  totalJobs (getMetrics st) = 2%nat /\
  (queued (getMetrics st) + printing (getMetrics st) + errors (getMetrics st)
   + completed_jobs st = totalJobs (getMetrics st))%nat.
Proof.
  intros st.
  destruct (metrics_partition (retry_options 2) Posix st) as (Ht & _ & Hsum).
  - apply (reach_step _ _ _
             (enqueue (retry_options 2) photo_job "print-1" 0 init)
             (Enqueue strip_job "print-2" 1)).
    + apply (reach_step _ _ _ init (Enqueue photo_job "print-1" 0));
        [apply reach_init|reflexivity|reflexivity].
    + reflexivity.
    + reflexivity.
  - split; [exact Ht|exact Hsum].
Defined.

(** ** Quoting for PowerShell *)

(** Doubling the single quotes loses nothing: two different texts
    never escape to the same text; the escaped text is longer by one
    character per quote and holds twice the quotes, and a text without
    quotes is left as it is. *)
Theorem escape_quotes_faithful :
  (forall s1 s2, escape_quotes s1 = escape_quotes s2 -> s1 = s2) /\
  (forall s, String.length (escape_quotes s) = (String.length s + quotes s)%nat) /\
  (forall s, quotes (escape_quotes s) = (2 * quotes s)%nat) /\
  (forall s, quotes s = O -> escape_quotes s = s).
Proof.
  split; [|split; [|split]].
  - induction s1 as [|c1 r1 IH]; intros [|c2 r2]; simpl.
    + done.
    + by destruct (Ascii.eqb c2 "'").
    + by destruct (Ascii.eqb c1 "'").
    + destruct (Ascii.eqb c1 "'") eqn:H1, (Ascii.eqb c2 "'") eqn:H2.
      * intros [= -> Heq]. f_equal. by apply IH.
      * intros [= -> Heq]. congruence.
      * intros [= -> Heq]. congruence.
      * intros [= -> Heq]. f_equal. by apply IH.
  - induction s as [|c r IH]; simpl; [done|].
    destruct (Ascii.eqb c "'"); simpl; rewrite IH; lia.
  - induction s as [|c r IH]; simpl; [done|].
    destruct (Ascii.eqb c "'") eqn:Hc; simpl; rewrite ?Hc; rewrite IH; lia.
  - induction s as [|c r IH]; simpl; [done|].
    destruct (Ascii.eqb c "'"); [done|]. intros H. by rewrite IH.
Qed.

(** ** The order of service *)

Lemma filter_all (f : nat -> bool) (l : list nat) :
  (forall x, x ∈ l -> f x = true) -> List.filter f l = l.
Proof.
  induction l as [|x l IH]; intros H; simpl; [done|].
  rewrite (H x) by (by left). f_equal. apply IH. intros y Hy. apply H. by right.
Qed.

Lemma filter_narrow (f g : nat -> bool) (l : list nat) :
  (forall x, f x = true -> g x = true) ->
  List.filter f (List.filter g l) = List.filter f l.
Proof.
  intros H. induction l as [|x l IH]; simpl; [done|].
  destruct (g x) eqn:Hg; simpl.
  - by rewrite IH.
  - destruct (f x) eqn:Hf; [|done]. rewrite (H x Hf) in Hg. discriminate.
Qed.

Lemma drain_order st k :
  (k <= length (heap st))%nat ->
  (forall r, (r < k)%nat <-> (0 < printings r st)%nat) ->
  List.filter (fun r => (k <=? r)%nat) (queue st)
  = seq k (length (heap st) - k) ->
  exists k', order_ok (drain st) k'.
Proof.
  intros Hk Ht Hf. unfold drain. destruct (queue st) as [|r rest] eqn:Hq.
  - exists k. split; simpl; done.
  - simpl in Hf. destruct (k <=? r)%nat eqn:Hkr.
    + apply Nat.leb_le in Hkr.
      destruct (length (heap st) - k)%nat as [|m] eqn:Hm; [discriminate|].
      simpl in Hf. injection Hf as Hr Hrest. subst r.
      exists (S k). split; simpl.
      * rewrite update_length. lia.
      * intros r. unfold printings. simpl. rewrite PrinterSpec.count_app.
        simpl. fold (printings r st). specialize (Ht r).
        destruct (Nat.eqb_spec k r) as [->|Hne]; lia.
      * rewrite update_length. replace (length (heap st) - S k)%nat with m by lia.
        rewrite <- (filter_narrow _ (fun r => (k <=? r)%nat)).
        -- rewrite Hrest. apply filter_all. intros x Hx.
           apply elem_of_seq in Hx. destruct x as [|x']; [lia|].
           change ((k <=? x')%nat = true). apply Nat.leb_le. lia.
        -- intros x Hx. destruct x as [|x']; [discriminate|].
           change ((k <=? x')%nat = true) in Hx.
           apply Nat.leb_le in Hx. apply Nat.leb_le. lia.
      * intros r [= <-]. unfold printings. simpl.
        rewrite PrinterSpec.count_app. simpl. rewrite Nat.eqb_refl. lia.
    + apply Nat.leb_gt in Hkr. exists k. split; simpl.
      * by rewrite update_length.
      * intros r'. unfold printings. simpl. rewrite PrinterSpec.count_app.
        simpl. fold (printings r' st). specialize (Ht r').
        destruct (Nat.eqb_spec r r') as [->|Hne]; lia.
      * by rewrite update_length.
      * intros r' [= <-]. unfold printings. simpl.
        rewrite PrinterSpec.count_app. simpl. rewrite Nat.eqb_refl. lia.
Qed.

Lemma finish_order st k r f q' t :
  order_ok st k -> current st = Some r ->
  (forall r', is_printing_of r' t = false) ->
  q' = queue st \/ q' = queue st ++ [r] ->
  exists k',
    order_ok (drain {| heap := update r f (heap st); queue := q';
                       jobs := jobs st; processing := processing st;
                       phase := Idle; trace := trace st ++ [t] |}) k'.
Proof.
  intros Ho Hc Ht Hq. apply (drain_order _ k); simpl.
  - rewrite update_length. apply Ho.
  - intros r'. unfold printings. simpl. rewrite PrinterSpec.count_app. simpl.
    rewrite Ht. fold (printings r' st). rewrite Nat.add_0_r.
    apply (or_taken _ _ Ho).
  - rewrite update_length. destruct Hq as [->| ->]; [apply Ho|].
    rewrite List.filter_app. simpl.
    assert (r < k)%nat as Hlt.
    { apply (or_taken _ _ Ho). by apply (or_current _ _ Ho). }
    apply Nat.leb_gt in Hlt. rewrite Hlt, app_nil_r. apply Ho.
Qed.

Lemma step_order opts pf st e st' k :
  shape_ok st -> order_ok st k -> step opts pf st e = Some st' ->
  exists k', order_ok st' k'.
Proof.
  intros Hs Ho Hstep. destruct e as [job newid now|ok|ev]; simpl in Hstep.
  - injection Hstep as <-. unfold enqueue, tick. simpl.
    assert (List.filter (fun r => (k <=? r)%nat) (queue st ++ [length (heap st)])
            = seq k (S (length (heap st)) - k)) as Hf.
    { rewrite List.filter_app. simpl. pose proof (or_bound _ _ Ho) as Hk.
      apply Nat.leb_le in Hk as Hkb. rewrite Hkb.
      rewrite (or_fresh _ _ Ho).
      replace (S (length (heap st)) - k)%nat
        with (S (length (heap st) - k)) by lia.
      rewrite seq_S. do 2 f_equal. lia. }
    destruct (processing st) eqn:Hp.
    + exists k. split; simpl.
      * rewrite last_length. pose proof (or_bound _ _ Ho). lia.
      * apply Ho.
      * by rewrite last_length.
      * apply Ho.
    + apply (drain_order _ k); simpl.
      * rewrite last_length. pose proof (or_bound _ _ Ho). lia.
      * apply Ho.
      * by rewrite last_length.
  - unfold processJob_access in Hstep.
    destruct (phase st) as [|r|r] eqn:Hph; try discriminate.
    destruct (heap st !! r) as [j|] eqn:Hj; [|discriminate].
    assert (current st = Some r) as Hc by (unfold current; by rewrite Hph).
    destruct ok; injection Hstep as <-.
    + exists k. split; simpl; try apply Ho.
      * intros r'. unfold printings. simpl. rewrite PrinterSpec.count_app.
        simpl. fold (printings r' st). rewrite Nat.add_0_r. apply Ho.
      * intros r' [= <-]. unfold printings. simpl.
        rewrite PrinterSpec.count_app. simpl. fold (printings r st).
        rewrite Nat.add_0_r. by apply (or_current _ _ Ho).
    + apply (finish_order st k r); try done. by left.
  - unfold processJob_dispatch in Hstep.
    destruct (phase st) as [|r|r] eqn:Hph; try discriminate.
    destruct (heap st !! r) as [j|] eqn:Hj; [|discriminate].
    assert (current st = Some r) as Hc by (unfold current; by rewrite Hph).
    destruct (spawnCommand (dispatch pf j) ev) as [[]|msg].
    + injection Hstep as <-. apply (finish_order st k r); try done. by left.
    + simpl in Hstep.
      destruct (attempts j + 1 <=? queueRetries opts);
        injection Hstep as <-; apply (finish_order st k r); try done.
      * by right.
      * by left.
Qed.

Lemma reachable_order opts pf env st :
  reachable_under opts pf env st -> exists k, order_ok st k.
Proof.
  induction 1 as [|st e st' Hr [k IH] _ Hstep].
  - exists O. split; simpl; try done. intros r. unfold printings. simpl. lia.
  - apply (step_order opts pf st e st' k); try done.
    by apply (reachable_shape opts pf env).
Qed.

(** Jobs are taken up in the order of their submission: in every
    reachable state, a job that has been taken from the queue has only
    jobs before it that have been taken from the queue as well, the
    jobs never taken yet are exactly the last ones submitted, and
    they wait in the queue in the order of their submission. *)
Theorem jobs_are_taken_in_order (opts : PrinterQueueOptions) (pf : Platform)
    (st : State) :
  reachable opts pf st ->
  (forall r r', (r < r')%nat -> (0 < printings r' st)%nat ->
     (0 < printings r st)%nat) /\
  (exists k,
     (forall r, (r < k)%nat <-> (0 < printings r st)%nat) /\
     List.filter (fun r => (k <=? r)%nat) (queue st)
     = seq k (length (heap st) - k)).
Proof.
  intros Hr. destruct (reachable_order _ _ _ _ Hr) as [k Ho]. split.
  - intros r r' Hlt Hp. apply (or_taken _ _ Ho).
    apply (or_taken _ _ Ho) in Hp. lia.
  - exists k. split; apply Ho.
Qed.

Lemma jobs_are_taken_in_order_witness :
  exists k,
    (forall r, (r < k)%nat <-> (0 < printings r busy_queue)%nat) /\
    List.filter (fun r => (k <=? r)%nat) (queue busy_queue)
    = seq k (length (heap busy_queue) - k).
Proof.
  apply (jobs_are_taken_in_order (retry_options 2) Posix busy_queue).
  apply (PrinterSpec.print_run_reachable (retry_options 2) Posix
           [ Enqueue photo_job "print-1" 0; Enqueue strip_job "print-2" 1;
             Enqueue photo_job "print-3" 2; AccessDone true ] init);
    [apply reach_init|reflexivity].
Defined.

(** ** The print routes *)

(** [POST /print] followed by [GET /print/:id]: a body that the schema
    accepts is queued under the id answered, and asking for that id
    gives the job back with the file and format of the body and a
    number of copies that is the requested one, between 1 and 10, or
    the configured default when none was requested.  A body that the
    schema refuses never reaches the queue, and an id that was never
    handed out is answered with the not-found error. *)
Theorem print_route_round_trip (opts : PrinterQueueOptions) (pf : Platform)
    (st : State) (body : PrintJob) (newid : string) (now : Z) :
  reachable opts pf st ->
  (Routes.printSchema body = true ->
   exists st' j,
     Routes.post_print opts body newid now st = Some (st', newid) /\
     Routes.get_print newid st' = Ok j /\
     js_filePath j = filePath body /\ js_format j = format body /\
     match copies body with
     | Some c => js_copies j = c /\ 1 <= c <= 10
     | None => js_copies j = defaultCopies opts
     end /\
     attempts j = 0 /\ status j <> Completed /\ status j <> Error) /\
  (Routes.printSchema body = false ->
   Routes.post_print opts body newid now st = None) /\
  (forall i, jobs st !! i = None ->
     Routes.get_print i st = Err "Job not found").
Proof.
  intros Hr. pose proof (reachable_shape _ _ _ _ Hr) as Hs.
  split; [|split].
  - intros Hok. unfold Routes.post_print, Routes.get_print. rewrite Hok.
    do 2 eexists. split; [reflexivity|].
    rewrite (enqueue_record opts body newid now st Hs).
    split; [reflexivity|]. simpl. split; [done|]. split; [done|].
    split; [|split; [done|by destruct (processing st)]].
    unfold Routes.printSchema, Routes.optional in Hok.
    destruct (copies body) as [c|]; [|done].
    apply andb_prop in Hok as [H1 H10].
    apply Z.leb_le in H1, H10. by split.
  - intros Hno. unfold Routes.post_print. by rewrite Hno.
  - intros i Hi. unfold Routes.get_print, getStatus. by rewrite Hi.
Qed.

Lemma print_route_round_trip_witness :
  exists st' j,
    Routes.post_print (retry_options 2) photo_job "print-1" 0 init
    = Some (st', "print-1"%string) /\
    Routes.get_print "print-1" st' = Ok j /\
    js_filePath j = "strip.jpg"%string /\ js_format j = F4x6 /\
    (js_copies j = 3 /\ 1 <= 3 <= 10).
Proof.
  destruct (proj1 (print_route_round_trip (retry_options 2) Posix init
                     photo_job "print-1" 0 (reach_init _ _ _)) eq_refl)
    as (st' & j & H1 & H2 & H3 & H4 & H5 & _).
  exists st', j. repeat split; try done; apply H5.
Defined.

End PrinterMore.

(* ===================================================================== *)
(** * The retry bound and the progress of a failing job *)
(* ===================================================================== *)

Module PrinterProgress.
Import Printer.

Lemma position_app r q l : r ∈ q -> position r (q ++ l) = position r q.
Proof.
  induction q as [|x q IH]; intros Hin; simpl.
  - by apply elem_of_nil in Hin.
  - destruct (Nat.eqb_spec x r) as [->|Hne]; [done|]. f_equal. apply IH.
    apply elem_of_cons in Hin as [Heq|Hin]; [congruence|done].
Qed.

Lemma unsettled_current st r :
  shape_ok st -> unsettled r st ->
  exists c, current st = Some c /\ processing st = true /\
            (c <> r -> r ∈ queue st /\
                       exists j, heap st !! r = Some j /\ status j = Queued).
Proof.
  intros Hs (j & Hj & Hst). destruct (current st) as [c|] eqn:Hc.
  - exists c. split; [done|]. split; [by apply (sh_busy _ Hs c)|].
    intros Hne. destruct Hst as [Hq|Hp].
    + split; [by apply (so_waiting _ _ _ (sh_store _ Hs) r j)|eauto].
    + pose proof (sh_printing _ Hs r j Hj Hp). congruence.
  - exfalso. destruct (sh_idle _ Hs Hc) as [Hq _]. destruct Hst as [Hq'|Hp].
    + pose proof (so_waiting _ _ _ (sh_store _ Hs) r j Hj Hq') as Hin.
      rewrite Hq in Hin. by apply elem_of_nil in Hin.
    + pose proof (sh_printing _ Hs r j Hj Hp). congruence.
Qed.

Lemma drain_turn st r j :
  phase st = Idle -> heap st !! r = Some j -> status j = Queued ->
  r ∈ queue st ->
  (exists j', heap (drain st) !! r = Some j' /\ attempts j' = attempts j /\
              (status j' = Queued \/ status j' = Printing)) /\
  ahead r (drain st) = position r (queue st) /\
  turn_left (drain st) = 2%nat.
Proof.
  intros Hph Hj Hst Hin. unfold drain.
  destruct (queue st) as [|h rest] eqn:Hq; [by apply elem_of_nil in Hin|].
  unfold ahead, turn_left, current. simpl.
  destruct (Nat.eqb_spec h r) as [->|Hne].
  - split; [|done]. exists (set_status Printing j).
    rewrite (PrinterSpec.lookup_update_eq _ _ _ _ Hj).
    split; [done|]. split; [done|by right].
  - split; [|done]. exists j.
    rewrite PrinterSpec.lookup_update_ne by congruence.
    split; [done|]. split; [done|by left].
Qed.

Lemma finish_other opts st r j c f q' tr :
  current st = Some c -> c <> r ->
  heap st !! r = Some j -> status j = Queued -> r ∈ queue st ->
  q' = queue st \/ q' = queue st ++ [c] ->
  let st' := drain {| heap := update c f (heap st); queue := q';
                      jobs := jobs st; processing := processing st;
                      phase := Idle; trace := tr |} in
  unsettled r st' /\ closer opts r st' st.
Proof.
  intros Hc Hne Hj Hst Hin Hq st'.
  destruct (drain_turn
              {| heap := update c f (heap st); queue := q'; jobs := jobs st;
                 processing := processing st; phase := Idle; trace := tr |}
              r j) as ((j' & Hj' & Hat & Hst') & Hahead & _); simpl.
  - done.
  - rewrite PrinterSpec.lookup_update_ne by congruence. exact Hj.
  - exact Hst.
  - destruct Hq as [->| ->]; [done|]. apply elem_of_app. by left.
  - fold st' in Hj', Hahead. simpl in Hahead. split; [by exists j'|].
    right. split.
    + unfold attempts_left. rewrite Hj', Hj. by rewrite Hat.
    + left. rewrite Hahead. unfold ahead. rewrite Hc.
      destruct (Nat.eqb_spec c r) as [?|_]; [done|].
      destruct Hq as [->| ->]; [lia|]. rewrite position_app by done. lia.
Qed.

Lemma step_progress opts pf r st e st' :
  0 <= queueRetries opts ->
  reachable_under opts pf (always_fails_for pf r) st -> unsettled r st ->
  always_fails_for pf r st e -> step opts pf st e = Some st' ->
  if is_worker e then
    (unsettled r st' /\ closer opts r st' st) \/
    (exists j, heap st' !! r = Some j /\ status j = Error /\
               attempts j = queueRetries opts + 1 /\
               Z.of_nat (printings r st') = queueRetries opts + 1)
  else
    unsettled r st' /\
    attempts_left opts r st' = attempts_left opts r st /\
    ahead r st' = ahead r st /\ turn_left st' = turn_left st.
Proof.
  intros HR Hr Hu Henv Hstep.
  pose proof (PrinterMore.reachable_shape _ _ _ _ Hr) as Hs.
  destruct (PrinterSpec.reachable_failing opts pf r st HR Hr) as [Hok Hf].
  destruct (unsettled_current st r Hs Hu) as (c & Hc & Hp & Hother).
  destruct Hu as (j & Hj & Hst).
  assert (reachable_under opts pf (always_fails_for pf r) st') as Hr'.
  { by apply (reach_step _ _ _ st e). }
  destruct e as [job newid now|ok|ev]; simpl in Hstep; simpl.
  - injection Hstep as <-. unfold enqueue, tick. simpl. rewrite Hp.
    pose proof (lookup_lt_Some _ _ _ Hj) as Hlt.
    split; [exists j; split; [by apply lookup_app_l_Some|done]|].
    split; [unfold attempts_left; simpl;
            by rewrite (lookup_app_l_Some _ _ _ _ Hj), Hj|].
    split; [|done].
    unfold ahead, current in *. simpl.
    destruct (phase st) as [|c'|c']; [done| |]; injection Hc as ->;
      (destruct (Nat.eqb_spec c r) as [?|Hne]; [done|]);
      f_equal; apply position_app; by apply Hother.
  - unfold processJob_access in Hstep.
    destruct (phase st) as [|c'|c'] eqn:Hph; try discriminate.
    assert (c' = c) as -> by (unfold current in Hc; rewrite Hph in Hc; congruence).
    destruct (heap st !! c) as [jc|] eqn:Hjc; [|discriminate].
    destruct ok; injection Hstep as <-.
    + left. split; [exists j; by split|]. right. split; [done|]. right.
      split; [unfold ahead, current; simpl; by rewrite Hph|].
      unfold turn_left. simpl. rewrite Hph. lia.
    + assert (c <> r) as Hne.
      { intros ->. destruct Henv as [Ha _]. by apply (Ha Hph). }
      destruct (Hother Hne) as (Hin & jq & Hjq & Hq).
      left. apply (finish_other opts st r jq c); try done. by left.
  - unfold processJob_dispatch in Hstep.
    destruct (phase st) as [|c'|c'] eqn:Hph; try discriminate.
    assert (c' = c) as -> by (unfold current in Hc; rewrite Hph in Hc; congruence).
    destruct (heap st !! c) as [jc|] eqn:Hjc; [|discriminate].
    destruct (decide (c = r)) as [->|Hne].
    + assert (jc = j) as -> by congruence.
      destruct (ok_current _ _ Hok r Hc) as (j0 & Hj0 & Hpr & Hat).
      assert (j0 = j) as -> by congruence.
      pose proof (ok_attempts _ _ (ok_loop _ _ Hok) r j Hj) as Hrange.
      destruct (spawnCommand (dispatch pf j) ev) as [[]|msg] eqn:Hsp.
      { destruct Henv as [_ Hb]. by destruct (Hb Hph ev j eq_refl Hj). }
      simpl in Hstep. destruct (attempts j + 1 <=? queueRetries opts) eqn:Hle;
        injection Hstep as Hst'.
      * apply Z.leb_le in Hle. left.
        match type of Hst' with
        | drain ?mid = _ =>
            destruct (drain_turn mid r
                        (set_status Queued
                           (set_error (Some msg)
                              (set_attempts (attempts j + 1) j))))
              as ((j' & Hj' & Hat' & Hst'') & _ & _); simpl
        end.
        -- done.
        -- exact (PrinterSpec.lookup_update_eq r
                    (fun j => set_status Queued
                                (set_error (Some msg)
                                   (set_attempts (attempts j + 1) j)))
                    (heap st) j Hj).
        -- done.
        -- apply elem_of_app. right. by left.
        -- rewrite Hst' in Hj'. split; [by exists j'|]. left.
           unfold attempts_left. rewrite Hj', Hj. simpl in Hat'. lia.
      * apply Z.leb_gt in Hle. right.
        assert (r ∉ queue st) as Hnotin.
        { intros Hin.
          destruct (so_queued _ _ _ (sh_store _ Hs) r Hin) as (jq & Hjq & Hq).
          congruence. }
        match type of Hst' with
        | drain ?mid = _ =>
            pose proof (PrinterSpec.drain_lookup mid r
                          (set_status Error
                             (set_error (Some msg)
                                (set_attempts (attempts j + 1) j)))) as Hlook
        end.
        simpl in Hlook. rewrite Hst' in Hlook.
        specialize (Hlook (PrinterSpec.lookup_update_eq r
                             (fun j => set_status Error
                                         (set_error (Some msg)
                                            (set_attempts (attempts j + 1) j)))
                             (heap st) j Hj) Hnotin).
        eexists. split; [exact Hlook|]. split; [done|]. simpl.
        split; [lia|].
        destruct (PrinterSpec.reachable_failing opts pf r st' HR Hr')
          as [_ Hf'].
        pose proof (fo_count _ _ _ Hf' _ Hlook) as Hcount. simpl in Hcount.
        pose proof (PrinterMore.reachable_shape _ _ _ _ Hr') as Hs'.
        destruct (decide (current st' = Some r)) as [Hcur|_]; [|lia].
        destruct (sh_current _ Hs' r Hcur) as (jx & Hjx & Hpx).
        rewrite Hlook in Hjx. by injection Hjx as <-.
    + destruct (Hother Hne) as (Hin & jq & Hjq & Hq).
      left.
      destruct (spawnCommand (dispatch pf jc) ev) as [[]|msg].
      * injection Hstep as <-. apply (finish_other opts st r jq c); try done.
        by left.
      * simpl in Hstep.
        destruct (attempts jc + 1 <=? queueRetries opts);
          injection Hstep as <-; apply (finish_other opts st r jq c); try done.
        -- by right.
        -- by left.
Qed.

Lemma works_closer opts pf r st' st :
  0 <= queueRetries opts -> works_on opts pf r st' st -> closer opts r st' st.
Proof.
  intros HR. induction 1 as [st e st' Hr Hu Hw Henv Hstep Hu'
                            |st job newid now st' st'' Hr Hu Hstep _ IH].
  - pose proof (step_progress opts pf r st e st' HR Hr Hu Henv Hstep) as Hp.
    rewrite Hw in Hp. destruct Hp as [[_ Hc]|(j & Hj & He & _)]; [done|].
    destruct Hu' as (j' & Hj' & Hst). rewrite Hj in Hj'. injection Hj' as <-.
    destruct Hst; congruence.
  - destruct (step_progress opts pf r st (Enqueue job newid now) st' HR Hr Hu)
      as (_ & Ha & Hb & Hc); [by split|done|].
    unfold closer in *. rewrite <- Ha, <- Hb, <- Hc. exact IH.
Qed.

Lemma closer_acc opts r :
  forall a b c st,
    attempts_left opts r st = a -> ahead r st = b -> turn_left st = c ->
    Acc (closer opts r) st.
Proof.
  intros a. induction a as [a IHa] using lt_wf_ind.
  intros b. induction b as [b IHb] using lt_wf_ind.
  intros c. induction c as [c IHc] using lt_wf_ind.
  intros st Ha Hb Hc. constructor.
  intros st' [Hlt|[Heq [Hlt|[Heq' Hlt]]]].
  - apply (IHa (attempts_left opts r st') ltac:(lia)
             (ahead r st') (turn_left st')); done.
  - apply (IHb (ahead r st') ltac:(lia) (turn_left st')); [congruence|done..].
  - apply (IHc (turn_left st') ltac:(lia)); congruence.
Qed.

Lemma obeys_reachable opts pf env es : forall st st',
  reachable_under opts pf env st -> obeys opts pf env st es ->
  run opts pf st es = Some st' -> reachable_under opts pf env st'.
Proof.
  induction es as [|e es IH]; simpl; intros st st' Hr Ho Hrun.
  - by injection Hrun as <-.
  - destruct Ho as [He Ho].
    destruct (step opts pf st e) as [mid|] eqn:Hstep; [|done].
    apply (IH mid st'); [|exact Ho|exact Hrun].
    by apply (reach_step _ _ _ st e).
Qed.

(** C3.  With [queueRetries = R] (a count, so [0 <= R]):
    - in every reachable state every job has between 0 and [R + 1]
      attempts, and a job with more than [R] attempts is in status
      [error], is not in the queue, and stays so whatever happens next:
      it is never requeued;
    - a job whose file exists whenever it is checked and whose every
      dispatch fails is never completed, is taken from the queue at
      most [R + 1] times, and once in status [error] it has exactly
      [R + 1] attempts and was taken from the queue exactly [R + 1]
      times;
    - such a job does get there when it is alone: enqueued on an idle
      queue and failing [R + 1] times in a row, it ends in [error] with
      [R + 1] attempts after [R + 1] transitions from [queued] to
      [printing], and the drain loop stops;
    - and it gets there whatever other jobs share the queue.  While the
      job has not ended the worker is never idle and the [await] it
      waits at can always be answered.  Each answer either ends the
      job, in [error] with [R + 1] attempts after [R + 1] transitions
      from [queued] to [printing], or brings it closer to its end: it
      has fewer attempts left, or as many and fewer jobs are served
      before its next turn, or as many of both and fewer [await]s are
      left of the turn in progress; a submission changes none of the
      three.  So the job cannot stay unsettled through infinitely many
      answers, and whenever the worker has stopped the job is in
      [error] with [R + 1] attempts after [R + 1] such transitions. *)
Theorem retry_bound (opts : PrinterQueueOptions) (pf : Platform) :
  0 <= queueRetries opts ->
  (forall st r j, reachable opts pf st -> heap st !! r = Some j ->
     0 <= attempts j <= queueRetries opts + 1 /\
     (queueRetries opts < attempts j ->
      status j = Error /\ (r ∉ queue st) /\
      forall es st', run opts pf st es = Some st' ->
                     heap st' !! r = Some j /\ (r ∉ queue st'))) /\
  (forall r st j,
     reachable_under opts pf (always_fails_for pf r) st ->
     heap st !! r = Some j ->
     status j <> Completed /\
     Z.of_nat (printings r st) <= queueRetries opts + 1 /\
     (status j = Error ->
      attempts j = queueRetries opts + 1 /\
      Z.of_nat (printings r st) = queueRetries opts + 1)) /\
  (forall st job newid now,
     reachable opts pf st -> processing st = false ->
     exists st',
       run opts pf st
         (Enqueue job newid now
            :: failed_attempts (S (Z.to_nat (queueRetries opts)))) = Some st' /\
       exhausted (length (heap st)) (queueRetries opts + 1)
         (S (Z.to_nat (queueRetries opts))) st') /\
  (forall r st,
     reachable_under opts pf (always_fails_for pf r) st -> unsettled r st ->
     phase st <> Idle /\ processing st = true /\
     exists e, is_worker e = true /\ always_fails_for pf r st e /\
               step opts pf st e <> None) /\
  (forall r st e st',
     reachable_under opts pf (always_fails_for pf r) st -> unsettled r st ->
     always_fails_for pf r st e -> step opts pf st e = Some st' ->
     if is_worker e then
       (unsettled r st' /\ closer opts r st' st) \/
       (exists j, heap st' !! r = Some j /\ status j = Error /\
                  attempts j = queueRetries opts + 1 /\
                  Z.of_nat (printings r st') = queueRetries opts + 1)
     else
       unsettled r st' /\
       attempts_left opts r st' = attempts_left opts r st /\
       ahead r st' = ahead r st /\ turn_left st' = turn_left st) /\
  (forall r st, Acc (works_on opts pf r) st) /\
  (forall r st j,
     reachable_under opts pf (always_fails_for pf r) st ->
     phase st = Idle -> heap st !! r = Some j ->
     status j = Error /\ attempts j = queueRetries opts + 1 /\
     Z.of_nat (printings r st) = queueRetries opts + 1).
Proof.
  intros HR. split; [|split; [|split; [|split; [|split; [|split]]]]].
  - intros st r j Hr Hj.
    pose proof (PrinterSpec.reachable_ok opts pf st HR Hr) as Hok.
    split; [by apply (ok_attempts _ _ (ok_loop _ _ Hok) r)|].
    intros Hover.
    pose proof (ok_exhausted _ _ (ok_loop _ _ Hok) r j Hj Hover) as Herr.
    split; [done|]. split.
    + eapply PrinterSpec.current_not_queued; eauto; [apply Hok|congruence].
    + intros es st' Hrun. eapply PrinterSpec.run_settled; eauto.
  - intros r st j Hr Hj.
    destruct (PrinterSpec.reachable_failing opts pf r st HR Hr)
      as [Hok [Hc Hs He]].
    specialize (Hc j Hj).
    pose proof (ok_attempts _ _ (ok_loop _ _ Hok) r j Hj) as Hrange.
    split; [by apply Hs|].
    destruct (decide (current st = Some r)) as [Hcur|Hcur].
    + destruct (ok_current _ _ Hok r Hcur) as (j' & Hj' & Hst & Hat).
      assert (j' = j) as -> by congruence.
      split; [lia|]. intros Herr. congruence.
    + split; [lia|]. intros Herr. specialize (He j Hj Herr). lia.
  - intros st job newid now Hr Hproc.
    pose proof (PrinterSpec.enqueue_idle_focused opts pf st job newid now
                  HR Hr Hproc) as Hfoc.
    destruct (PrinterSpec.failed_attempts_exhaust opts pf (length (heap st))
                (Z.to_nat (queueRetries opts)) _ 0 1%nat Hfoc)
      as (st' & Hrun & Hex); [lia|].
    exists st'. split; [exact Hrun|exact Hex].
  - intros r st Hr Hu.
    pose proof (PrinterMore.reachable_shape _ _ _ _ Hr) as Hs.
    destruct (unsettled_current st r Hs Hu) as (c & Hc & Hp & _).
    destruct (sh_current _ Hs c Hc) as (jc & Hjc & _).
    unfold current in Hc.
    destruct (phase st) as [|c'|c'] eqn:Hph; [done| |];
      injection Hc as ->; (split; [done|]); (split; [done|]).
    + exists (AccessDone true). split; [done|]. split; [by split|].
      simpl. unfold processJob_access. by rewrite Hph, Hjc.
    + exists (SpawnDone (ChildExit (Some 1))). split; [done|]. split.
      * split; [done|]. by intros _ ev j [= <-] _.
      * simpl. unfold processJob_dispatch. rewrite Hph, Hjc. simpl.
        by destruct (attempts jc + 1 <=? queueRetries opts).
  - intros r st e st'. by apply step_progress.
  - intros r st.
    induction (closer_acc opts r _ _ _ st eq_refl eq_refl eq_refl)
      as [st _ IH].
    constructor. intros st' Hw. apply IH. by apply (works_closer opts pf).
  - intros r st j Hr Hph Hj.
    pose proof (PrinterMore.reachable_shape _ _ _ _ Hr) as Hs.
    destruct (PrinterSpec.reachable_failing opts pf r st HR Hr) as [_ Hf].
    assert (current st = None) as Hc by (unfold current; by rewrite Hph).
    destruct (sh_idle _ Hs Hc) as [Hq _].
    assert (status j = Error) as Herr.
    { destruct (status j) eqn:Hst; [| | |done].
      - pose proof (so_waiting _ _ _ (sh_store _ Hs) r j Hj Hst) as Hin.
        rewrite Hq in Hin. by apply elem_of_nil in Hin.
      - pose proof (sh_printing _ Hs r j Hj Hst). congruence.
      - by destruct (fo_status _ _ _ Hf j Hj). }
    pose proof (fo_error _ _ _ Hf j Hj Herr) as Hat.
    pose proof (fo_count _ _ _ Hf j Hj) as Hcount.
    rewrite decide_False in Hcount by congruence.
    split; [done|]. split; [done|lia].
Qed.

(** Two jobs share the queue with [queueRetries = 2].  The first fails
    at every dispatch and the second is printed in between: once the
    worker has stopped, the first is in [error] with three attempts
    after three transitions from [queued] to [printing]. *)
Lemma retry_bound_witness :
  match run (retry_options 2) Posix init shared_run with
  | Some st' =>
      match heap st' !! 0%nat with
      | Some j =>
          status j = Error /\ attempts j = 2 + 1 /\
          Z.of_nat (printings 0 st') = 2 + 1
      | None => False
      end
  | None => False
  end.
Proof.
  destruct (run (retry_options 2) Posix init shared_run) as [st'|] eqn:Hrun;
    [|discriminate Hrun].
  assert (reachable_under (retry_options 2) Posix (always_fails_for Posix 0) st')
    as Hr.
  { apply (obeys_reachable (retry_options 2) Posix (always_fails_for Posix 0)
             shared_run init st'); [apply reach_init| |exact Hrun].
    clear. vm_compute.
    repeat split;
      try (intros; discriminate);
      try (intros _ ev j [= <-] [= <-]; discriminate). }
  vm_compute in Hrun. injection Hrun as <-.
  refine (proj2 (proj2 (proj2 (proj2 (proj2 (proj2
            (retry_bound (retry_options 2) Posix _)))))) 0%nat _ _ Hr _ _).
  - simpl. lia.
  - reflexivity.
  - reflexivity.
Defined.

End PrinterProgress.

(* ===================================================================== *)
(** * Further properties of the camera service *)
(* ===================================================================== *)

Module CameraMore.
Import Camera.

Lemma step_enabled st e st' :
  liveViewEnabled st = liveInterval st -> step st e = Some st' ->
  liveViewEnabled st' = liveInterval st'.
Proof.
  intros Heq Hstep. destruct e; simpl in Hstep.
  - by injection Hstep as <-.
  - by injection Hstep as <-.
  - injection Hstep as <-. unfold startLiveView.
    by destruct (liveInterval st) eqn:Hon.
  - injection Hstep as <-. simpl. by destruct (liveInterval st) eqn:Hon.
  - unfold interval_fire in Hstep.
    destruct (liveInterval st) eqn:Hon; [|discriminate].
    injection Hstep as <-. simpl. congruence.
  - unfold interval_resume in Hstep. destruct (ticking st); [discriminate|].
    destruct res; by injection Hstep as <-.
  - unfold interval_resume_thrown in Hstep.
    destruct (ticking st); [discriminate|].
    destruct (decide (thrower ∈ registration st)); [|discriminate].
    by injection Hstep as <-.
  - injection Hstep as <-. unfold getLatestFrame.
    by destruct (latestFrame st).
  - unfold getLatestFrame_resume in Hstep.
    destruct (querying st); [discriminate|].
    destruct res; by injection Hstep as <-.
  - by injection Hstep as <-.
  - unfold capture_resume in Hstep. destruct (capturing st); [discriminate|].
    destruct res as [[path buf]|m]; by injection Hstep as <-.
Qed.

(** The status tells the truth about the frame timer: in every
    reachable state its [liveView] flag is set exactly while the
    interval is installed, so the timer can fire exactly when the
    status says live view is on. *)
Theorem status_reports_timer (d : DriverName) (st : State) :
  reachable st ->
  cs_liveView (getStatus d st) = liveInterval st /\
  (cs_liveView (getStatus d st) = true <-> step st TimerFires <> None).
Proof.
  intros Hr.
  assert (liveViewEnabled st = liveInterval st) as Heq.
  { induction Hr as [|st e st' _ IH Hstep]; [done|].
    by apply (step_enabled st e). }
  split; [exact Heq|]. simpl. rewrite Heq. unfold interval_fire.
  destruct (liveInterval st) eqn:Hon; split; done.
Qed.

Lemma status_reports_timer_witness :
  cs_liveView (getStatus Mock (startLiveView (registerLiveViewClient 1 init)))
  = true.
Proof.
  destruct (status_reports_timer Mock
              (startLiveView (registerLiveViewClient 1 init))) as [Hs _].
  - apply (reach_step (registerLiveViewClient 1 init) StartLiveView);
      [|reflexivity].
    apply (reach_step init (Register 1)); [apply reach_init|reflexivity].
  - rewrite Hs. reflexivity.
Defined.

Lemma step_registration st e st' :
  registration_ok st -> step st e = Some st' -> registration_ok st'.
Proof.
  intros [Hnd Hsame] Hstep. destruct e; simpl in Hstep.
  - injection Hstep as <-. split; simpl.
    + destruct (decide (cb ∈ registration st)) as [Hin|Hout]; [done|].
      apply NoDup_app. split; [done|]. split; [|apply NoDup_singleton].
      intros x Hx Hx'. apply list_elem_of_singleton in Hx' as ->. done.
    + intros x. rewrite elem_of_union, elem_of_singleton, <- Hsame.
      destruct (decide (cb ∈ registration st)) as [Hin|Hout].
      * split; [by left|]. intros [?| ->]; done.
      * rewrite elem_of_app, list_elem_of_singleton. done.
  - injection Hstep as <-. split; simpl.
    + apply NoDup_ListNoDup, List.NoDup_filter, NoDup_ListNoDup. exact Hnd.
    + intros x. rewrite elem_of_difference, elem_of_singleton, <- Hsame.
      rewrite list_elem_of_In, filter_In, <- list_elem_of_In.
      rewrite negb_true_iff, Nat.eqb_neq. done.
  - injection Hstep as <-. unfold startLiveView.
    by destruct (liveInterval st) eqn:Hon.
  - by injection Hstep as <-.
  - unfold interval_fire in Hstep.
    destruct (liveInterval st) eqn:Hon; [|discriminate].
    by injection Hstep as <-.
  - unfold interval_resume in Hstep. destruct (ticking st); [discriminate|].
    destruct res; by injection Hstep as <-.
  - unfold interval_resume_thrown in Hstep.
    destruct (ticking st); [discriminate|].
    destruct (decide (thrower ∈ registration st)); [|discriminate].
    by injection Hstep as <-.
  - injection Hstep as <-. unfold getLatestFrame.
    by destruct (latestFrame st).
  - unfold getLatestFrame_resume in Hstep.
    destruct (querying st); [discriminate|].
    destruct res; by injection Hstep as <-.
  - by injection Hstep as <-.
  - unfold capture_resume in Hstep. destruct (capturing st); [discriminate|].
    destruct res as [[path buf]|m]; by injection Hstep as <-.
Qed.

Lemma reachable_registration st : reachable st -> registration_ok st.
Proof.
  induction 1 as [|st e st' _ IH Hstep].
  - split; simpl; [constructor|]. intros cb. split; intros H.
    + by apply elem_of_nil in H.
    + by apply not_elem_of_empty in H.
  - by apply (step_registration st e).
Qed.

Lemma called_until_split thrower before rest :
  thrower ∉ before ->
  called_until thrower (before ++ thrower :: rest) = before ++ [thrower].
Proof.
  induction before as [|x before IH]; intros Hnot; simpl.
  - by rewrite Nat.eqb_refl.
  - apply not_elem_of_cons in Hnot as [Hne Hnot].
    destruct (Nat.eqb_spec x thrower) as [->|_]; [done|]. by rewrite IH.
Qed.

(** A frame that arrives from the timer becomes the cached frame and
    is handed to the listeners in the order of their registration.
    When no listener throws, every listener registered at that moment
    is called with it exactly once, and nobody else.  When a listener
    throws, the listeners registered before it and that listener have
    been called once and those registered after it are not called.
    Registering a listener a second time does not make it receive
    frames twice.  When the driver fails, nothing is delivered and the
    cache is left alone. *)
Theorem frames_fan_out (st : State) (n : nat) :
  reachable st -> ticking st = S n ->
  (NoDup (registration st) /\
   forall cb, cb ∈ registration st <-> cb ∈ liveViewClients st) /\
  (forall f, exists st',
     interval_resume (Ok f) st = Some st' /\
     latestFrame st' = Some f /\
     delivered st'
     = delivered st ++ map (fun cb => (cb, f)) (registration st)) /\
  (forall f thrower,
     thrower ∈ liveViewClients st ->
     exists st' before rest,
       registration st = before ++ thrower :: rest /\
       interval_resume_thrown f thrower st = Some st' /\
       latestFrame st' = Some f /\
       delivered st'
       = delivered st ++ map (fun cb => (cb, f)) (before ++ [thrower]) /\
       forall cb, cb ∈ rest -> forall g, (cb, g) ∉ map (fun cb => (cb, f))
                                                     (before ++ [thrower])) /\
  (forall m, exists st',
     interval_resume (Err m) st = Some st' /\
     latestFrame st' = latestFrame st /\ delivered st' = delivered st) /\
  (forall cb,
     registration (registerLiveViewClient cb (registerLiveViewClient cb st))
     = registration (registerLiveViewClient cb st) /\
     liveViewClients (registerLiveViewClient cb (registerLiveViewClient cb st))
     = liveViewClients (registerLiveViewClient cb st)).
Proof.
  intros Hr Ht. destruct (reachable_registration st Hr) as [Hnd Hsame].
  split; [by split|]. split; [|split; [|split]].
  - intros f. unfold interval_resume. rewrite Ht. eexists.
    split; [reflexivity|]. done.
  - intros f thrower Hin. apply Hsame in Hin.
    destruct (list_elem_of_split _ _ Hin) as (before & rest & Hsplit).
    assert ((thrower ∉ before) /\ (thrower ∉ rest)) as [Hnb Hnr].
    { rewrite Hsplit in Hnd. apply NoDup_app in Hnd as (_ & Hdis & Hnd').
      apply NoDup_cons in Hnd' as [Hnr _]. split; [|done].
      intros Hb. apply (Hdis _ Hb). by left. }
    exists (deliver_until thrower f
              (set_latestFrame (Some f)
                 (set_waiting n (querying st) (capturing st) st))),
      before, rest.
    split; [exact Hsplit|]. split.
    { unfold interval_resume_thrown. rewrite Ht.
      by rewrite decide_True by done. }
    split; [done|]. split.
    { simpl. rewrite Hsplit. by rewrite called_until_split. }
    intros cb Hcb g Hmem. apply list_elem_of_In, in_map_iff in Hmem
      as (cb' & [= -> ->] & Hin').
    apply list_elem_of_In in Hin'.
    rewrite Hsplit in Hnd. apply NoDup_app in Hnd as (_ & Hdis & Hnd').
    apply elem_of_app in Hin' as [Hb|Hb].
    + apply (Hdis _ Hb). by right.
    + apply list_elem_of_singleton in Hb as ->. done.
  - intros m. unfold interval_resume. rewrite Ht. eexists.
    split; [reflexivity|]. done.
  - intros cb. simpl. split.
    + destruct (decide (cb ∈ registration st)) as [Hin|Hout].
      * by rewrite decide_True.
      * rewrite decide_True; [done|]. apply elem_of_app. right. by left.
    + by rewrite <- (assoc_L (∪)), (idemp_L (∪)).
Qed.

Lemma frames_fan_out_witness :
  (exists st',
     interval_resume (Ok frame) three_listeners = Some st' /\
     latestFrame st' = Some frame /\
     delivered st' = [(3%nat, frame); (1%nat, frame); (2%nat, frame)]) /\
  (exists st' before rest,
     registration three_listeners = before ++ 1%nat :: rest /\
     interval_resume_thrown frame 1 three_listeners = Some st' /\
     latestFrame st' = Some frame /\
     delivered st'
     = delivered three_listeners
       ++ map (fun cb => (cb, frame)) (before ++ [1%nat]) /\
     forall cb, cb ∈ rest ->
       forall g, (cb, g) ∉ map (fun cb => (cb, frame)) (before ++ [1%nat])).
Proof.
  assert (reachable three_listeners) as Hr.
  { apply (CameraSpec.camera_run_reachable
             [ Register 3; Register 1; Register 2; StartLiveView; TimerFires ]
             init); [apply reach_init|reflexivity]. }
  destruct (frames_fan_out three_listeners 0 Hr eq_refl)
    as (_ & Hall & Hthrown & _).
  split.
  - exact (Hall frame).
  - apply (Hthrown frame 1%nat).
    apply elem_of_union_l, elem_of_union_r. by apply elem_of_singleton.
Defined.

Lemma step_cached st e st' :
  latestFrame st <> None -> step st e = Some st' ->
  latestFrame st' <> None /\
  fetches st' = (fetches st + (if is_timer e then 1 else 0))%nat.
Proof.
  intros Hc Hstep. destruct e; simpl in Hstep; simpl.
  - injection Hstep as <-. split; [done|]. simpl. unfold fetches. simpl. lia.
  - injection Hstep as <-. split; [done|]. unfold fetches. simpl. lia.
  - injection Hstep as <-.
    destruct (CameraSpec.startLiveView_same st) as (_ & -> & ->).
    split; [done|lia].
  - injection Hstep as <-. split; [done|]. unfold fetches. simpl. lia.
  - destruct (CameraSpec.interval_fire_on _ _ Hstep) as (_ & _ & _ & ->).
    split; [|lia]. unfold interval_fire in Hstep.
    destruct (liveInterval st); [|discriminate]. by injection Hstep as <-.
  - destruct (CameraSpec.interval_resume_same _ _ _ Hstep) as (_ & _ & -> & H).
    split; [by apply H|lia].
  - unfold interval_resume_thrown in Hstep.
    destruct (ticking st); [discriminate|].
    destruct (decide (thrower ∈ registration st)); [|discriminate].
    injection Hstep as <-. split; [done|]. unfold fetches. simpl. lia.
  - injection Hstep as <-. rewrite CameraSpec.getLatestFrame_cached by done.
    split; [done|lia].
  - destruct (getLatestFrame_resume res st) as [[st1 out]|] eqn:Hq;
      [|discriminate]. injection Hstep as <-.
    destruct (CameraSpec.getLatestFrame_resume_same _ _ _ _ Hq)
      as (_ & _ & -> & H).
    split; [by apply H|lia].
  - injection Hstep as <-. split; [done|]. unfold fetches. simpl.
    rewrite CameraSpec.count_fetches_app. simpl. lia.
  - destruct (capture_resume res now st) as [[st1 out]|] eqn:Hq;
      [|discriminate]. injection Hstep as <-.
    destruct (CameraSpec.capture_resume_same _ _ _ _ _ Hq) as (_ & _ & -> & H).
    split; [by apply H|lia].
Qed.

(** Once a frame is cached, the cache is never empty again: whatever
    happens afterwards, every query is answered from it without a call
    on the driver, and the only frame fetches made are those of the
    timer, one each time it fires. *)
Theorem cache_is_never_emptied (es : list Event) :
  forall st st',
    latestFrame st <> None -> run st es = Some st' ->
    latestFrame st' <> None /\
    fetches st' = (fetches st + count_timer es)%nat /\
    fst (getLatestFrame st') = st' /\
    snd (getLatestFrame st') <> Awaiting.
Proof.
  induction es as [|e es IH]; intros st st' Hc Hrun; simpl in Hrun.
  - injection Hrun as <-. split; [done|]. split; [simpl; lia|].
    unfold getLatestFrame. by destruct (latestFrame st).
  - destruct (step st e) as [mid|] eqn:Hstep; [|discriminate].
    destruct (step_cached st e mid Hc Hstep) as [Hc' Hf].
    destruct (IH mid st' Hc' Hrun) as (H1 & H2 & H3 & H4).
    repeat split; try done. rewrite H2, Hf. simpl.
    destruct (is_timer e); lia.
Qed.

Lemma cache_is_never_emptied_witness :
  exists st',
    run (set_latestFrame (Some frame) init)
      [StartLiveView; Query; StopLiveView; Query; CaptureCall] = Some st' /\
    latestFrame st' <> None /\ fetches st' = O.
Proof.
  eexists. split; [reflexivity|].
  destruct (cache_is_never_emptied
              [StartLiveView; Query; StopLiveView; Query; CaptureCall]
              (set_latestFrame (Some frame) init) _ ltac:(done) eq_refl)
    as (H1 & H2 & _).
  split; [exact H1|exact H2].
Defined.

(** A capture refreshes what [GET /live] serves: after
    [POST /capture] has succeeded, the cached frame is the captured
    picture and the next query answers it without asking the driver;
    the capture itself makes no frame fetch.  The timer is started by
    the request only when it asks for live view to resume, and is
    otherwise left as it was. *)
Theorem capture_refreshes_live (sv sv1 : Server) :
  handle sv PostCapture = Some sv1 ->
  fetches (camera sv1) = fetches (camera sv) /\
  forall resume path buf now,
    exists sv2,
      handle sv1 (PostCaptureDone resume (Ok (path, buf)) now) = Some sv2 /\
      getLatestFrame (camera sv2) = (camera sv2, Answer buf) /\
      lastCapture (camera sv2) = Some now /\
      cs_lastCapture (getStatus Mock (camera sv2)) = Some now /\
      liveInterval (camera sv2)
      = (if resume then true else liveInterval (camera sv)) /\
      clients sv2 = clients sv.
Proof.
  intros Hh. simpl in Hh. injection Hh as <-. split.
  - unfold fetches. simpl. rewrite CameraSpec.count_fetches_app. simpl. lia.
  - intros resume path buf now. simpl. destruct resume; eexists.
    + split; [reflexivity|]. simpl. unfold startLiveView. simpl.
      destruct (liveInterval (camera sv)); simpl; done.
    + split; [reflexivity|]. simpl. done.
Qed.

Lemma capture_refreshes_live_witness :
  exists sv2,
    handle (with_camera (capture init) server_init)
      (PostCaptureDone false (Ok ("capture.jpg"%string, frame)) 5) = Some sv2 /\
    getLatestFrame (camera sv2) = (camera sv2, Answer frame).
Proof.
  destruct (capture_refreshes_live server_init
              (with_camera (capture init) server_init) eq_refl)
    as [_ H].
  destruct (H false "capture.jpg"%string frame 5) as (sv2 & H1 & H2 & _).
  exists sv2. split; [exact H1|exact H2].
Defined.

(** ** The frame interval *)

(** For a frame rate other than 0 the timer period is at least one
    millisecond, so the timer never spins; for a positive rate of at
    most 2000 frames per second it is within half a millisecond of
    1000 / rate, and for a faster or a negative rate it is one
    millisecond. *)
Theorem frame_interval_bounds (rate : Q) :
  ~ (rate == 0)%Q ->
  1 <= frameInterval rate /\
  ((0 < rate)%Q -> (rate <= 2000)%Q ->
   (inject_Z (frameInterval rate) - (1 # 2) <= 1000 / rate)%Q /\
   (1000 / rate < inject_Z (frameInterval rate) + (1 # 2))%Q) /\
  ((2000 <= rate)%Q \/ (rate < 0)%Q -> frameInterval rate = 1).
Proof.
  intros _. unfold frameInterval, round. split; [lia|]. split.
  - intros Hpos Hle.
    assert (1 # 2 <= 1000 / rate)%Q as Hhalf.
    { apply Qle_shift_div_l; [done|]. lra. }
    set (x := (1000 / rate)%Q) in *.
    assert (1 <= Qfloor (x + (1 # 2))) as Hone.
    { apply (Qfloor_resp_le 1 (x + (1 # 2))). lra. }
    rewrite Z.max_r by lia.
    pose proof (Qfloor_le (x + (1 # 2))) as Hlo.
    pose proof (Qlt_floor (x + (1 # 2))) as Hhi.
    rewrite inject_Z_plus in Hhi. change (inject_Z 1) with 1%Q in Hhi.
    set (k := inject_Z (Qfloor (x + (1 # 2)))) in *. clearbody k.
    clearbody x. split; lra.
  - intros [Hbig|Hneg].
    + assert (0 < rate)%Q as Hpos by lra.
      assert (1000 / rate <= 1 # 2)%Q as Hhalf.
      { apply Qle_shift_div_r; [done|]. lra. }
      set (x := (1000 / rate)%Q) in *.
      assert (Qfloor (x + (1 # 2)) <= 1) as Hone.
      { apply (Qfloor_resp_le (x + (1 # 2)) 1). lra. }
      lia.
    + assert (1000 / rate <= 0)%Q as Hle.
      { unfold Qdiv. assert (/ rate < 0)%Q as Hinv.
        { destruct rate as [[|p|p] q]; unfold Qlt in *; simpl in *; lia. }
        set (y := (/ rate)%Q) in *. lra. }
      set (x := (1000 / rate)%Q) in *.
      assert (Qfloor (x + (1 # 2)) <= 0) as Hzero.
      { apply (Qfloor_resp_le (x + (1 # 2)) (1 # 2)). lra. }
      lia.
Qed.

Lemma frame_interval_bounds_witness :
  (inject_Z (frameInterval 30) - (1 # 2) <= 1000 / 30)%Q /\
  (1000 / 30 < inject_Z (frameInterval 30) + (1 # 2))%Q.
Proof.
  apply (proj1 (proj2 (frame_interval_bounds 30 ltac:(done)))); [done|done].
Defined.

(** ** The Canon driver *)

Lemma canon_calls (es : list CanonEvent) :
  forall d k rest,
    nativeCalls d
    = repeat (NStartLiveView false) k
      ++ (if liveViewStarted d then NStartLiveView true :: rest else []) ->
    forallb after_start rest = true ->
    exists k' rest',
      nativeCalls (fold_left canon_step es d)
      = repeat (NStartLiveView false) k'
        ++ (if liveViewStarted (fold_left canon_step es d)
            then NStartLiveView true :: rest' else []) /\
      forallb after_start rest' = true.
Proof.
  induction es as [|e es IH]; intros d k rest Hd Hrest; simpl.
  - by exists k, rest.
  - destruct e as [ok frame|]; simpl.
    + unfold canon_getLiveFrame, ensureLiveView.
      destruct (liveViewStarted d) eqn:Hs; simpl.
      * apply (IH _ k (rest ++ [NGetLiveFrame])).
        -- destruct frame; simpl; rewrite Hs, Hd;
             by rewrite <- app_assoc.
        -- rewrite forallb_app, Hrest. done.
      * rewrite app_nil_r in Hd. destruct ok; simpl.
        -- apply (IH _ k [NGetLiveFrame]); [|done].
           destruct frame; simpl; rewrite Hd; by rewrite <- app_assoc.
        -- apply (IH _ (S k) []); [|done]. simpl. rewrite Hs, Hd.
           rewrite app_nil_r. by rewrite <- repeat_cons.
    + unfold canon_dispose. destruct (liveViewStarted d) eqn:Hs.
      * apply (IH _ k (rest ++ [NStopLiveView])).
        -- simpl. rewrite Hs, Hd. by rewrite <- app_assoc.
        -- rewrite forallb_app, Hrest. done.
      * apply (IH _ k rest); [|done]. by rewrite Hs.
Qed.

(** Whatever is asked of the Canon driver, live view is started on the
    camera at most once: the calls on the native module are failed
    attempts to start it, then, if one succeeded, that start followed
    only by frame reads and stops.  No frame is read and nothing is
    stopped before live view has started, and it is never started
    again afterwards. *)
Theorem canon_starts_live_view_once (es : list CanonEvent) :
  exists k rest,
    nativeCalls (canon_run es)
    = repeat (NStartLiveView false) k
      ++ (if liveViewStarted (canon_run es)
          then NStartLiveView true :: rest else []) /\
    forallb after_start rest = true.
Proof.
  unfold canon_run. apply (canon_calls es canon_init O []); done.
Qed.

End CameraMore.

(* ===================================================================== *)
(** * Properties of the template renderer *)
(* ===================================================================== *)

Module TemplatesSpec.
Import Templates.

Lemma source_for_some (imgs : list string) (i : nat) :
  imgs <> [] -> exists src, source_for imgs i = Some src /\ src ∈ imgs.
Proof.
  intros Hne. unfold source_for. destruct (imgs !! i) as [s|] eqn:Hi.
  - exists s. split; [done|]. by apply list_elem_of_lookup_2 in Hi.
  - destruct (last imgs) as [s|] eqn:Hl.
    + exists s. split; [done|]. apply last_Some in Hl as [l' ->].
      apply elem_of_app. right. by left.
    + by apply last_None in Hl.
Qed.

Lemma truthy_nonempty (s : string) : s <> EmptyString -> truthy (Some s) = true.
Proof. by destruct s. Qed.

Lemma slot_loop_layers (w : World) (imgs : list string) :
  imgs <> [] -> Forall (fun s => s <> EmptyString) imgs ->
  (forall src ops, exists b, sharp_slot w src ops = Ok b) ->
  forall sls i acc,
  exists ls,
    slot_loop w imgs sls i acc = Ok (acc ++ ls) /\
    length ls = length sls /\
    forall k sl, sls !! k = Some sl ->
      exists src b,
        source_for imgs (i + k) = Some src /\ renderSlot w src sl = Ok b /\
        ls !! k = Some {| input := FromBuffer b; left := x sl; top := y sl |}.
Proof.
  intros Hne Hall Hsharp. induction sls as [|sl rest IH]; intros i acc.
  - exists []. simpl. rewrite app_nil_r. repeat split; try done.
  - cbn [slot_loop]. destruct (source_for_some imgs i Hne) as (src & Hsrc & Hin).
    rewrite Hsrc. rewrite Forall_forall in Hall.
    rewrite (truthy_nonempty src (Hall src Hin)).
    destruct (Hsharp src
                ([SlotResize (width sl) (height sl)]
                 ++ match radius sl with
                    | Some r =>
                        if r =? 0 then []
                        else [SlotMask (width sl) (height sl) r]
                    | None => []
                    end ++ [SlotPng])) as [b Hb].
    change (renderSlot w src sl = Ok b) in Hb. rewrite Hb.
    destruct (IH (S i)
                (acc ++ [{| input := FromBuffer b; left := x sl; top := y sl |}]))
      as (ls & Heq & Hlen & Hls).
    exists ({| input := FromBuffer b; left := x sl; top := y sl |} :: ls).
    split; [by rewrite Heq, <- app_assoc|]. split; [simpl; lia|].
    intros [|k] sl' Hk; simpl in Hk.
    + injection Hk as <-. exists src, b. rewrite Nat.add_0_r.
      split; [done|]. split; [exact Hb|done].
    + destruct (Hls k sl' Hk) as (src' & b' & H1 & H2 & H3).
      exists src', b'. replace (i + S k)%nat with (S i + k)%nat by lia.
      split; [done|]. split; [done|]. exact H3.
Qed.

(** The layers of a print are laid down in a fixed order: one layer per
    slot of the layout, then the QR code, then the caption, then the
    overlay of the template on top.  Slot [k] is filled with image [k]
    and placed at the slot's position; when there are fewer images than
    slots the last image fills the remaining slots, and images beyond
    the number of slots are not used.  The caption is cut to 60
    characters. *)
Theorem layers_fill_slots_in_order (w : World)
    (opts : TemplateRendererOptions) (layout : TemplateLayout)
    (req : TemplateRequest) :
  images req <> [] -> Forall (fun s => s <> EmptyString) (images req) ->
  (forall src ops, exists b, sharp_slot w src ops = Ok b) ->
  (forall d, exists b, qr_code w d = Ok b) ->
  exists slot_layers qr cap ov,
    layers w opts layout req = Ok (slot_layers ++ qr ++ cap ++ ov) /\
    length slot_layers = length (slots layout) /\
    (forall k sl, slots layout !! k = Some sl ->
       exists src b,
         (images req !! k = Some src \/
          (length (images req) <= k)%nat /\ last (images req) = Some src) /\
         src ∈ images req /\
         renderSlot w src sl = Ok b /\
         slot_layers !! k
         = Some {| input := FromBuffer b; left := x sl; top := y sl |}) /\
    (truthy (qrData req) = false /\ qr = [] \/
     exists d b,
       qrData req = Some d /\ qr_code w d = Ok b /\
       qr = [ {| input := FromBuffer b; left := size_width layout - 260;
                 top := size_height layout - 260 |} ]) /\
    (truthy (caption req) = false /\ cap = [] \/
     exists c,
       caption req = Some c /\
       cap = [ {| input := CaptionSvg (substring 0 60 c); left := 60;
                  top := size_height layout - 200 |} ]) /\
    ov = match loadAsset w opts (overlay layout) with
         | Some asset => [ {| input := FromFile asset; left := 0; top := 0 |} ]
         | None => []
         end.
Proof.
  intros Hne Hall Hsharp Hqr.
  destruct (slot_loop_layers w (images req) Hne Hall Hsharp (slots layout) 0 [])
    as (ls & Hloop & Hlen & Hls).
  simpl in Hloop.
  exists ls.
  exists (match qrData req with
          | Some d =>
              if truthy (qrData req) then
                match qr_code w d with
                | Ok b => [ {| input := FromBuffer b;
                               left := size_width layout - 260;
                               top := size_height layout - 260 |} ]
                | Err _ => []
                end
              else []
          | None => []
          end).
  exists (match caption req with
          | Some c =>
              if truthy (caption req)
              then [ {| input := CaptionSvg (substring 0 60 c); left := 60;
                        top := size_height layout - 200 |} ]
              else []
          | None => []
          end).
  eexists. split; [|split; [exact Hlen|split; [|split; [|split; [|reflexivity]]]]].
  - unfold layers. rewrite Hloop.
    destruct (qrData req) as [d|] eqn:Hd;
      [destruct (truthy (Some d)); [destruct (Hqr d) as [b ->]|]|];
      (destruct (caption req) as [c|] eqn:Hc;
        [destruct (truthy (Some c))|]);
      destruct (loadAsset w opts (overlay layout)); simpl;
      rewrite ?app_nil_r, <- ?app_assoc; reflexivity.
  - intros k sl Hk. destruct (Hls k sl Hk) as (src & b & Hsrc & Hrender & Hl).
    simpl in Hsrc. exists src, b.
    destruct (source_for_some (images req) k Hne) as (src' & Hsrc' & Hin).
    rewrite Hsrc in Hsrc'. injection Hsrc' as <-.
    split; [|split; [exact Hin|split; [exact Hrender|exact Hl]]].
    unfold source_for in Hsrc.
    destruct (images req !! k) as [s|] eqn:Hi.
    + left. by injection Hsrc as <-.
    + right. split; [by apply lookup_ge_None|done].
  - destruct (qrData req) as [d|] eqn:Hd; [|by left].
    destruct (truthy (Some d)) eqn:Ht; [|by left].
    right. destruct (Hqr d) as [b Hb]. exists d, b. by rewrite Hb.
  - destruct (caption req) as [c|] eqn:Hc; [|by left].
    destruct (truthy (Some c)) eqn:Ht; [|by left].
    right. by exists c.
Qed.

Lemma layers_fill_slots_in_order_witness :
  exists slot_layers rest,
    layers studio {| templatesDir := "templates"; processedDir := "processed" |}
      dual_strip_2x6 (strip_of ["a.jpg"; "b.jpg"]%string)
    = Ok (slot_layers ++ rest) /\
    length slot_layers = 6%nat.
Proof.
  destruct (layers_fill_slots_in_order studio
              {| templatesDir := "templates"; processedDir := "processed" |}
              dual_strip_2x6 (strip_of ["a.jpg"; "b.jpg"]%string))
    as (ls & qr & cap & ov & Heq & Hlen & _).
  - done.
  - by repeat constructor.
  - intros src ops. by eexists.
  - intros d. by eexists.
  - exists ls, (qr ++ cap ++ ov). split; [exact Heq|exact Hlen].
Defined.

Lemma library_inherited (i : string) :
  In i prototype_names -> TEMPLATE_LIBRARY i = Inherited.
Proof.
  unfold prototype_names. simpl. intros H.
  repeat (destruct H as [<-|H]; [reflexivity|]). done.
Qed.

Lemma library_layout (i : string) (l : TemplateLayout) :
  TEMPLATE_LIBRARY i = Layout l ->
  layout_id l = i /\ In l [classic_4x6; dual_strip_2x6; collage_4x6].
Proof.
  unfold TEMPLATE_LIBRARY.
  destruct (String.eqb i "classic-4x6") eqn:H1.
  { apply String.eqb_eq in H1 as ->. intros [= <-]. split; [done|]. by left. }
  destruct (String.eqb i "dual-strip-2x6") eqn:H2.
  { apply String.eqb_eq in H2 as ->. intros [= <-]. split; [done|].
    right. by left. }
  destruct (String.eqb i "collage-4x6") eqn:H3.
  { apply String.eqb_eq in H3 as ->. intros [= <-]. split; [done|].
    right. right. by left. }
  by destruct (existsb (String.eqb i) prototype_names).
Qed.

(** A print is produced only for one of the three templates of the
    library and at least one image; its format is that of the
    template.  Without images nothing is rendered, and a template id
    that happens to name a member of [Object.prototype] passes the
    unknown-template check and fails later with a type error instead. *)
Theorem render_needs_template_and_image (w : World)
    (opts : TemplateRendererOptions) (req : TemplateRequest) :
  (forall r, render w opts req = inl r ->
     exists layout,
       In layout [classic_4x6; dual_strip_2x6; collage_4x6] /\
       templateId req = layout_id layout /\ res_format r = format layout /\
       images req <> []) /\
  (images req = [] ->
   render w opts req = inr NoImages \/
   render w opts req = inr (UnknownTemplate (templateId req))) /\
  (In (templateId req) prototype_names -> images req <> [] ->
   render w opts req = inr TypeError).
Proof.
  split; [|split].
  - intros r. unfold render.
    destruct (TEMPLATE_LIBRARY (templateId req)) as [layout| |] eqn:Hlib;
      [|by destruct (images req)|done].
    destruct (library_layout _ _ Hlib) as [Hid Hin].
    destruct (images req) as [|img imgs] eqn:Himg; [done|].
    destruct (layers w opts layout req) as [composites|m]; [|done].
    destruct (compose w _ composites) as [composed|m]; [|done].
    destruct (toFile w _ composed) as [[]|m]; [|done].
    intros [= <-]. exists layout. by repeat split.
  - intros Hnil. unfold render. rewrite Hnil.
    destruct (TEMPLATE_LIBRARY (templateId req)); auto.
  - intros Hin Hne. unfold render. rewrite (library_inherited _ Hin).
    by destruct (images req).
Qed.

Lemma render_needs_template_and_image_witness :
  render studio {| templatesDir := "templates"; processedDir := "processed" |}
    {| templateId := "toString"; images := ["a.jpg"%string]; qrData := None;
       caption := None; accentColor := None |}
  = inr TypeError.
Proof.
  apply (proj2 (proj2 (render_needs_template_and_image studio
                         {| templatesDir := "templates";
                            processedDir := "processed" |}
                         {| templateId := "toString";
                            images := ["a.jpg"%string]; qrData := None;
                            caption := None; accentColor := None |}))).
  - simpl. tauto.
  - done.
Defined.

End TemplatesSpec.
